(** * minES: a switch-style acoustic echo suppressor

    Shallow embedding of [EchoSuppressor] (suppressor.h: the version
    with [EchoSuppressorConfig] and the two lag metrics, and the
    stand-alone version with fixed parameters) and of the [--hang] option
    of the command-line front ends, with the properties of the
    block-processing path.

    The C++ code computes on [float].  The embedding is written once over
    an interface [Arith] of the operations the code uses and is
    instantiated twice:
    - [binary32]: IEEE 754 single precision, through the executable
      specification [SpecFloat] of the Standard Library (round to nearest,
      ties to even; NaN, signed zeros and infinities included);
    - [xreal]: exact real arithmetic extended with the value minus
      infinity the search starts from.
    Properties of the control structure are proved for every instance;
    properties that depend on the arithmetic say which instance they are
    about.

    C++ [int], [size_t] and [ptrdiff_t] values are modelled as [Z]; the
    quantities involved (sample counts, block counters) stay far from the
    limits of these types.

    The development also covers the helpers of suppressor.h
    ([GainMeterString], [LagMetricName]), the first version of the class
    ([process_frame]) and the two front ends: echoback.cc (capture delay
    line, block loop, loopback delay line, device callback, lag
    statistics, delay options) and cancel_file.cc (WAV reader and writer,
    block loop).  There 16-bit samples and bytes are integers, queues are
    lists, and the wrap-around of [size_t], [uint32_t] and [int16_t] is
    written out where the code relies on it. *)

From Stdlib Require Import ZArith List Bool Lia Sorted.
From Stdlib Require Import Floats.SpecFloat.
From Stdlib Require Import Reals Lra.
From Stdlib Require String Ascii.
Import ListNotations.
Import String.StringSyntax Ascii.AsciiSyntax.

Local Open Scope Z_scope.
Delimit Scope string_scope with string.

(** ** The arithmetic interface *)

Class Arith (F : Type) : Type := {
  f_add : F -> F -> F;
  f_sub : F -> F -> F;
  f_mul : F -> F -> F;
  f_div : F -> F -> F;
  f_sqrt : F -> F;                 (* std::sqrt *)
  f_abs : F -> F;                  (* std::fabs *)
  f_pow : F -> F -> F;             (* std::pow *)
  f_ltb : F -> F -> bool;          (* operator< *)
  f_of_int : Z -> F;               (* static_cast<float>(int) *)
  f_to_int : F -> Z;               (* static_cast<int>(float) *)
  f_neg_inf : F                    (* -std::numeric_limits<float>::infinity() *)
}.

(** What the search needs of [operator<]: a strict order below which
    minus infinity has nothing. *)
Class ArithOrder (F : Type) {A : Arith F} : Prop := {
  f_ltb_irrefl : forall x : F, f_ltb x x = false;
  f_ltb_trans : forall x y z : F,
      f_ltb x y = true -> f_ltb y z = true -> f_ltb x z = true;
  f_ltb_neg_inf : forall x : F, f_ltb x f_neg_inf = false
}.

Section Model.

Context {F : Type} {A : Arith F}.

(** Decimal literals: [lit n d] is the literal whose value is [n / d],
    obtained by one division of two exactly represented integers, hence
    correctly rounded in [binary32] and exact in [xreal]. *)
Definition lit (n d : Z) : F := f_div (f_of_int n) (f_of_int d).

Definition zero : F := f_of_int 0.
Definition one : F := f_of_int 1.
Definition eps : F := lit 1 1000000000.          (* 1e-9f *)

(** [std::max(a, b)] is [(a < b) ? b : a]. *)
Definition fmax (a b : F) : F := if f_ltb a b then b else a.

(** Reading [p[i]] and writing [v[i] = x].  An index outside the
    sequence is undefined behaviour in C++; here a read gives zero and a
    write does nothing. *)
Definition rd (l : list F) (i : Z) : F := nth (Z.to_nat i) l zero.

Fixpoint upd_nat (l : list F) (n : nat) (x : F) : list F :=
  match l, n with
  | [], _ => []
  | _ :: t, O => x :: t
  | h :: t, S n' => h :: upd_nat t n' x
  end.

Definition upd (l : list F) (i : Z) (x : F) : list F :=
  if i <? 0 then l else upd_nat l (Z.to_nat i) x.

(** [for (int i = 0; i < n; ++i) s = body(i, s);] *)
Fixpoint for_from {St : Type} (count : nat) (i : Z) (body : Z -> St -> St) (s : St)
  : St :=
  match count with
  | O => s
  | S count' => for_from count' (i + 1) body (body i s)
  end.

Definition for_up {St : Type} (n : Z) (body : Z -> St -> St) (s : St) : St :=
  for_from (Z.to_nat n) 0 body s.

(** ** Configuration and state *)

Inductive LagMetric : Type := kNCC | kAMDF.

Definition LagMetric_eqb (a b : LagMetric) : bool :=
  match a, b with
  | kNCC, kNCC | kAMDF, kAMDF => true
  | _, _ => false
  end.

Record EchoSuppressorConfig : Type := {
  rho_thresh : F;
  power_ratio_alpha : F;
  atten_db : F;
  hangover_blocks : Z;
  attack : F;
  release : F;
  lag_metric : LagMetric
}.

(** The default member initialisers of [EchoSuppressorConfig]. *)
Definition default_config : EchoSuppressorConfig := {|
  rho_thresh := lit 6 10;
  power_ratio_alpha := lit 13 10;
  atten_db := f_of_int (-80);
  hangover_blocks := 20;
  attack := lit 1 10;
  release := lit 1 100;
  lag_metric := kNCC
|}.

Record EchoSuppressor : Type := {
  fs_ : Z;
  block_samples_ : Z;
  max_lag_samples_ : Z;
  config_ : EchoSuppressorConfig;
  atten_linear_ : F;
  far_hist_ : list F;
  hist_pos_ : Z;
  gate_gain_ : F;
  hang_cnt_ : Z
}.

(** [set_config]: stores the configuration and derives the linear muted
    gain [10^(atten_db/20)], clamped at zero from below. *)
Definition set_config (st : EchoSuppressor) (config : EchoSuppressorConfig)
  : EchoSuppressor :=
  let a := f_pow (f_of_int 10) (f_div (atten_db config) (f_of_int 20)) in
  {| fs_ := fs_ st;
     block_samples_ := block_samples_ st;
     max_lag_samples_ := max_lag_samples_ st;
     config_ := config;
     atten_linear_ := if f_ltb a zero then zero else a;
     far_hist_ := far_hist_ st;
     hist_pos_ := hist_pos_ st;
     gate_gain_ := gate_gain_ st;
     hang_cnt_ := hang_cnt_ st |}.

(** [reset]: zero the history, rewind the cursor, gain 1, no hangover. *)
Definition reset (st : EchoSuppressor) : EchoSuppressor :=
  {| fs_ := fs_ st;
     block_samples_ := block_samples_ st;
     max_lag_samples_ := max_lag_samples_ st;
     config_ := config_ st;
     atten_linear_ := atten_linear_ st;
     far_hist_ := map (fun _ => zero) (far_hist_ st);
     hist_pos_ := 0;
     gate_gain_ := one;
     hang_cnt_ := 0 |}.

(** The constructor [EchoSuppressor(sample_rate, config)]. *)
Definition new_suppressor (sample_rate : Z) (config : EchoSuppressorConfig)
  : EchoSuppressor :=
  let block := Z.max 1 (Z.quot sample_rate 100) in
  let max_lag :=
    Z.max block (f_to_int (f_mul (lit 8 100) (f_of_int sample_rate))) in
  let hist_len := max_lag + block * 4 in
  reset (set_config
    {| fs_ := sample_rate;
       block_samples_ := block;
       max_lag_samples_ := max_lag;
       config_ := config;
       atten_linear_ := f_pow (f_of_int 10) (f_div (f_of_int (-18)) (f_of_int 20));
       far_hist_ := repeat zero (Z.to_nat hist_len);
       hist_pos_ := 0;
       gate_gain_ := one;
       hang_cnt_ := 0 |} config).

(** The [--hang] option of the front ends:
    [std::max(0, std::stoi(value))]. *)
Definition parse_hang (value : Z) : Z := Z.max 0 value.

Definition with_hangover (config : EchoSuppressorConfig) (h : Z)
  : EchoSuppressorConfig :=
  {| rho_thresh := rho_thresh config;
     power_ratio_alpha := power_ratio_alpha config;
     atten_db := atten_db config;
     hangover_blocks := h;
     attack := attack config;
     release := release config;
     lag_metric := lag_metric config |}.

(** ** [process_block], step by step *)

(** The history store of one sample: write at the cursor, advance the
    cursor modulo the buffer size. *)
Definition push_sample (far : list F) (i : Z) (hp : list F * Z) : list F * Z :=
  let '(hist, pos) := hp in
  (upd hist pos (rd far i), (pos + 1) mod Z.of_nat (length hist)).

Definition push_block (block : Z) (far : list F) (hist : list F) (pos : Z)
  : list F * Z :=
  for_up block (push_sample far) (hist, pos).

(** The lambda [wrap_index]: C++ [%] truncates towards zero. *)
Definition wrap_index (hist_size pos offset : Z) : Z :=
  let idx := Z.rem (pos + offset) hist_size in
  if idx <? 0 then idx + hist_size else idx.

Definition mic_power (block : Z) (mic : list F) : F :=
  fmax (for_up block (fun i acc => f_add acc (f_mul (rd mic i) (rd mic i))) zero) eps.

Definition mic_abs_sum (use_amdf : bool) (block : Z) (mic : list F) : F :=
  if use_amdf
  then fmax (for_up block (fun i acc => f_add acc (f_abs (rd mic i))) zero) eps
  else zero.

(** The sample of the history that candidate [lag] aligns with [mic[i]]. *)
Definition hist_at (hist : list F) (pos block lag i : Z) : F :=
  rd hist (wrap_index (Z.of_nat (length hist)) pos (- (block + lag) + i)).

(** The three accumulators of the inner loop: [accum], [far_pow],
    [far_abs]. *)
Definition accumulate (use_amdf : bool) (hist : list F) (pos block lag : Z)
    (mic : list F) (i : Z) (s : F * F * F) : F * F * F :=
  let '(accum, far_pow, far_abs) := s in
  let fx := hist_at hist pos block lag i in
  let my := rd mic i in
  let far_pow := f_add far_pow (f_mul fx fx) in
  if use_amdf
  then (f_add accum (f_abs (f_sub fx my)), far_pow, f_add far_abs (f_abs fx))
  else (f_add accum (f_mul fx my), far_pow, far_abs).

Definition window_sums (use_amdf : bool) (hist : list F) (pos block lag : Z)
    (mic : list F) : F * F * F :=
  for_up block (accumulate use_amdf hist pos block lag mic) (zero, zero, zero).

(** Reference power of the window of candidate [lag], floored. *)
Definition lag_far_pow (use_amdf : bool) (hist : list F) (pos block : Z)
    (mic : list F) (lag : Z) : F :=
  let '(_, far_pow, _) := window_sums use_amdf hist pos block lag mic in
  fmax far_pow eps.

(** Similarity score of candidate [lag]. *)
Definition lag_score (use_amdf : bool) (hist : list F) (pos block : Z)
    (mic : list F) (mic_pow mic_abs : F) (lag : Z) : F :=
  let '(accum, far_pow, far_abs) := window_sums use_amdf hist pos block lag mic in
  let far_pow := fmax far_pow eps in
  if use_amdf
  then
    let denom := fmax (f_add mic_abs far_abs) eps in
    let score := f_sub one (f_div accum denom) in
    if f_ltb one score then one
    else if f_ltb score (f_of_int (-1)) then f_of_int (-1)
    else score
  else f_div accum (f_sqrt (f_mul far_pow mic_pow)).

(** The running best of the search: [best_score], [best_lag],
    [best_far_pow]. *)
Record Best : Type := {
  best_score : F;
  best_lag : Z;
  best_far_pow : F
}.

Definition best_init : Best :=
  {| best_score := f_neg_inf; best_lag := 0; best_far_pow := eps |}.

Section Search.

Variables (score far_pow : Z -> F).

(** Body of the search loop for one candidate. *)
Definition consider (lag : Z) (b : Best) : Best :=
  if f_ltb (best_score b) (score lag)
  then {| best_score := score lag; best_lag := lag; best_far_pow := far_pow lag |}
  else b.

(** [for (int lag = 0; lag <= max_lag; lag += lag_step)]. *)
Fixpoint lag_loop (fuel : nat) (max_lag lag_step lag : Z) (b : Best) : Best :=
  match fuel with
  | O => b
  | S fuel' =>
      if lag <=? max_lag
      then lag_loop fuel' max_lag lag_step (lag + lag_step) (consider lag b)
      else b
  end.

(** What the search promises about a running best [b] once the
    candidates [cands] have been examined: no candidate scores above it,
    it sits at the smallest candidate with its score, and unless no
    candidate was taken it carries that candidate's score and reference
    power. *)
Definition search_post (cands : list Z) (b : Best) : Prop :=
  (forall l, In l cands -> f_ltb (best_score b) (score l) = false) /\
  (forall l, In l cands -> score l = best_score b -> best_lag b <= l) /\
  (b = best_init \/
   (In (best_lag b) cands /\
    best_score b = score (best_lag b) /\
    best_far_pow b = far_pow (best_lag b))).

End Search.

(** The candidate lags as the specification lists them:
    [{0, lagStep, 2 lagStep, ...}] up to [maxLag], in ascending order. *)
Definition lag_candidates (max_lag lag_step : Z) : list Z :=
  map (fun k => Z.of_nat k * lag_step)
      (seq 0 (Z.to_nat (max_lag / lag_step + 1))).

(** Fuel for the search loop: with a step of at least one the loop body
    runs at most [max_lag + 1] times. *)
Definition lag_fuel (max_lag : Z) : nat := Z.to_nat (max_lag + 1).

Definition lag_step_of (fs : Z) : Z := Z.max 1 (Z.quot fs 1000).

Definition use_amdf_of (st : EchoSuppressor) : bool :=
  LagMetric_eqb (lag_metric (config_ st)) kAMDF.

(** The lag search on a history that already holds the new far block. *)
Definition lag_search (st : EchoSuppressor) (hist : list F) (pos : Z)
    (mic : list F) : Best :=
  let block := block_samples_ st in
  let use_amdf := use_amdf_of st in
  let mic_pow := mic_power block mic in
  let mic_abs := mic_abs_sum use_amdf block mic in
  lag_loop (lag_score use_amdf hist pos block mic mic_pow mic_abs)
           (lag_far_pow use_amdf hist pos block mic)
           (lag_fuel (max_lag_samples_ st))
           (max_lag_samples_ st) (lag_step_of (fs_ st)) 0 best_init.

(** [echo_detected]. *)
Definition decide_echo (st : EchoSuppressor) (mic_pow : F) (b : Best) : bool :=
  f_ltb (rho_thresh (config_ st)) (best_score b)
  && f_ltb mic_pow (f_mul (power_ratio_alpha (config_ st))
                          (fmax (best_far_pow b) eps)).

(** Hangover control: the new counter and [suppress]. *)
Definition hangover (hangover_len : Z) (echo : bool) (hang_cnt : Z) : Z * bool :=
  if echo then (hangover_len, true)
  else if 0 <? hang_cnt then (hang_cnt - 1, true)
  else (hang_cnt, false).

(** Gain tracking (attack / release). *)
Definition target_gain_of (st : EchoSuppressor) (suppress : bool) : F :=
  if suppress then atten_linear_ st else one.

Definition smooth_gain (st : EchoSuppressor) (suppress : bool) : F :=
  let target_gain := target_gain_of st suppress in
  let coeff := if f_ltb target_gain (gate_gain_ st)
               then attack (config_ st) else release (config_ st) in
  f_add (f_mul (f_sub one coeff) (gate_gain_ st)) (f_mul coeff target_gain).

(** What a call hands back: the output block, [*applied_gain],
    [*estimated_lag_samples] and the returned flag. *)
Record BlockResult : Type := {
  out : list F;
  applied_gain : F;
  estimated_lag_samples : Z;
  suppressed : bool
}.

Definition process_block (st : EchoSuppressor) (far mic : list F)
  : EchoSuppressor * BlockResult :=
  let block := block_samples_ st in
  let '(hist, pos) := push_block block far (far_hist_ st) (hist_pos_ st) in
  let mic_pow := mic_power block mic in
  let b := lag_search st hist pos mic in
  let echo_detected := decide_echo st mic_pow b in
  let '(hang, suppress) :=
    hangover (hangover_blocks (config_ st)) echo_detected (hang_cnt_ st) in
  let gain := smooth_gain st suppress in
  ({| fs_ := fs_ st;
      block_samples_ := block;
      max_lag_samples_ := max_lag_samples_ st;
      config_ := config_ st;
      atten_linear_ := atten_linear_ st;
      far_hist_ := hist;
      hist_pos_ := pos;
      gate_gain_ := gain;
      hang_cnt_ := hang |},
   {| out := map (fun i => f_mul (rd mic (Z.of_nat i)) gain)
                 (seq 0 (Z.to_nat block));
      applied_gain := gain;
      estimated_lag_samples := if echo_detected then best_lag b else -1;
      suppressed := suppress |}).

(** Names for the intermediate values of one call. *)
Definition pushed (st : EchoSuppressor) (far : list F) : list F * Z :=
  push_block (block_samples_ st) far (far_hist_ st) (hist_pos_ st).

Definition candidates_of (st : EchoSuppressor) : list Z :=
  lag_candidates (max_lag_samples_ st) (lag_step_of (fs_ st)).

Definition score_of (st : EchoSuppressor) (far mic : list F) (lag : Z) : F :=
  let block := block_samples_ st in
  let use_amdf := use_amdf_of st in
  lag_score use_amdf (fst (pushed st far)) (snd (pushed st far)) block mic
    (mic_power block mic) (mic_abs_sum use_amdf block mic) lag.

Definition far_pow_of (st : EchoSuppressor) (far mic : list F) (lag : Z) : F :=
  lag_far_pow (use_amdf_of st) (fst (pushed st far)) (snd (pushed st far))
    (block_samples_ st) mic lag.

Definition search_of (st : EchoSuppressor) (far mic : list F) : Best :=
  lag_search st (fst (pushed st far)) (snd (pushed st far)) mic.

Definition echo_detected (st : EchoSuppressor) (far mic : list F) : bool :=
  decide_echo st (mic_power (block_samples_ st) mic) (search_of st far mic).

(** Consecutive calls, oldest block first. *)
Fixpoint run (st : EchoSuppressor) (blocks : list (list F * list F))
  : EchoSuppressor * list BlockResult :=
  match blocks with
  | [] => (st, [])
  | (far, mic) :: rest =>
      let '(st1, r) := process_block st far mic in
      let '(st2, rs) := run st1 rest in
      (st2, r :: rs)
  end.

(** ** Vocabulary of the specification for the reference history *)

(** The far-end samples delivered by a sequence of calls, oldest first. *)
Definition far_stream (blocks : list (list F * list F)) : list F :=
  concat (map fst blocks).

(** The [k]-th most recent sample of a stream, [k = 0] for the last one
    delivered; zero when fewer than [k + 1] samples have arrived. *)
Definition recent (stream : list F) (k : Z) : F := rd (rev stream) k.

Definition hist_capacity (st : EchoSuppressor) : Z :=
  max_lag_samples_ st + 4 * block_samples_ st.

(** A buffer with cursor [pos] holds the most recent samples of [stream]:
    going back [k] places from the cursor, wrapping around, finds the
    [k]-th most recent sample. *)
Definition holds_recent (hist : list F) (pos : Z) (stream : list F) : Prop :=
  forall k, 0 <= k < Z.of_nat (length hist) ->
    rd hist ((pos - 1 - k) mod Z.of_nat (length hist)) = recent stream k.

(** Sizes as the constructor leaves them. *)
Definition well_formed (st : EchoSuppressor) : Prop :=
  1 <= block_samples_ st /\
  block_samples_ st <= max_lag_samples_ st /\
  Z.of_nat (length (far_hist_ st)) = hist_capacity st /\
  0 <= hist_pos_ st < hist_capacity st.

(** ** Vocabulary of the specification for the gain *)

(** [c] is neither below zero nor above one. *)
Definition in_unit (c : F) : Prop :=
  f_ltb c zero = false /\ f_ltb one c = false.

(** [g] is neither below the muted linear gain nor above one. *)
Definition gain_in_range (st : EchoSuppressor) (g : F) : Prop :=
  f_ltb g (atten_linear_ st) = false /\ f_ltb one g = false.

Definition gain_invariant (st : EchoSuppressor) : Prop :=
  gain_in_range st (gate_gain_ st) /\ 0 <= hang_cnt_ st.

(** Attack and release coefficients in [0, 1], a hangover length of at
    least zero, and a muted linear gain in [0, 1]. *)
Definition config_sane (st : EchoSuppressor) : Prop :=
  in_unit (attack (config_ st)) /\
  in_unit (release (config_ st)) /\
  0 <= hangover_blocks (config_ st) /\
  in_unit (atten_linear_ st).

End Model.

Arguments EchoSuppressorConfig F : clear implicits.
Arguments EchoSuppressor F : clear implicits.
Arguments Best F : clear implicits.
Arguments BlockResult F : clear implicits.

(** ** The fixed-parameter suppressor

    The stand-alone suppressor.h has no configuration record: the sample
    rate is 16 kHz, the metric is the absolute-difference one and the
    parameters are class constants.  Its [process_block] is the one
    above with these constants in place of the fields.  (A second
    fixed-parameter version and the JavaScript port differ from it in the
    search window only: 0.5 s instead of 0.08 s.) *)

Module Fixed.

Section Fixed.

Context {F : Type} {A : Arith F}.

Definition kSampleRate : Z := 16000.
Definition kBlockSamples : Z := Z.quot kSampleRate 100.
Definition kMaxLagSamples : Z :=
  f_to_int (f_mul (lit 8 100) (f_of_int kSampleRate)).
Definition kLagStep : Z := Z.quot kSampleRate 1000.
Definition kRhoThresh : F := lit 6 10.
Definition kPowerRatioAlpha : F := lit 13 10.
Definition kAttenLinear : F := lit 1 10000.
Definition kHangoverBlocks : Z := 20.
Definition kAttack : F := lit 1 10.
Definition kRelease : F := lit 1 100.

Record State : Type := {
  far_hist : list F;
  hist_pos : Z;
  gate_gain : F;
  hang_cnt : Z
}.

(** The constructor: a zeroed history, then [reset]. *)
Definition init : State := {|
  far_hist := map (fun _ => zero)
                  (repeat zero (Z.to_nat (kMaxLagSamples + kBlockSamples * 4)));
  hist_pos := 0;
  gate_gain := one;
  hang_cnt := 0
|}.

Definition process_block (s : State) (far mic : list F)
  : State * BlockResult F :=
  let block := kBlockSamples in
  let '(hist, pos) := push_block block far (far_hist s) (hist_pos s) in
  let mic_pow := mic_power block mic in
  let mic_abs :=
    fmax (for_up block (fun i acc => f_add acc (f_abs (rd mic i))) zero) eps in
  let b :=
    lag_loop (lag_score true hist pos block mic mic_pow mic_abs)
             (lag_far_pow true hist pos block mic)
             (lag_fuel kMaxLagSamples) kMaxLagSamples kLagStep 0 best_init in
  let echo_detected :=
    f_ltb kRhoThresh (best_score b)
    && f_ltb mic_pow (f_mul kPowerRatioAlpha (fmax (best_far_pow b) eps)) in
  let '(hang, suppress) := hangover kHangoverBlocks echo_detected (hang_cnt s) in
  let target_gain := if suppress then kAttenLinear else one in
  let coeff := if f_ltb target_gain (gate_gain s) then kAttack else kRelease in
  let gain :=
    f_add (f_mul (f_sub one coeff) (gate_gain s)) (f_mul coeff target_gain) in
  ({| far_hist := hist; hist_pos := pos; gate_gain := gain; hang_cnt := hang |},
   {| out := map (fun i => f_mul (rd mic (Z.of_nat i)) gain)
                 (seq 0 (Z.to_nat block));
      applied_gain := gain;
      estimated_lag_samples := if echo_detected then best_lag b else -1;
      suppressed := suppress |}).

(** The fixed-parameter suppressor as a state of the configurable one. *)
Definition embed (s : State) : EchoSuppressor F := {|
  fs_ := kSampleRate;
  block_samples_ := kBlockSamples;
  max_lag_samples_ := kMaxLagSamples;
  config_ := {| rho_thresh := kRhoThresh;
                power_ratio_alpha := kPowerRatioAlpha;
                atten_db := f_of_int (-80);
                hangover_blocks := kHangoverBlocks;
                attack := kAttack;
                release := kRelease;
                lag_metric := kAMDF |};
  atten_linear_ := kAttenLinear;
  far_hist_ := far_hist s;
  hist_pos_ := hist_pos s;
  gate_gain_ := gate_gain s;
  hang_cnt_ := hang_cnt s
|}.

End Fixed.

Arguments State F : clear implicits.

End Fixed.

(** ** IEEE 754 single precision *)

Module B32.

Definition prec : Z := 24.
Definition emax : Z := 128.

Definition of_int (z : Z) : spec_float := binary_normalize prec emax z 0 false.

(** Conversion to [int] truncates towards zero.  NaN and the infinities
    have no defined conversion in C++; the model gives zero. *)
Definition to_int (x : spec_float) : Z :=
  match x with
  | S754_finite s m e =>
      cond_Zopp s (if 0 <=? e then Z.pos m * 2 ^ e else Z.quot (Z.pos m) (2 ^ (- e)))
  | _ => 0
  end.

(** Modelled from the spec: [std::pow], a function of the C library and
    not of the repository, through which the muted gain in dB becomes
    the linear gain [10^(dB/20)].  The model covers base ten with an
    integral exponent [k], [-10 <= k <= 10] (the default -80 dB gives
    [k = -4]): there [10^|k|] is a binary32 number and a single rounding
    gives the correctly rounded power.  Other arguments are outside the
    model and yield NaN; nothing below is proved from that case. *)
Definition pow (x y : spec_float) : spec_float :=
  let k := to_int y in
  if SFeqb x (of_int 10) && SFeqb y (of_int k) && (-10 <=? k) && (k <=? 10)
  then if 0 <=? k then of_int (10 ^ k)
       else SFdiv prec emax (of_int 1) (of_int (10 ^ (- k)))
  else S754_nan.

End B32.

#[export] Instance binary32 : Arith spec_float := {|
  f_add := SFadd B32.prec B32.emax;
  f_sub := SFsub B32.prec B32.emax;
  f_mul := SFmul B32.prec B32.emax;
  f_div := SFdiv B32.prec B32.emax;
  f_sqrt := SFsqrt B32.prec B32.emax;
  f_abs := SFabs;
  f_pow := B32.pow;
  f_ltb := SFltb;
  f_of_int := B32.of_int;
  f_to_int := B32.to_int;
  f_neg_inf := S754_infinity true
|}.

(** ** Exact arithmetic *)

(** The reals with the extra value minus infinity, which the arithmetic
    operations propagate and which is below every real. *)
Inductive xreal : Type :=
| NegInf
| Fin (r : R).

Module XR.

Definition lift1 (f : R -> R) (x : xreal) : xreal :=
  match x with
  | Fin a => Fin (f a)
  | NegInf => NegInf
  end.

Definition lift2 (f : R -> R -> R) (x y : xreal) : xreal :=
  match x, y with
  | Fin a, Fin b => Fin (f a b)
  | _, _ => NegInf
  end.

Definition ltb (x y : xreal) : bool :=
  match x, y with
  | NegInf, Fin _ => true
  | Fin a, Fin b => if Rlt_dec a b then true else false
  | _, _ => false
  end.

(** Truncation towards zero. *)
Definition trunc (r : R) : Z :=
  if Rle_dec 0 r then Int_part r else - Int_part (- r).

Definition to_int (x : xreal) : Z :=
  match x with
  | Fin a => trunc a
  | NegInf => 0
  end.

End XR.

(** [std::pow] is the real power [Rpower x y = exp (y * ln x)], which is
    [x^y] for the positive base the code passes. *)
#[export] Instance exact : Arith xreal := {|
  f_add := XR.lift2 Rplus;
  f_sub := XR.lift2 Rminus;
  f_mul := XR.lift2 Rmult;
  f_div := XR.lift2 Rdiv;
  f_sqrt := XR.lift1 sqrt;
  f_abs := XR.lift1 Rabs;
  f_pow := XR.lift2 Rpower;
  f_ltb := XR.ltb;
  f_of_int := fun z => Fin (IZR z);
  f_to_int := XR.to_int;
  f_neg_inf := NegInf
|}.

(** *** Real-valued reading of a call

    The quantities of section 4.2 of the specification as real numbers:
    sums over a block, the window of a candidate lag, and the two
    similarity scores. *)

Definition re (x : xreal) : R :=
  match x with
  | Fin r => r
  | NegInf => 0%R
  end.

Definition is_real (x : xreal) : Prop := x = Fin (re x).

(** [f i + f (i + 1) + ... + f (i + n - 1)]. *)
Fixpoint Rsum (f : Z -> R) (i : Z) (n : nat) : R :=
  match n with
  | O => 0%R
  | S n' => (f i + Rsum f (i + 1) n')%R
  end.

Definition eps_r : R := (1 / 1000000000)%R.

Definition energy (f : Z -> R) (n : nat) : R := Rsum (fun i => f i * f i)%R 0 n.
Definition dot (f g : Z -> R) (n : nat) : R := Rsum (fun i => f i * g i)%R 0 n.
Definition abs_sum (f : Z -> R) (n : nat) : R := Rsum (fun i => Rabs (f i)) 0 n.
Definition abs_diff (f g : Z -> R) (n : nat) : R :=
  Rsum (fun i => Rabs (f i - g i)) 0 n.

Definition clamp_r (x : R) : R :=
  if Rlt_dec 1 x then 1%R else if Rlt_dec x (-1) then (-1)%R else x.

(** Normalized cross-correlation of a window [w] with the block [m]. *)
Definition ncc_r (w m : Z -> R) (n : nat) : R :=
  (dot w m n / sqrt (Rmax (energy w n) eps_r * Rmax (energy m n) eps_r))%R.

(** Absolute-difference score of a window [w] with the block [m]. *)
Definition amdf_r (w m : Z -> R) (n : nat) : R :=
  clamp_r (1 - abs_diff w m n
               / Rmax (Rmax (abs_sum m n) eps_r + abs_sum w n) eps_r)%R.

(** The window of candidate [lag] and the microphone block of a call. *)
Definition win (st : EchoSuppressor xreal) (far : list xreal) (lag : Z) : Z -> R :=
  fun i => re (hist_at (fst (pushed st far)) (snd (pushed st far))
                       (block_samples_ st) lag i).

Definition micv (mic : list xreal) : Z -> R := fun i => re (rd mic i).

Definition block_len (st : EchoSuppressor xreal) : nat :=
  Z.to_nat (block_samples_ st).

(** Blocks whose microphone samples are all zero. *)
Definition silent_blocks (blocks : list (list xreal * list xreal)) : Prop :=
  forall b, In b blocks -> forall x, In x (snd b) -> x = zero.

(** A binary32 value that is a number: a zero or a finite value. *)
Definition b32_finite (x : spec_float) : Prop :=
  match x with
  | S754_zero _ | S754_finite _ _ _ => True
  | _ => False
  end.

(** A binary32 value that is plus zero, positive, or plus infinity. *)
Definition b32_nonneg (x : spec_float) : Prop :=
  match x with
  | S754_zero false | S754_finite false _ _ | S754_infinity false => True
  | _ => False
  end.

(** ** Concrete configurations and inputs *)

Definition b32_half : spec_float := lit 1 2.

(** Default configuration with immediate attack and release 0.1. *)
Definition b32_fast_config : EchoSuppressorConfig spec_float := {|
  rho_thresh := lit 6 10;
  power_ratio_alpha := lit 13 10;
  atten_db := f_of_int (-80);
  hangover_blocks := 20;
  attack := one;
  release := lit 1 10;
  lag_metric := kNCC
|}.

(** Default configuration with a muted gain of +20 dB. *)
Definition exact_loud_config : EchoSuppressorConfig xreal := {|
  rho_thresh := lit 6 10;
  power_ratio_alpha := lit 13 10;
  atten_db := f_of_int 20;
  hangover_blocks := 20;
  attack := lit 1 10;
  release := lit 1 100;
  lag_metric := kNCC
|}.

Definition b32_zero : spec_float := zero.

(** A 100 Hz suppressor: blocks of one sample, lags 0 to 8. *)
Definition b32_demo : EchoSuppressor spec_float :=
  new_suppressor 100 default_config.

(** The same with a hangover length of one block. *)
Definition b32_hang1 : EchoSuppressor spec_float :=
  new_suppressor 100 (with_hangover default_config 1).

(** One block that echoes the reference, then silence at the microphone. *)
Definition b32_echo_then_silence : list (list spec_float * list spec_float) :=
  [([b32_half], [b32_half]); ([b32_zero], [b32_zero]); ([b32_zero], [b32_zero])].

(** Default configuration with the absolute-difference metric, the
    metric of the fixed-parameter versions of the suppressor. *)
Definition b32_amdf_config : EchoSuppressorConfig spec_float := {|
  rho_thresh := lit 6 10;
  power_ratio_alpha := lit 13 10;
  atten_db := f_of_int (-80);
  hangover_blocks := 20;
  attack := lit 1 10;
  release := lit 1 100;
  lag_metric := kAMDF
|}.

Definition b32_amdf : EchoSuppressor spec_float :=
  new_suppressor 100 b32_amdf_config.

Definition b32_silence : list (list spec_float * list spec_float) :=
  [([b32_zero], [b32_zero]); ([b32_zero], [b32_zero]); ([b32_zero], [b32_zero])].

(** The reference sample 0.5 scaled by 0.3. *)
Definition b32_faint : spec_float := f_mul (lit 3 10) b32_half.

(** One silent 10 ms block at 16 kHz. *)
Definition b32_silent_block : list spec_float := repeat b32_zero 160.

Definition exact_half : list xreal := [Fin (1 / 2)].

Definition exact_silence : list (list xreal * list xreal) :=
  [([Fin 0], [Fin 0]); ([Fin 0], [Fin 0])].

Definition exact_demo : EchoSuppressor xreal := new_suppressor 100 default_config.

(** ** The helpers of suppressor.h and the sample conversions of the
    front ends *)

(** The two operations the helpers and the front ends use besides those
    of [Arith]. *)
Class ArithIO (F : Type) {A : Arith F} : Type := {
  f_leb : F -> F -> bool;          (* operator<= *)
  f_lrint : F -> Z                 (* std::lrintf / Math.round on the host *)
}.

(** [LagMetricName]. *)
Definition LagMetricName (metric : LagMetric) : String.string :=
  match metric with
  | kAMDF => "amdf"%string
  | kNCC => "ncc"%string
  end.

(** [std::tolower] in the "C" locale. *)
Definition tolower (ch : Ascii.ascii) : Ascii.ascii :=
  let n := Ascii.N_of_ascii ch in
  if ((65 <=? n) && (n <=? 90))%N then Ascii.ascii_of_N (n + 32) else ch.

Fixpoint lowered (value : String.string) : String.string :=
  match value with
  | String.EmptyString => String.EmptyString
  | String.String ch rest => String.String (tolower ch) (lowered rest)
  end.

(** The lambda [parse_metric] of echoback.cc: the metric written through
    the pointer when the result is [true], nothing when it is [false]. *)
Definition parse_metric (value : String.string) : option LagMetric :=
  if String.eqb (lowered value) "ncc"%string then Some kNCC
  else if String.eqb (lowered value) "amdf"%string then Some kAMDF
  else None.

Section Helpers.

Context {F : Type} {A : Arith F} {IO : ArithIO F}.

(** [std::min(a, b)] is [(b < a) ? b : a]. *)
Definition fmin (a b : F) : F := if f_ltb b a then b else a.

(** [std::clamp(v, lo, hi)] is [(v < lo) ? lo : (hi < v) ? hi : v]. *)
Definition fclamp (v lo hi : F) : F :=
  if f_ltb v lo then lo else if f_ltb hi v then hi else v.

(** [GainMeterString]: the gain as a meter of zero to four stars. *)
Definition GainMeterString (gain : F) : String.string :=
  let g := fclamp gain zero one in
  if f_leb g (lit 5 100) then "    "%string
  else if f_leb g (lit 25 100) then "*   "%string
  else if f_leb g (lit 50 100) then "**  "%string
  else if f_leb g (lit 75 100) then "*** "%string
  else "****"%string.

(** The number of stars of a meter string. *)
Definition stars (s : String.string) : Z :=
  Z.of_nat (List.length (filter (Ascii.eqb "*") (String.list_ascii_of_string s))).

(** *** 16-bit samples

    The front ends read and write 16-bit PCM and call the suppressor on
    [float] blocks. *)

Definition kInvScale : F := lit 1 32768.         (* 1.0f / 32768.0f *)
Definition kScale : F := f_of_int 32767.         (* 32767.0f *)

(** [static_cast<int16_t>] of an integer: the value modulo [2^16] in
    [-32768, 32767]. *)
Definition to_int16 (z : Z) : Z := (z + 32768) mod 65536 - 32768.

(** [static_cast<float>(x) * kInvScale]. *)
Definition sample_to_float (x : Z) : F := f_mul (f_of_int x) kInvScale.

(** [std::max(-1.0f, std::min(1.0f, v))]. *)
Definition clamp_sample (v : F) : F := fmax (f_of_int (-1)) (fmin one v).

(** [static_cast<int16_t>(std::lrintf(sample * kScale))] of the clamped
    value. *)
Definition float_to_sample (v : F) : Z :=
  to_int16 (f_lrint (f_mul (clamp_sample v) kScale)).

End Helpers.

Module B32IO.

(** [m / 2^k] rounded to the nearest integer, ties to the even one. *)
Definition round_half_even (m k : Z) : Z :=
  let q := m / 2 ^ k in
  let r := m mod 2 ^ k in
  match 2 * r ?= 2 ^ k with
  | Lt => q
  | Gt => q + 1
  | Eq => if Z.even q then q else q + 1
  end.

(** [std::lrintf] in the default rounding mode.  NaN and the infinities
    have no defined result; the model gives zero. *)
Definition lrint (x : spec_float) : Z :=
  match x with
  | S754_finite s m e =>
      cond_Zopp s (if 0 <=? e then Z.pos m * 2 ^ e
                   else round_half_even (Z.pos m) (- e))
  | _ => 0
  end.

End B32IO.

#[export] Instance binary32_io : ArithIO spec_float := {|
  f_leb := SFleb;
  f_lrint := B32IO.lrint
|}.


Module XRIO.

Definition leb (x y : xreal) : bool :=
  match x, y with
  | NegInf, _ => true
  | Fin a, Fin b => if Rle_dec a b then true else false
  | Fin _, NegInf => false
  end.

(** The nearest integer, ties to the even one. *)
Definition rint (r : R) : Z :=
  let q := Int_part r in
  let d := (r - IZR q)%R in
  if Rlt_dec d (1 / 2) then q
  else if Rlt_dec (1 / 2) d then q + 1
  else if Z.even q then q else q + 1.

Definition lrint (x : xreal) : Z :=
  match x with
  | Fin a => rint a
  | NegInf => 0
  end.

End XRIO.

#[export] Instance exact_io : ArithIO xreal := {|
  f_leb := XRIO.leb;
  f_lrint := XRIO.lrint
|}.

(** Checking a predicate on the [2^depth] integers from [lo] on. *)
Fixpoint all_in (depth : nat) (lo : Z) (P : Z -> bool) : bool :=
  match depth with
  | O => P lo
  | S d => all_in d lo P && all_in d (lo + 2 ^ Z.of_nat d) P
  end.

(** A 16-bit sample through the float domain and back at unity gain. *)
Definition unity_round_trip (x : Z) : Z :=
  float_to_sample (F:=spec_float) (sample_to_float x).

(** ** echoback.cc: the local echo-back loop

    The version built on the fixed-parameter suppressor.  Queues
    ([std::deque<int16_t>]) are lists with the front at the head;
    [front()] of an empty queue, undefined in C++, reads zero.  The
    diagnostic line printed for each block is not part of the state and
    is left out. *)

Module Echoback.

Definition kSampleRateHz : Z := 16000.
Definition kBlockLen : Z := 160.

Definition size {X : Type} (q : list X) : Z := Z.of_nat (length q).

(** Reading [p[i]] in a block of samples. *)
Definition rd16 (l : list Z) (i : Z) : Z := nth (Z.to_nat i) l 0.

(** A block [v] of [kBlockLen] elements with [v[i] = f i]. *)
Definition block_of {X : Type} (f : Z -> X) : list X :=
  map (fun i => f (Z.of_nat i)) (seq 0 (Z.to_nat kBlockLen)).

(** The fields of [State] that hold the statistics of the estimated
    lag.  [lag_avg_latest] keeps the two operands of the quotient the
    code computes in [double]. *)
Record LagStats : Type := {
  lag_history : list Z;
  lag_sum : Z;
  lag_history_limit : Z;
  lag_stats_ready : bool;
  lag_avg_latest : Z * Z;
  lag_min_window : Z;
  lag_max_window : Z;
  lag_last : Z
}.

Definition lag_stats_init : LagStats := {|
  lag_history := [];
  lag_sum := 0;
  lag_history_limit := 10;
  lag_stats_ready := false;
  lag_avg_latest := (0, 1);
  lag_min_window := 0;
  lag_max_window := 0;
  lag_last := -1
|}.

(** The block of [process_available_blocks] that follows the call of the
    suppressor: a window of the last [lag_history_limit] lags with its
    sum, minimum and maximum. *)
Definition update_lag_stats (st : LagStats) (estimated_lag : Z) : LagStats :=
  if 0 <=? estimated_lag then
    let h := lag_history st ++ [estimated_lag] in
    let sum := lag_sum st + estimated_lag in
    let '(h, sum) :=
      if lag_history_limit st <? size h then (tl h, sum - hd 0 h) else (h, sum) in
    if 0 <? size h then
      let '(min_val, max_val) :=
        fold_left (fun '(min_val, max_val) lag_sample =>
                     (if lag_sample <? min_val then lag_sample else min_val,
                      if max_val <? lag_sample then lag_sample else max_val))
                  h (hd 0 h, hd 0 h) in
      {| lag_history := h;
         lag_sum := sum;
         lag_history_limit := lag_history_limit st;
         lag_stats_ready := true;
         lag_avg_latest := (sum, size h);
         lag_min_window := min_val;
         lag_max_window := max_val;
         lag_last := estimated_lag |}
    else
      {| lag_history := h;
         lag_sum := sum;
         lag_history_limit := lag_history_limit st;
         lag_stats_ready := lag_stats_ready st;
         lag_avg_latest := lag_avg_latest st;
         lag_min_window := lag_min_window st;
         lag_max_window := lag_max_window st;
         lag_last := lag_last st |}
  else st.

(** [pop_samples]: the queue left, the destination written, and the
    number of samples moved. *)
Definition pop_samples (q dst : list Z) (n : Z) : list Z * list Z * Z :=
  let m := if size q <? n then size q else n in
  let '(q', dst') :=
    for_up m (fun i '(q, dst) => (tl q, upd dst i (hd 0 q))) (q, dst) in
  (q', dst', m).

Definition push_block (q src : list Z) (n : Z) : list Z :=
  for_up n (fun i q => q ++ [rd16 src i]) q.

(** The command line: [--input-delay-ms] and [--loopback-delay-ms].
    [size_t] has 64 bits. *)
Definition size_t (z : Z) : Z := z mod 2 ^ 64.

Definition input_delay_target (delay_ms : Z) : Z :=
  let raw_samples := size_t (Z.quot (delay_ms * kSampleRateHz + 999) 1000) in
  let block := size_t kBlockLen in
  let delay_blocks := size_t (raw_samples + block / 2) / block in
  size_t (delay_blocks * block).

Definition loopback_delay_target (delay_ms : Z) : Z :=
  let delay_ms := if delay_ms <? 0 then 0 else delay_ms in
  size_t (Z.quot (delay_ms * kSampleRateHz + 999) 1000).

(** A stream delayed by [d] samples: [d] zeros first, cut to the length
    of the stream. *)
Definition delayed (d : nat) (stream : list Z) : list Z :=
  firstn (length stream) (repeat 0 d ++ stream).

(** The last [n] elements of a list. *)
Definition lastn {X : Type} (n : nat) (l : list X) : list X :=
  skipn (length l - n) l.

Definition sum_of (l : list Z) : Z := fold_right Z.add 0 l.

Section Echoback.

Context {F : Type} {A : Arith F} {IO : ArithIO F}.

Record State : Type := {
  rec_dev : list Z;
  out_dev : list Z;
  jitter : list Z;
  delay_line : list Z;
  delay_target_samples : Z;
  far_delay_line : list Z;
  loopback_delay_target_samples : Z;
  passthrough : bool;
  suppressor : Fixed.State F;
  block_counter : Z;
  stats : LagStats
}.

(** The default member initialisers of [State]. *)
Definition state_init : State := {|
  rec_dev := [];
  out_dev := [];
  jitter := [];
  delay_line := [];
  delay_target_samples := 0;
  far_delay_line := [];
  loopback_delay_target_samples := 0;
  passthrough := false;
  suppressor := Fixed.init;
  block_counter := 0;
  stats := lag_stats_init
|}.

(** Assignments to the fields that change while the program runs. *)
Definition set_capture (s : State) (rec dl : list Z) : State := {|
  rec_dev := rec;
  out_dev := out_dev s;
  jitter := jitter s;
  delay_line := dl;
  delay_target_samples := delay_target_samples s;
  far_delay_line := far_delay_line s;
  loopback_delay_target_samples := loopback_delay_target_samples s;
  passthrough := passthrough s;
  suppressor := suppressor s;
  block_counter := block_counter s;
  stats := stats s
|}.

Definition set_far_delay_line (s : State) (fdl : list Z) : State := {|
  rec_dev := rec_dev s;
  out_dev := out_dev s;
  jitter := jitter s;
  delay_line := delay_line s;
  delay_target_samples := delay_target_samples s;
  far_delay_line := fdl;
  loopback_delay_target_samples := loopback_delay_target_samples s;
  passthrough := passthrough s;
  suppressor := suppressor s;
  block_counter := block_counter s;
  stats := stats s
|}.

Definition set_out_dev (s : State) (q : list Z) : State := {|
  rec_dev := rec_dev s;
  out_dev := q;
  jitter := jitter s;
  delay_line := delay_line s;
  delay_target_samples := delay_target_samples s;
  far_delay_line := far_delay_line s;
  loopback_delay_target_samples := loopback_delay_target_samples s;
  passthrough := passthrough s;
  suppressor := suppressor s;
  block_counter := block_counter s;
  stats := stats s
|}.

(** The options of [main]: [--passthrough], [--input-delay-ms] and
    [--loopback-delay-ms]. *)
Definition opt_passthrough (s : State) : State := {|
  rec_dev := rec_dev s;
  out_dev := out_dev s;
  jitter := jitter s;
  delay_line := delay_line s;
  delay_target_samples := delay_target_samples s;
  far_delay_line := far_delay_line s;
  loopback_delay_target_samples := loopback_delay_target_samples s;
  passthrough := true;
  suppressor := suppressor s;
  block_counter := block_counter s;
  stats := stats s
|}.

Definition opt_input_delay (s : State) (delay_ms : Z) : State := {|
  rec_dev := rec_dev s;
  out_dev := out_dev s;
  jitter := jitter s;
  delay_line := delay_line s;
  delay_target_samples := input_delay_target delay_ms;
  far_delay_line := far_delay_line s;
  loopback_delay_target_samples := loopback_delay_target_samples s;
  passthrough := passthrough s;
  suppressor := suppressor s;
  block_counter := block_counter s;
  stats := stats s
|}.

Definition opt_loopback_delay (s : State) (delay_ms : Z) : State := {|
  rec_dev := rec_dev s;
  out_dev := out_dev s;
  jitter := jitter s;
  delay_line := delay_line s;
  delay_target_samples := delay_target_samples s;
  far_delay_line := [];
  loopback_delay_target_samples := loopback_delay_target delay_ms;
  passthrough := passthrough s;
  suppressor := suppressor s;
  block_counter := block_counter s;
  stats := stats s
|}.

(** [enqueue_capture_sample]: the capture delay line. *)
Definition enqueue_capture_sample (s : State) (sample : Z) : State :=
  let dl := delay_line s ++ [sample] in
  if size dl <=? delay_target_samples s
  then set_capture s (rec_dev s ++ [0]) dl
  else set_capture s (rec_dev s ++ [hd 0 dl]) (tl dl).

(** [apply_loopback_delay]: the delay line of the loudspeaker signal. *)
Definition apply_loopback_delay (s : State) (block : list Z) : State * list Z :=
  let target := loopback_delay_target_samples s in
  if target =? 0 then (s, block)
  else
    for_up kBlockLen
      (fun i '(s, block) =>
         let fdl := far_delay_line s ++ [rd16 block i] in
         if target <? size fdl
         then (set_far_delay_line s (tl fdl), upd block i (hd 0 fdl))
         else (set_far_delay_line s fdl, upd block i 0))
      (s, block).

(** The body of the loop of [process_available_blocks]. *)
Definition process_one_block (s : State) : State :=
  let zeros := repeat 0 (Z.to_nat kBlockLen) in
  let '(rec, near_blk, _) := pop_samples (rec_dev s) zeros kBlockLen in
  let '(jit, far_blk) :=
    if kBlockLen <=? size (jitter s)
    then let '(jit, far_blk, _) := pop_samples (jitter s) zeros kBlockLen in
         (jit, far_blk)
    else (jitter s, zeros) in
  let '(s1, speaker_blk) := apply_loopback_delay s far_blk in
  let '(sup, out_blk, estimated_lag) :=
    if passthrough s then (suppressor s, block_of (rd16 near_blk), 0)
    else
      let far_block_f := block_of (fun i => sample_to_float (rd16 far_blk i)) in
      let near_block_f := block_of (fun i => sample_to_float (rd16 near_blk i)) in
      let '(sup, r) :=
        Fixed.process_block (suppressor s) far_block_f near_block_f in
      (sup, block_of (fun i => float_to_sample (rd (out r) i)),
       estimated_lag_samples r) in
  {| rec_dev := rec;
     out_dev := push_block (out_dev s) speaker_blk kBlockLen;
     jitter := push_block jit out_blk kBlockLen;
     delay_line := delay_line s;
     delay_target_samples := delay_target_samples s;
     far_delay_line := far_delay_line s1;
     loopback_delay_target_samples := loopback_delay_target_samples s;
     passthrough := passthrough s;
     suppressor := sup;
     block_counter := block_counter s + 1;
     stats := update_lag_stats (stats s) estimated_lag |}.

(** [while (s.rec_dev.size() >= kBlockLen)]: every pass takes a block
    off [rec_dev], so the loop runs at most [fuel] times when [fuel] is
    the length of [rec_dev]. *)
Fixpoint process_blocks_loop (fuel : nat) (s : State) : State :=
  match fuel with
  | O => s
  | S fuel' =>
      if kBlockLen <=? size (rec_dev s)
      then process_blocks_loop fuel' (process_one_block s)
      else s
  end.

Definition process_available_blocks (s : State) : State :=
  process_blocks_loop (length (rec_dev s)) s.

(** [pa_callback]: [blockSize] captured samples in ([None] for a null
    input buffer), [blockSize] samples out for the loudspeaker. *)
Definition pa_callback (s : State) (inputBuffer : option (list Z))
    (blockSize : Z) : State * list Z :=
  let s1 :=
    for_up blockSize
      (fun i s =>
         enqueue_capture_sample s
           (match inputBuffer with Some b => rd16 b i | None => 0 end)) s in
  let s2 := process_available_blocks s1 in
  for_up blockSize
    (fun i '(s, out) =>
       match out_dev s with
       | x :: q => (set_out_dev s q, out ++ [x])
       | [] => (s, out ++ [0])
       end)
    (s2, []).

(** Consecutive calls of [apply_loopback_delay]. *)
Fixpoint loopback_blocks (s : State) (blocks : list (list Z))
  : State * list (list Z) :=
  match blocks with
  | [] => (s, [])
  | b :: rest =>
      let '(s1, o) := apply_loopback_delay s b in
      let '(s2, os) := loopback_blocks s1 rest in
      (s2, o :: os)
  end.

(** Consecutive callbacks, each with a full input buffer. *)
Fixpoint callbacks (s : State) (inputs : list (list Z)) : State * list (list Z) :=
  match inputs with
  | [] => (s, [])
  | b :: rest =>
      let '(s1, o) := pa_callback s (Some b) (size b) in
      let '(s2, os) := callbacks s1 rest in
      (s2, o :: os)
  end.

End Echoback.

Arguments State F : clear implicits.

End Echoback.

(** ** cancel_file.cc: the offline comparator

    Files are sequences of bytes, each a number from 0 to 255.  Reading
    past the end of the buffer, undefined in C++, reads zero.  The host
    is little-endian, as the code assumes when it reads the samples and
    writes the header fields from memory. *)

Module CancelFile.

Definition kSampleRateHz : Z := 16000.
Definition kBlockSamples : Z := 160.

Definition size {X : Type} (v : list X) : Z := Z.of_nat (length v).

Definition byte_at (buf : list Z) (i : Z) : Z := nth (Z.to_nat i) buf 0.

Definition uint16 (z : Z) : Z := z mod 2 ^ 16.
Definition uint32 (z : Z) : Z := z mod 2 ^ 32.

(** Conversion of an unsigned 32-bit value to [int]. *)
Definition to_int32 (z : Z) : Z := (z + 2 ^ 31) mod 2 ^ 32 - 2 ^ 31.

(** [rd32le] and [rd16le] at offset [p] of the buffer. *)
Definition rd32le (buf : list Z) (p : Z) : Z :=
  uint32 (Z.lor (Z.lor (Z.lor (byte_at buf p)
                              (Z.shiftl (byte_at buf (p + 1)) 8))
                       (Z.shiftl (byte_at buf (p + 2)) 16))
                (Z.shiftl (byte_at buf (p + 3)) 24)).

Definition rd16le (buf : list Z) (p : Z) : Z :=
  uint16 (Z.lor (byte_at buf p) (Z.shiftl (byte_at buf (p + 1)) 8)).

(** [std::memcmp(buf.data() + p, tag, 4) == 0]. *)
Definition tag_at (buf : list Z) (p : Z) (tag : list Z) : bool :=
  forallb (fun i => byte_at buf (p + Z.of_nat i) =? nth i tag 0) (seq 0 4).

Definition RIFF : list Z := [82; 73; 70; 70].
Definition WAVE : list Z := [87; 65; 86; 69].
Definition fmt_ : list Z := [102; 109; 116; 32].
Definition data : list Z := [100; 97; 116; 97].

(** The chunk loop of [read_wav_pcm16_mono16k]: [None] when the function
    returns [false] from inside the loop, otherwise [sr], [ch],
    [data_off] and [data_size] as the loop leaves them.  Every pass
    moves [pos] forward by at least 8 bytes, so the loop runs at most
    [fuel] times when [fuel] is the length of the buffer. *)
Fixpoint chunk_loop (fuel : nat) (buf : list Z) (pos sr ch : Z)
  : option (Z * Z * Z * Z) :=
  match fuel with
  | O => Some (sr, ch, 0, 0)
  | S fuel' =>
      if pos + 8 <=? size buf then
        let id := rd32le buf pos in
        let sz := rd32le buf (pos + 4) in
        let start := pos + 8 in
        if id =? 0x20746d66 then
          let fmt := rd16le buf start in
          let ch := rd16le buf (start + 2) in
          let sr := to_int32 (rd32le buf (start + 4)) in
          let bps := rd16le buf (start + 14) in
          if negb (fmt =? 1) || negb (bps =? 16) then None
          else chunk_loop fuel' buf (start + sz) sr ch
        else if id =? 0x61746164 then Some (sr, ch, start, sz)
        else chunk_loop fuel' buf (start + sz) sr ch
      else Some (sr, ch, 0, 0)
  end.

(** [read_wav_pcm16_mono16k] on the contents of the file: the samples,
    or [None] when the function returns [false]. *)
Definition read_wav_pcm16_mono16k (buf : list Z) : option (list Z) :=
  if size buf <? 44 then None
  else if negb (tag_at buf 0 RIFF) || negb (tag_at buf 8 WAVE) then None
  else
    match chunk_loop (length buf) buf 12 0 0 with
    | None => None
    | Some (sr, ch, data_off, data_size) =>
        if (data_off =? 0) || (data_size =? 0) then None
        else if negb (sr =? 16000) || negb (ch =? 1) then None
        else
          let ns := data_size / 2 in
          Some (map (fun i =>
                       to_int16 (Z.lor (byte_at buf (data_off + 2 * Z.of_nat i))
                                   (Z.shiftl
                                      (byte_at buf (data_off + 2 * Z.of_nat i + 1))
                                      8)))
                    (seq 0 (Z.to_nat ns)))
    end.

(** The [n] bytes of an integer in memory. *)
Definition le_bytes (n : nat) (z : Z) : list Z :=
  map (fun i => (z / 256 ^ Z.of_nat i) mod 256) (seq 0 n).

(** The samples in memory. *)
Definition wav_body (processed : list Z) : list Z :=
  concat (map (fun s => le_bytes 2 (uint16 s)) processed).

(** The bytes [main] writes to processed.wav. *)
Definition write_wav (processed : list Z) : list Z :=
  let sr := uint32 kSampleRateHz in
  let ch := uint16 1 in
  let bps := uint16 16 in
  let data_bytes := uint32 (size processed * 2) in
  let byte_rate := uint32 (sr * ch * (bps / 8)) in
  let block_align := uint16 (ch * (bps / 8)) in
  RIFF ++ le_bytes 4 (uint32 (36 + data_bytes)) ++ WAVE
  ++ fmt_ ++ le_bytes 4 16 ++ le_bytes 2 1 ++ le_bytes 2 ch ++ le_bytes 4 sr
  ++ le_bytes 4 byte_rate ++ le_bytes 2 block_align ++ le_bytes 2 bps
  ++ data ++ le_bytes 4 data_bytes
  ++ firstn (Z.to_nat data_bytes) (wav_body processed).

Section Main.

Context {F : Type} {A : Arith F} {IO : ArithIO F}.

(** The body of the block loop of [main]: block [n] of the two sample
    sequences through the suppressor, the result appended to
    [processed]. *)
Definition process_block_at (x y : list Z) (n : Z)
    (st : Fixed.State F * list Z) : Fixed.State F * list Z :=
  let '(suppressor, processed) := st in
  let offset := n * kBlockSamples in
  let far_block :=
    Echoback.block_of
      (fun i => sample_to_float (Echoback.rd16 x (offset + i))) in
  let near_block :=
    Echoback.block_of
      (fun i => sample_to_float (Echoback.rd16 y (offset + i))) in
  let '(suppressor, r) :=
    Fixed.process_block suppressor far_block near_block in
  (suppressor,
   processed ++ Echoback.block_of (fun i => float_to_sample (rd (out r) i))).

(** The block loop of [main] on the two sample sequences: [None] when
    there is not one whole block ([return 1]), otherwise [processed]. *)
Definition process_files (x y : list Z) : option (list Z) :=
  let blocks := (if size y <? size x then size y else size x) / kBlockSamples in
  if blocks =? 0 then None
  else Some (snd (for_up blocks (process_block_at x y) (Fixed.init, []))).

(** [main] on the contents of the two files: the contents of
    processed.wav, or [None] when it returns 1. *)
Definition main (render capture : list Z) : option (list Z) :=
  match read_wav_pcm16_mono16k render, read_wav_pcm16_mono16k capture with
  | Some x, Some y =>
      match process_files x y with
      | Some processed => Some (write_wav processed)
      | None => None
      end
  | _, _ => None
  end.

End Main.

End CancelFile.

(** ** The first suppressor.h: [process_frame]

    The earliest version of the class has the same state and the same
    constructor, [set_config] and [reset]; its configuration has
    [hangover_frames] for [hangover_blocks] and no [lag_metric], and its
    blocks are called frames ([frame_samples_] for [block_samples_]).
    [process_frame] searches with the correlation metric only, starts
    the search from a best correlation of zero instead of minus
    infinity, computes the reference power of the winning lag after the
    search, and reports no lag. *)

Module Legacy.

Section Legacy.

Context {F : Type} {A : Arith F}.

(** The default member initialisers of the first [EchoSuppressorConfig]. *)
Definition default_config : EchoSuppressorConfig F := {|
  rho_thresh := lit 6 10;
  power_ratio_alpha := lit 13 10;
  atten_db := f_of_int (-80);
  hangover_blocks := 20;
  attack := one;
  release := lit 5 100;
  lag_metric := kNCC
|}.

Section Search.

Variable rho : Z -> F.

(** Body of the search loop: [best_rho] and [best_lag]. *)
Definition consider (lag : Z) (b : F * Z) : F * Z :=
  if f_ltb (fst b) (rho lag) then (rho lag, lag) else b.

Fixpoint lag_loop (fuel : nat) (max_lag lag_step lag : Z) (b : F * Z) : F * Z :=
  match fuel with
  | O => b
  | S fuel' =>
      if lag <=? max_lag
      then lag_loop fuel' max_lag lag_step (lag + lag_step) (consider lag b)
      else b
  end.

End Search.

(** What a call hands back: the output frame, [*applied_gain] and the
    returned flag. *)
Record FrameResult : Type := {
  frame_out : list F;
  frame_gain : F;
  frame_suppress : bool
}.

Definition process_frame (st : EchoSuppressor F) (far mic : list F)
  : EchoSuppressor F * FrameResult :=
  let frame := block_samples_ st in
  let '(hist, pos) := push_block frame far (far_hist_ st) (hist_pos_ st) in
  let mic_pow := mic_power frame mic in
  let rho := lag_score false hist pos frame mic mic_pow zero in
  let best :=
    lag_loop rho (lag_fuel (max_lag_samples_ st)) (max_lag_samples_ st)
      (lag_step_of (fs_ st)) 0 (zero, 0) in
  let best_rho := fst best in
  let best_lag := snd best in
  let far_pow_best := lag_far_pow false hist pos frame mic best_lag in
  let echo_detected :=
    f_ltb (rho_thresh (config_ st)) best_rho
    && f_ltb mic_pow (f_mul (power_ratio_alpha (config_ st)) far_pow_best) in
  let '(hang, suppress) :=
    hangover (hangover_blocks (config_ st)) echo_detected (hang_cnt_ st) in
  let gain := smooth_gain st suppress in
  ({| fs_ := fs_ st;
      block_samples_ := frame;
      max_lag_samples_ := max_lag_samples_ st;
      config_ := config_ st;
      atten_linear_ := atten_linear_ st;
      far_hist_ := hist;
      hist_pos_ := pos;
      gate_gain_ := gain;
      hang_cnt_ := hang |},
   {| frame_out := map (fun i => f_mul (rd mic (Z.of_nat i)) gain)
                       (seq 0 (Z.to_nat frame));
      frame_gain := gain;
      frame_suppress := suppress |}).

End Legacy.

Arguments FrameResult F : clear implicits.

End Legacy.

(** ** Concrete inputs of the front ends *)

(** echoback in passthrough mode with a capture delay of 10 ms and a
    loopback delay of 5 ms. *)
Definition echo_demo : Echoback.State spec_float :=
  Echoback.opt_passthrough
    (Echoback.opt_loopback_delay
       (Echoback.opt_input_delay Echoback.state_init 10) 5).

(** Two buffers of 160 samples. *)
Definition echo_buffers : list (list Z) := [repeat 1 160; repeat 2 160].

(** A file of one block of silence. *)
Definition silent_wav : list Z := CancelFile.write_wav (repeat 0 160).

(** * Properties *)

(** [operator<] of binary32 is a strict order, and nothing is below
    minus infinity. *)
Module B32Order.

Lemma b32_ltb_finite_pos (m1 m2 : positive) (e1 e2 : Z) :
  SFltb (S754_finite false m1 e1) (S754_finite false m2 e2) = true <->
  e1 < e2 \/ (e1 = e2 /\ (m1 < m2)%positive).
Proof.
  unfold SFltb, SFcompare.
  destruct (Z.compare_spec e1 e2) as [He | He | He].
  - change (Pos.compare_cont Eq m1 m2) with (Pos.compare m1 m2).
    destruct (Pos.compare_spec m1 m2) as [Hm | Hm | Hm]; split; intros H;
      try discriminate; try reflexivity; try lia.
  - split; [intros _; lia | reflexivity].
  - split; [discriminate | lia].
Qed.

Lemma b32_ltb_finite_neg (m1 m2 : positive) (e1 e2 : Z) :
  SFltb (S754_finite true m1 e1) (S754_finite true m2 e2) = true <->
  e2 < e1 \/ (e1 = e2 /\ (m2 < m1)%positive).
Proof.
  unfold SFltb, SFcompare.
  destruct (Z.compare_spec e1 e2) as [He | He | He].
  - change (Pos.compare_cont Eq m1 m2) with (Pos.compare m1 m2).
    destruct (Pos.compare_spec m1 m2) as [Hm | Hm | Hm]; simpl; split; intros H;
      try discriminate; try reflexivity; try lia.
  - split; [discriminate | lia].
  - split; [intros _; lia | reflexivity].
Qed.

Lemma b32_ltb_irrefl (x : spec_float) : SFltb x x = false.
Proof.
  destruct x as [s | s | | s m e]; try (destruct s; reflexivity); try reflexivity.
  destruct s.
  - destruct (SFltb (S754_finite true m e) (S754_finite true m e)) eqn:E; auto.
    apply b32_ltb_finite_neg in E; lia.
  - destruct (SFltb (S754_finite false m e) (S754_finite false m e)) eqn:E; auto.
    apply b32_ltb_finite_pos in E; lia.
Qed.

Lemma b32_ltb_trans (x y z : spec_float) :
  SFltb x y = true -> SFltb y z = true -> SFltb x z = true.
Proof.
  destruct x as [sx | sx | | sx mx ex], y as [sy | sy | | sy my ey],
           z as [sz | sz | | sz mz ez];
    try discriminate;
    try (destruct sx; try discriminate); try (destruct sy; try discriminate);
    try (destruct sz; try discriminate);
    try reflexivity; intros Hxy Hyz.
  - apply b32_ltb_finite_neg in Hxy. apply b32_ltb_finite_neg in Hyz.
    apply b32_ltb_finite_neg. lia.
  - apply b32_ltb_finite_pos in Hxy. apply b32_ltb_finite_pos in Hyz.
    apply b32_ltb_finite_pos. lia.
Qed.

Lemma b32_ltb_neg_inf (x : spec_float) : SFltb x (S754_infinity true) = false.
Proof. destruct x as [s | s | | s m e]; try destruct s; reflexivity. Qed.

End B32Order.

Lemma binary32_order : ArithOrder spec_float.
Proof.
  constructor.
  - exact B32Order.b32_ltb_irrefl.
  - exact B32Order.b32_ltb_trans.
  - exact B32Order.b32_ltb_neg_inf.
Qed.

#[export] Existing Instance binary32_order.

(** ** The lag search *)

Section SearchProperties.

Context {F : Type} {A : Arith F}.

Variables (score far_pow : Z -> F).


(** The loop examines the lags [lag, lag + step, ...] up to [max_lag]. *)
Lemma lag_loop_fold (max_lag lag_step : Z) :
  1 <= lag_step ->
  forall (fuel : nat) (lag : Z) (b : Best F),
    max_lag - lag + 1 <= Z.of_nat fuel ->
    lag_loop score far_pow fuel max_lag lag_step lag b =
    fold_left (fun b l => consider score far_pow l b)
      (map (fun k => lag + Z.of_nat k * lag_step)
           (seq 0 (Z.to_nat ((max_lag - lag) / lag_step + 1)))) b.
Proof.
  intros Hstep fuel.
  induction fuel as [| fuel IH]; intros lag b Hfuel.
  - assert (Hneg : (max_lag - lag) / lag_step < 0)
      by (apply Z.div_lt_upper_bound; lia).
    replace (Z.to_nat ((max_lag - lag) / lag_step + 1)) with 0%nat by lia.
    reflexivity.
  - cbn [lag_loop].
    destruct (lag <=? max_lag) eqn:Hle.
    + apply Z.leb_le in Hle.
      assert (Hq : (max_lag - (lag + lag_step)) / lag_step
                   = (max_lag - lag) / lag_step - 1).
      { replace (max_lag - (lag + lag_step))
          with (max_lag - lag + (-1) * lag_step) by lia.
        rewrite Z.div_add by lia. lia. }
      assert (Hq0 : 0 <= (max_lag - lag) / lag_step)
        by (apply Z.div_pos; lia).
      replace (Z.to_nat ((max_lag - lag) / lag_step + 1))
        with (S (Z.to_nat ((max_lag - (lag + lag_step)) / lag_step + 1)))
        by lia.
      cbn [seq map fold_left].
      rewrite <- seq_shift, map_map.
      rewrite IH by lia.
      cbv beta.
      replace (lag + Z.of_nat 0 * lag_step) with lag by lia.
      f_equal. apply map_ext. intros k. lia.
    + apply Z.leb_gt in Hle.
      assert (Hneg : (max_lag - lag) / lag_step < 0)
        by (apply Z.div_lt_upper_bound; lia).
      replace (Z.to_nat ((max_lag - lag) / lag_step + 1)) with 0%nat by lia.
      reflexivity.
Qed.

Lemma lag_loop_candidates (max_lag lag_step : Z) (b : Best F) :
  1 <= lag_step ->
  lag_loop score far_pow (lag_fuel max_lag) max_lag lag_step 0 b =
  fold_left (fun b l => consider score far_pow l b) (lag_candidates max_lag lag_step) b.
Proof.
  intros Hstep.
  rewrite lag_loop_fold by (unfold lag_fuel; lia).
  unfold lag_candidates. rewrite Z.sub_0_r.
  f_equal.
Qed.

Lemma in_lag_candidates (max_lag lag_step l : Z) :
  1 <= lag_step ->
  In l (lag_candidates max_lag lag_step) <->
  exists k, l = k * lag_step /\ 0 <= k /\ l <= max_lag.
Proof.
  intros Hstep. unfold lag_candidates. rewrite in_map_iff. split.
  - intros [k [Hk Hin]]. apply in_seq in Hin.
    exists (Z.of_nat k). repeat split; try lia.
    subst l.
    destruct (Z_lt_le_dec max_lag 0) as [Hneg | Hpos].
    + assert (max_lag / lag_step < 0) by (apply Z.div_lt_upper_bound; lia). lia.
    + assert (Z.of_nat k <= max_lag / lag_step) by lia.
      pose proof (Z.mul_div_le max_lag lag_step ltac:(lia)). nia.
  - intros [k [Hl [Hk Hmax]]].
    exists (Z.to_nat k). split; [lia |].
    apply in_seq. split; [lia |].
    assert (k <= max_lag / lag_step)
      by (apply Z.div_le_lower_bound; lia).
    lia.
Qed.

Lemma lag_candidates_sorted (max_lag lag_step : Z) :
  1 <= lag_step ->
  StronglySorted Z.lt (lag_candidates max_lag lag_step).
Proof.
  intros Hstep. unfold lag_candidates.
  generalize (Z.to_nat (max_lag / lag_step + 1)) as n.
  generalize 0%nat as a.
  intros a n. revert a.
  induction n as [| n IH]; intros a; cbn [seq map].
  - constructor.
  - constructor; [apply IH |].
    apply Forall_forall. intros x Hx.
    apply in_map_iff in Hx. destruct Hx as [k [Hk Hin]].
    apply in_seq in Hin. nia.
Qed.

Context {O : ArithOrder F}.

(** One more candidate, larger than those seen. *)
Lemma consider_post (seen : list Z) (l : Z) (b : Best F) :
  search_post score far_pow seen b ->
  (forall x, In x seen -> x < l) ->
  0 <= l ->
  search_post score far_pow (seen ++ [l]) (consider score far_pow l b).
Proof.
  intros [Hmax [Hfirst Hsel]] Hlt Hl0.
  unfold consider.
  destruct (f_ltb (best_score b) (score l)) eqn:E.
  - repeat split; cbn [best_score best_lag best_far_pow].
    + intros x Hx. apply in_app_or in Hx. destruct Hx as [Hx | [Hx | []]].
      * destruct (f_ltb (score l) (score x)) eqn:E2; [| reflexivity].
        pose proof (Hmax x Hx) as Hm.
        rewrite (f_ltb_trans _ _ _ E E2) in Hm. discriminate.
      * subst x. apply f_ltb_irrefl.
    + intros x Hx Hsc. apply in_app_or in Hx. destruct Hx as [Hx | [Hx | []]].
      * specialize (Hmax x Hx). rewrite Hsc, E in Hmax. discriminate.
      * lia.
    + right. repeat split. apply in_or_app. right. left. reflexivity.
  - repeat split.
    + intros x Hx. apply in_app_or in Hx. destruct Hx as [Hx | [Hx | []]].
      * apply Hmax, Hx.
      * subst x. exact E.
    + intros x Hx Hsc. apply in_app_or in Hx. destruct Hx as [Hx | [Hx | []]].
      * apply Hfirst; assumption.
      * subst x. destruct Hsel as [Hinit | [Hin _]].
        -- subst b. cbn. exact Hl0.
        -- specialize (Hlt _ Hin). lia.
    + destruct Hsel as [Hinit | [Hin [Hs Hp]]]; [left; exact Hinit |].
      right. repeat split; try assumption. apply in_or_app. left. exact Hin.
Qed.

Lemma fold_consider_post (ls : list Z) :
  forall (seen : list Z) (b : Best F),
    search_post score far_pow seen b ->
    (forall x y, In x seen -> In y ls -> x < y) ->
    StronglySorted Z.lt ls ->
    (forall y, In y ls -> 0 <= y) ->
    search_post score far_pow (seen ++ ls) (fold_left (fun b l => consider score far_pow l b) ls b).
Proof.
  induction ls as [| l ls IH]; intros seen b Hpost Hlt Hsorted Hpos.
  - rewrite app_nil_r. exact Hpost.
  - cbn [fold_left].
    replace (seen ++ l :: ls) with ((seen ++ [l]) ++ ls)
      by (rewrite <- app_assoc; reflexivity).
    inversion Hsorted as [| ? ? Hs' Hall]; subst.
    apply IH.
    + apply consider_post; [exact Hpost | | apply Hpos; left; reflexivity].
      intros x Hx. apply Hlt; [exact Hx | left; reflexivity].
    + intros x y Hx Hy. apply in_app_or in Hx. destruct Hx as [Hx | [Hx | []]].
      * apply Hlt; [exact Hx | right; exact Hy].
      * subst x. rewrite Forall_forall in Hall. apply Hall, Hy.
    + exact Hs'.
    + intros y Hy. apply Hpos. right. exact Hy.
Qed.

Lemma search_post_init : search_post score far_pow [] best_init.
Proof.
  repeat split; try (intros l []). left. reflexivity.
Qed.

(** The loop of the source, run with its own fuel, meets [search_post]
    on the candidate list of the specification. *)
Lemma lag_loop_post (max_lag lag_step : Z) :
  1 <= lag_step ->
  search_post score far_pow (lag_candidates max_lag lag_step)
    (lag_loop score far_pow (lag_fuel max_lag) max_lag lag_step 0 best_init).
Proof.
  intros Hstep.
  rewrite lag_loop_candidates by exact Hstep.
  change (lag_candidates max_lag lag_step)
    with ([] ++ lag_candidates max_lag lag_step) at 1.
  apply fold_consider_post.
  - apply search_post_init.
  - intros x y [].
  - apply lag_candidates_sorted, Hstep.
  - intros y Hy. apply in_lag_candidates in Hy; [| exact Hstep].
    destruct Hy as [k [Hk [Hk0 _]]]. nia.
Qed.

(** A best that was taken from a candidate is above minus infinity. *)
Lemma lag_loop_above (max_lag lag_step : Z) :
  1 <= lag_step ->
  let b := lag_loop score far_pow (lag_fuel max_lag) max_lag lag_step 0
                    best_init in
  b = best_init \/ f_ltb f_neg_inf (best_score b) = true.
Proof.
  intros Hstep. cbv zeta.
  rewrite lag_loop_candidates by exact Hstep.
  generalize (lag_candidates max_lag lag_step) as ls.
  assert (Hgen : forall ls b,
             (b = best_init \/ f_ltb f_neg_inf (best_score b) = true) ->
             fold_left (fun b l => consider score far_pow l b) ls b = best_init \/
             f_ltb f_neg_inf
               (best_score (fold_left (fun b l => consider score far_pow l b) ls b))
             = true).
  { induction ls as [| l ls IH]; intros b Hb; cbn [fold_left]; [exact Hb |].
    apply IH. unfold consider.
    destruct (f_ltb (best_score b) (score l)) eqn:E; [right | exact Hb].
    cbn [best_score]. destruct Hb as [-> | Hb]; [exact E |].
    exact (f_ltb_trans _ _ _ Hb E). }
  intros ls. apply Hgen. left. reflexivity.
Qed.

End SearchProperties.

(** ** One call of [process_block] *)

Section BlockProperties.

Context {F : Type} {A : Arith F}.

Implicit Types (st : EchoSuppressor F) (far mic : list F).

Lemma process_block_eq st far mic :
  process_block st far mic =
  (let echo := echo_detected st far mic in
   let hs := hangover (hangover_blocks (config_ st)) echo (hang_cnt_ st) in
   let gain := smooth_gain st (snd hs) in
   ({| fs_ := fs_ st;
       block_samples_ := block_samples_ st;
       max_lag_samples_ := max_lag_samples_ st;
       config_ := config_ st;
       atten_linear_ := atten_linear_ st;
       far_hist_ := fst (pushed st far);
       hist_pos_ := snd (pushed st far);
       gate_gain_ := gain;
       hang_cnt_ := fst hs |},
    {| out := map (fun i => f_mul (rd mic (Z.of_nat i)) gain)
                  (seq 0 (Z.to_nat (block_samples_ st)));
       applied_gain := gain;
       estimated_lag_samples := if echo then best_lag (search_of st far mic) else -1;
       suppressed := snd hs |})).
Proof.
  unfold process_block, echo_detected, search_of, pushed.
  destruct (push_block (block_samples_ st) far (far_hist_ st) (hist_pos_ st))
    as [hist pos].
  cbn [fst snd].
  destruct (hangover _ _ _) as [hang suppress].
  reflexivity.
Qed.

Lemma process_block_config st far mic :
  config_ (fst (process_block st far mic)) = config_ st.
Proof. rewrite process_block_eq. reflexivity. Qed.

Lemma process_block_shape st far mic :
  fs_ (fst (process_block st far mic)) = fs_ st /\
  block_samples_ (fst (process_block st far mic)) = block_samples_ st /\
  max_lag_samples_ (fst (process_block st far mic)) = max_lag_samples_ st /\
  atten_linear_ (fst (process_block st far mic)) = atten_linear_ st.
Proof. rewrite process_block_eq. repeat split. Qed.

(** A property kept by the body is kept by the loop. *)
Lemma for_from_inv {St : Type} (P : St -> Prop) (body : Z -> St -> St) :
  (forall i s, P s -> P (body i s)) ->
  forall (n : nat) (i : Z) (s : St), P s -> P (for_from n i body s).
Proof.
  intros Hbody n. induction n as [| n IH]; intros i s Hs; cbn [for_from].
  - exact Hs.
  - apply IH, Hbody, Hs.
Qed.

Lemma lag_step_of_pos (fs : Z) : 1 <= lag_step_of fs.
Proof. unfold lag_step_of. lia. Qed.

Lemma fmax_idem (p : F) : fmax (fmax p eps) eps = fmax p eps.
Proof.
  unfold fmax at 2 3.
  destruct (f_ltb p eps) eqn:E.
  - unfold fmax. destruct (f_ltb eps eps); reflexivity.
  - unfold fmax. rewrite E. reflexivity.
Qed.

Lemma far_pow_of_floored st far mic lag :
  fmax (far_pow_of st far mic lag) eps = far_pow_of st far mic lag.
Proof.
  unfold far_pow_of, lag_far_pow.
  destruct (window_sums _ _ _ _ _ _) as [[accum fp] fa].
  apply fmax_idem.
Qed.

Context {O : ArithOrder F}.

(** The search of a call meets [search_post] for the candidates, scores
    and reference powers of that call. *)
Lemma search_of_post st far mic :
  search_post (score_of st far mic) (far_pow_of st far mic)
    (candidates_of st) (search_of st far mic).
Proof.
  unfold search_of, lag_search, candidates_of.
  apply (lag_loop_post (score_of st far mic) (far_pow_of st far mic)).
  apply lag_step_of_pos.
Qed.

Lemma search_of_above st far mic :
  search_of st far mic = best_init \/
  f_ltb f_neg_inf (best_score (search_of st far mic)) = true.
Proof.
  unfold search_of, lag_search.
  apply (lag_loop_above (score_of st far mic) (far_pow_of st far mic)).
  apply lag_step_of_pos.
Qed.

Lemma candidates_nonneg st l : In l (candidates_of st) -> 0 <= l.
Proof.
  intros Hl. apply in_lag_candidates in Hl; [| apply lag_step_of_pos].
  destruct Hl as [k [Hk [Hk0 _]]].
  pose proof (lag_step_of_pos (fs_ st)). nia.
Qed.

Lemma echo_detected_taken st far mic :
  echo_detected st far mic = true ->
  In (best_lag (search_of st far mic)) (candidates_of st) /\
  best_score (search_of st far mic)
    = score_of st far mic (best_lag (search_of st far mic)) /\
  best_far_pow (search_of st far mic)
    = far_pow_of st far mic (best_lag (search_of st far mic)).
Proof.
  intros He.
  destruct (search_of_post st far mic) as [_ [_ [Hinit | Htaken]]];
    [| exact Htaken].
  unfold echo_detected, decide_echo in He. rewrite Hinit in He.
  cbn [best_score best_init] in He.
  rewrite f_ltb_neg_inf in He. discriminate.
Qed.

Lemma estimated_lag_sentinel st far mic :
  estimated_lag_samples (snd (process_block st far mic)) = -1 <->
  echo_detected st far mic = false.
Proof.
  rewrite process_block_eq. cbn [snd estimated_lag_samples].
  destruct (echo_detected st far mic) eqn:He.
  - destruct (echo_detected_taken st far mic He) as [Hin _].
    apply candidates_nonneg in Hin. split; [lia | discriminate].
  - split; reflexivity.
Qed.

(** When no candidate lag scores above the threshold, no echo is
    declared. *)
Lemma no_echo_when_scores_below st far mic :
  (forall l, In l (candidates_of st) ->
             f_ltb (rho_thresh (config_ st)) (score_of st far mic l) = false) ->
  echo_detected st far mic = false.
Proof.
  intros Hbelow.
  destruct (echo_detected st far mic) eqn:He; [| reflexivity].
  destruct (echo_detected_taken st far mic He) as [Hin [Hs _]].
  unfold echo_detected, decide_echo in He.
  rewrite Hs, (Hbelow _ Hin) in He. discriminate.
Qed.

End BlockProperties.

(** ** Echo decision, lag report and hangover *)

Section Decision.

Context {F : Type} {A : Arith F} {O : ArithOrder F}.

Implicit Types (st : EchoSuppressor F) (far mic : list F).

(** The decision in terms of the best score and of the reference power
    of the winning window. *)
Lemma echo_detected_iff st far mic :
  echo_detected st far mic = true <->
  f_ltb (rho_thresh (config_ st)) (best_score (search_of st far mic)) = true /\
  f_ltb (mic_power (block_samples_ st) mic)
        (f_mul (power_ratio_alpha (config_ st))
               (far_pow_of st far mic (best_lag (search_of st far mic)))) = true.
Proof.
  split.
  - intros He.
    destruct (echo_detected_taken st far mic He) as [_ [_ Hp]].
    unfold echo_detected, decide_echo in He.
    apply andb_true_iff in He. destruct He as [H1 H2].
    rewrite Hp, far_pow_of_floored in H2.
    split; assumption.
  - intros [H1 H2].
    destruct (search_of_post st far mic) as [_ [_ [Hinit | [_ [_ Hp]]]]].
    + rewrite Hinit in H1. cbn in H1.
      rewrite f_ltb_neg_inf in H1. discriminate.
    + unfold echo_detected, decide_echo.
      rewrite H1, Hp, far_pow_of_floored, H2. reflexivity.
Qed.

(** C1.  For every block: no candidate lag scores above the best score
    of the search; echo is declared exactly when that best score is
    strictly above the similarity threshold and the microphone power
    (sum of squares floored at 1e-9) is strictly below the power-ratio
    ceiling times the floored reference power at the best-scoring lag;
    the reported lag is the winning lag when echo is declared and the
    sentinel -1 otherwise. *)
Theorem echo_decision_rule st far mic :
  let b := search_of st far mic in
  let r := snd (process_block st far mic) in
  let declared :=
    f_ltb (rho_thresh (config_ st)) (best_score b) = true /\
    f_ltb (mic_power (block_samples_ st) mic)
          (f_mul (power_ratio_alpha (config_ st))
                 (far_pow_of st far mic (best_lag b))) = true in
  (forall l, In l (candidates_of st) ->
             f_ltb (best_score b) (score_of st far mic l) = false) /\
  (echo_detected st far mic = true <-> declared) /\
  (declared ->
   estimated_lag_samples r = best_lag b /\
   In (best_lag b) (candidates_of st) /\
   best_score b = score_of st far mic (best_lag b)) /\
  (~ declared -> estimated_lag_samples r = -1).
Proof.
  intros b r declared.
  pose proof (echo_detected_iff st far mic) as Hiff.
  split; [apply (search_of_post st far mic) |].
  split; [exact Hiff |].
  split.
  - intros Hd. apply Hiff in Hd.
    destruct (echo_detected_taken st far mic Hd) as [Hin [Hs _]].
    split; [| split; assumption].
    unfold r. rewrite process_block_eq. cbn [snd estimated_lag_samples].
    rewrite Hd. reflexivity.
  - intros Hnd. apply estimated_lag_sentinel.
    destruct (echo_detected st far mic); [| reflexivity].
    exfalso. apply Hnd, Hiff. reflexivity.
Qed.

(** C5.  The search examines the candidate lags 0, lagStep, 2 lagStep,
    ... up to maxLag in ascending order; a candidate replaces the running
    best only when its score is strictly above it; so the winner is the
    smallest candidate lag among those with the best score, and it comes
    with the reference power of its own window. *)
Theorem lag_search_tie_break st far mic :
  let b := search_of st far mic in
  let score := score_of st far mic in
  let cands := candidates_of st in
  b = fold_left (fun b l => consider score (far_pow_of st far mic) l b)
                cands best_init /\
  StronglySorted Z.lt cands /\
  (forall l, In l cands <->
             exists k, l = k * lag_step_of (fs_ st) /\ 0 <= k /\
                       l <= max_lag_samples_ st) /\
  (forall l, In l cands -> f_ltb (best_score b) (score l) = false) /\
  (forall l, In l cands -> score l = best_score b -> best_lag b <= l) /\
  (forall l1 l2, In l1 cands -> In l2 cands -> l1 < l2 ->
                 score l1 = score l2 -> best_lag b <> l2) /\
  (b = best_init \/
   (In (best_lag b) cands /\ best_score b = score (best_lag b) /\
    best_far_pow b = far_pow_of st far mic (best_lag b))).
Proof.
  intros b score cands.
  pose proof (search_of_post st far mic) as [Hmax [Hfirst Hsel]].
  fold b score cands in Hmax, Hfirst, Hsel.
  split.
  { unfold b, search_of, lag_search.
    apply (lag_loop_candidates score (far_pow_of st far mic)).
    apply lag_step_of_pos. }
  split; [apply lag_candidates_sorted, lag_step_of_pos |].
  split; [intros l; apply in_lag_candidates, lag_step_of_pos |].
  split; [exact Hmax |].
  split; [exact Hfirst |].
  split; [| exact Hsel].
  intros l1 l2 H1 H2 Hlt Hsc Hbest.
  destruct Hsel as [Hinit | [_ [Hs _]]].
  - rewrite Hinit in Hbest. cbn in Hbest.
    apply candidates_nonneg in H1. lia.
  - rewrite Hbest in Hs. rewrite <- Hsc in Hs.
    specialize (Hfirst l1 H1 (eq_sym Hs)). lia.
Qed.

(** C10.  The lag written for the caller is the sentinel -1 or a
    non-negative multiple of the lag step that does not exceed
    [max_lag_samples_]. *)
Theorem estimated_lag_range st far mic :
  let lag := estimated_lag_samples (snd (process_block st far mic)) in
  lag = -1 \/
  exists k, 0 <= k /\ lag = k * lag_step_of (fs_ st) /\
            0 <= lag <= max_lag_samples_ st.
Proof.
  intros lag. unfold lag. rewrite process_block_eq.
  cbn [snd estimated_lag_samples].
  destruct (echo_detected st far mic) eqn:He; [right | left; reflexivity].
  destruct (echo_detected_taken st far mic He) as [Hin _].
  pose proof (candidates_nonneg _ _ Hin) as H0.
  apply in_lag_candidates in Hin; [| apply lag_step_of_pos].
  destruct Hin as [k [Hk [Hk0 Hmax]]].
  exists k. repeat split; assumption.
Qed.

Lemma run_cons st far mic (rest : list (list F * list F)) :
  snd (run st ((far, mic) :: rest)) =
  snd (process_block st far mic)
  :: snd (run (fst (process_block st far mic)) rest).
Proof.
  cbn [run].
  destruct (process_block st far mic) as [st1 r].
  cbn [fst snd].
  destruct (run st1 rest) as [st2 rs].
  reflexivity.
Qed.

Lemma hangover_after_echo st far mic :
  echo_detected st far mic = true ->
  hang_cnt_ (fst (process_block st far mic)) = hangover_blocks (config_ st) /\
  suppressed (snd (process_block st far mic)) = true.
Proof.
  intros He. rewrite process_block_eq. cbn [fst snd hang_cnt_ suppressed].
  rewrite He. split; reflexivity.
Qed.

Lemma hangover_no_echo st far mic :
  echo_detected st far mic = false ->
  hang_cnt_ (fst (process_block st far mic))
    = (if 0 <? hang_cnt_ st then hang_cnt_ st - 1 else hang_cnt_ st) /\
  suppressed (snd (process_block st far mic)) = (0 <? hang_cnt_ st).
Proof.
  intros He. rewrite process_block_eq. cbn [fst snd hang_cnt_ suppressed].
  rewrite He. unfold hangover.
  destruct (0 <? hang_cnt_ st); split; reflexivity.
Qed.

(** A run of blocks without detection is suppressed for as many blocks
    as the counter holds. *)
Lemma run_without_echo (rest : list (list F * list F)) :
  forall st,
    (forall r, In r (snd (run st rest)) -> estimated_lag_samples r = -1) ->
    forall (k : nat) r,
      nth_error (snd (run st rest)) k = Some r ->
      suppressed r = (Z.of_nat k <? hang_cnt_ st).
Proof.
  induction rest as [| [far mic] rest IH]; intros st Hnone k r Hk.
  - destruct k; discriminate.
  - rewrite run_cons in Hnone, Hk.
    assert (He : echo_detected st far mic = false).
    { apply estimated_lag_sentinel. apply Hnone. left. reflexivity. }
    destruct (hangover_no_echo st far mic He) as [Hcnt Hsup].
    destruct k as [| k]; cbn [nth_error] in Hk.
    + injection Hk as <-. rewrite Hsup. reflexivity.
    + rewrite (IH _ (fun r' Hr' => Hnone r' (or_intror Hr')) k r Hk).
      rewrite Hcnt.
      destruct (0 <? hang_cnt_ st) eqn:Hc;
        [apply Z.ltb_lt in Hc | apply Z.ltb_ge in Hc];
        apply eq_true_iff_eq; rewrite !Z.ltb_lt; lia.
Qed.

(** C3, as the code has it.  A block on which echo is detected is
    suppressed, and of the non-detected blocks that follow it the first H
    are suppressed (H the configured hangover length) and every later one
    is released: the k-th following block, counted from zero, is
    suppressed exactly when k < H. *)
Theorem hangover_persistence st far mic (rest : list (list F * list F)) :
  let H := hangover_blocks (config_ st) in
  let r0 := snd (process_block st far mic) in
  let rs := snd (run (fst (process_block st far mic)) rest) in
  estimated_lag_samples r0 <> -1 ->
  (forall r, In r rs -> estimated_lag_samples r = -1) ->
  suppressed r0 = true /\
  forall (k : nat) r, nth_error rs k = Some r ->
                      suppressed r = (Z.of_nat k <? H).
Proof.
  intros H r0 rs Hecho Hnone.
  assert (He : echo_detected st far mic = true).
  { destruct (echo_detected st far mic) eqn:E; [reflexivity |].
    exfalso. apply Hecho. apply estimated_lag_sentinel. exact E. }
  destruct (hangover_after_echo st far mic He) as [Hcnt Hsup].
  split; [exact Hsup |].
  intros k r Hk.
  rewrite (run_without_echo rest _ Hnone k r Hk).
  rewrite Hcnt. reflexivity.
Qed.

End Decision.

(** ** Gain smoothing, output and configuration *)

Section GainAndConfig.

Context {F : Type} {A : Arith F}.

Implicit Types (st : EchoSuppressor F) (far mic : list F).

(** C4.  Every call updates the gain by one step of the one-pole filter:
    the target is the muted linear gain when the block is suppressed and
    1.0 otherwise, the coefficient is the attack coefficient when the
    target is below the current gain and the release coefficient
    otherwise, the new gain is (1 - coeff) * gain + coeff * target, and
    every output sample is the microphone sample times the new gain. *)
Theorem gain_update st far mic :
  let r := snd (process_block st far mic) in
  let target := if suppressed r then atten_linear_ st else one in
  let coeff := if f_ltb target (gate_gain_ st)
               then attack (config_ st) else release (config_ st) in
  suppressed r = (echo_detected st far mic || (0 <? hang_cnt_ st)) /\
  applied_gain r
    = f_add (f_mul (f_sub one coeff) (gate_gain_ st)) (f_mul coeff target) /\
  gate_gain_ (fst (process_block st far mic)) = applied_gain r /\
  length (out r) = Z.to_nat (block_samples_ st) /\
  forall i, 0 <= i < block_samples_ st ->
            rd (out r) i = f_mul (rd mic i) (applied_gain r).
Proof.
  rewrite process_block_eq.
  cbn [fst snd suppressed applied_gain gate_gain_ out]. cbv zeta.
  split.
  { unfold hangover. destruct (echo_detected st far mic); [reflexivity |].
    destruct (0 <? hang_cnt_ st); reflexivity. }
  split; [reflexivity |].
  split; [reflexivity |].
  split; [rewrite length_map, length_seq; reflexivity |].
  intros i Hi. unfold rd at 1.
  set (g := smooth_gain st _).
  rewrite (nth_indep _ zero (f_mul (rd mic (Z.of_nat 0)) g))
    by (rewrite length_map, length_seq; lia).
  rewrite (map_nth (fun i => f_mul (rd mic (Z.of_nat i)) g)).
  rewrite seq_nth by lia.
  rewrite Nat.add_0_l, Z2Nat.id by lia. reflexivity.
Qed.

Context {O : ArithOrder F}.

(** A hangover length or counter below zero acts as zero: the counter
    read through [Z.max 0] evolves, and the block is suppressed, exactly
    as with the clamped length. *)
Lemma hangover_effective (hangover_len hang_cnt : Z) (echo : bool) :
  snd (hangover hangover_len echo hang_cnt)
  = snd (hangover (Z.max 0 hangover_len) echo (Z.max 0 hang_cnt)) /\
  Z.max 0 (fst (hangover hangover_len echo hang_cnt))
  = fst (hangover (Z.max 0 hangover_len) echo (Z.max 0 hang_cnt)).
Proof.
  unfold hangover. destruct echo; cbn [fst snd]; [split; lia |].
  destruct (0 <? hang_cnt) eqn:E1; destruct (0 <? Z.max 0 hang_cnt) eqn:E2;
    cbn [fst snd];
    try apply Z.ltb_lt in E1; try apply Z.ltb_ge in E1;
    try apply Z.ltb_lt in E2; try apply Z.ltb_ge in E2;
    split; try reflexivity; lia.
Qed.


End GainAndConfig.

(** ** The fixed-parameter suppressor is the configurable one *)

Section FixedProperties.

Context {F : Type} {A : Arith F}.

(** X21. One call of the fixed-parameter [process_block] is one call of
    the configurable [process_block] at 16 kHz with the
    absolute-difference metric and the constants as configuration. *)
Lemma fixed_process_block (s : Fixed.State F) (far mic : list F) :
  process_block (Fixed.embed s) far mic
  = (Fixed.embed (fst (Fixed.process_block s far mic)),
     snd (Fixed.process_block s far mic)).
Proof.
  unfold process_block, Fixed.process_block, lag_search, decide_echo,
    smooth_gain, target_gain_of, mic_abs_sum, use_amdf_of.
  cbn [Fixed.embed fs_ block_samples_ max_lag_samples_ config_ atten_linear_
       far_hist_ hist_pos_ gate_gain_ hang_cnt_ rho_thresh power_ratio_alpha
       hangover_blocks attack release lag_metric LagMetric_eqb].
  destruct (push_block Fixed.kBlockSamples far (Fixed.far_hist s)
                       (Fixed.hist_pos s)) as [hist pos].
  change (lag_step_of Fixed.kSampleRate) with Fixed.kLagStep.
  destruct (hangover Fixed.kHangoverBlocks _ (Fixed.hang_cnt s))
    as [hang suppress].
  reflexivity.
Qed.

Lemma fixed_init :
  Fixed.embed (F:=F) Fixed.init
  = reset (Fixed.embed
             {| Fixed.far_hist :=
                  repeat zero
                    (Z.to_nat (Fixed.kMaxLagSamples + Fixed.kBlockSamples * 4));
                Fixed.hist_pos := 0;
                Fixed.gate_gain := one;
                Fixed.hang_cnt := 0 |}).
Proof. reflexivity. Qed.

End FixedProperties.

(** ** The reference history *)

Section History.

Context {F : Type} {A : Arith F}.

Implicit Types (st : EchoSuppressor F) (far mic hist stream : list F).

Lemma length_upd_nat hist (n : nat) (x : F) :
  length (upd_nat hist n x) = length hist.
Proof.
  revert n. induction hist as [| h t IH]; intros [| n]; cbn; auto.
Qed.

Lemma length_upd hist (i : Z) (x : F) : length (upd hist i x) = length hist.
Proof. unfold upd. destruct (i <? 0); [reflexivity | apply length_upd_nat]. Qed.

Lemma nth_upd_nat_same hist (n : nat) (x : F) :
  (n < length hist)%nat -> nth n (upd_nat hist n x) zero = x.
Proof.
  revert n. induction hist as [| h t IH]; intros [| n] Hn; cbn in *;
    try lia; auto. apply IH. lia.
Qed.

Lemma nth_upd_nat_other hist (n m : nat) (x : F) :
  n <> m -> nth m (upd_nat hist n x) zero = nth m hist zero.
Proof.
  revert n m. induction hist as [| h t IH]; intros [| n] [| m] Hnm; cbn;
    try reflexivity; try congruence.
  apply IH. congruence.
Qed.

Lemma rd_upd_same hist (i : Z) (x : F) :
  0 <= i < Z.of_nat (length hist) -> rd (upd hist i x) i = x.
Proof.
  intros Hi. unfold rd, upd.
  destruct (i <? 0) eqn:E; [apply Z.ltb_lt in E; lia |].
  apply nth_upd_nat_same. lia.
Qed.

Lemma rd_upd_other hist (i j : Z) (x : F) :
  0 <= j -> i <> j -> rd (upd hist i x) j = rd hist j.
Proof.
  intros Hj Hij. unfold rd, upd.
  destruct (i <? 0) eqn:E; [reflexivity |].
  apply Z.ltb_ge in E.
  apply nth_upd_nat_other. lia.
Qed.

Lemma recent_snoc_0 stream (x : F) : recent (stream ++ [x]) 0 = x.
Proof. unfold recent, rd. rewrite rev_app_distr. reflexivity. Qed.

Lemma recent_snoc_S stream (x : F) (k : Z) :
  0 < k -> recent (stream ++ [x]) k = recent stream (k - 1).
Proof.
  intros Hk. unfold recent, rd. rewrite rev_app_distr. cbn [rev app].
  replace (Z.to_nat k) with (S (Z.to_nat (k - 1))) by lia.
  reflexivity.
Qed.

(** Storing one sample keeps the buffer a window on the stream. *)
Lemma push_sample_holds hist (pos : Z) stream (x : F) :
  0 <= pos < Z.of_nat (length hist) ->
  holds_recent hist pos stream ->
  holds_recent (upd hist pos x) ((pos + 1) mod Z.of_nat (length hist))
               (stream ++ [x]).
Proof.
  intros Hpos Hold k Hk.
  rewrite length_upd in *.
  set (cap := Z.of_nat (length hist)) in *.
  assert (Hidx : ((pos + 1) mod cap - 1 - k) mod cap = (pos - k) mod cap).
  { replace ((pos + 1) mod cap - 1 - k) with ((pos + 1) mod cap + (- 1 - k)) by lia.
    rewrite Zplus_mod_idemp_l. f_equal. lia. }
  rewrite Hidx.
  destruct (Z.eq_dec k 0) as [-> | Hk0].
  - rewrite Z.sub_0_r, Z.mod_small by lia.
    rewrite rd_upd_same by (fold cap; lia).
    symmetry. apply recent_snoc_0.
  - assert (Hne : pos <> (pos - k) mod cap).
    { intros Heq.
      assert (Hm : (pos - (pos - k)) mod cap = 0).
      { rewrite Zminus_mod, <- Heq, (Z.mod_small pos) by lia.
        rewrite Z.sub_diag. apply Z.mod_0_l. lia. }
      replace (pos - (pos - k)) with k in Hm by lia.
      rewrite Z.mod_small in Hm by lia. lia. }
    rewrite rd_upd_other;
      [| apply Z.mod_pos_bound; lia | exact Hne].
    rewrite recent_snoc_S by lia.
    rewrite <- (Hold (k - 1)) by (fold cap; lia).
    fold cap. do 2 f_equal. lia.
Qed.

(** Storing [n] consecutive samples of [far], from index [i] on. *)
Lemma for_from_push far (n : nat) :
  forall (i : Z) hist (pos : Z) stream,
    0 <= pos < Z.of_nat (length hist) ->
    holds_recent hist pos stream ->
    let hp := for_from n i (push_sample far) (hist, pos) in
    length (fst hp) = length hist /\
    snd hp = (pos + Z.of_nat n) mod Z.of_nat (length hist) /\
    holds_recent (fst hp) (snd hp)
      (stream ++ map (fun j => rd far (i + Z.of_nat j)) (seq 0 n)).
Proof.
  induction n as [| n IH]; intros i hist pos stream Hpos Hold.
  - cbn [for_from fst snd seq map]. rewrite app_nil_r, Z.add_0_r.
    rewrite Z.mod_small by lia. auto.
  - cbn [for_from push_sample].
    pose proof (push_sample_holds hist pos stream (rd far i) Hpos Hold) as Hstep.
    assert (Hpos' : 0 <= (pos + 1) mod Z.of_nat (length hist)
                    < Z.of_nat (length (upd hist pos (rd far i)))).
    { rewrite length_upd. apply Z.mod_pos_bound. lia. }
    destruct (IH (i + 1) _ _ _ Hpos' Hstep) as [Hlen [Hcur Hrec]].
    rewrite length_upd in Hlen, Hcur.
    split; [exact Hlen |].
    split.
    + rewrite Hcur, Zplus_mod_idemp_l. f_equal. lia.
    + cbn [seq map]. rewrite <- seq_shift, map_map.
      rewrite <- app_assoc in Hrec. cbn [app] in Hrec.
      rewrite Z.add_0_r.
      erewrite (map_ext (fun j => rd far (i + Z.of_nat (S j))));
        [exact Hrec |].
      intros j. cbv beta. f_equal. lia.
Qed.

Lemma map_nth_all far :
  map (fun j => nth j far zero) (seq 0 (length far)) = far.
Proof.
  induction far as [| x far IH]; [reflexivity |].
  cbn [length seq map nth]. rewrite <- seq_shift, map_map.
  f_equal. exact IH.
Qed.

Lemma map_rd_all far :
  map (fun j => rd far (0 + Z.of_nat j)) (seq 0 (length far)) = far.
Proof.
  transitivity (map (fun j => nth j far zero) (seq 0 (length far)));
    [| apply map_nth_all].
  apply map_ext. intros j. unfold rd. f_equal. lia.
Qed.

(** One call: the far block enters the history, the cursor advances by
    the block length modulo the capacity. *)
Lemma process_block_history st far mic stream :
  well_formed st ->
  Z.of_nat (length far) = block_samples_ st ->
  holds_recent (far_hist_ st) (hist_pos_ st) stream ->
  let st' := fst (process_block st far mic) in
  well_formed st' /\
  hist_pos_ st' = (hist_pos_ st + block_samples_ st) mod hist_capacity st /\
  holds_recent (far_hist_ st') (hist_pos_ st') (stream ++ far).
Proof.
  intros [Hb [Hm [Hlen Hpos]]] Hfar Hold st'.
  unfold st'. rewrite process_block_eq.
  cbn [fst far_hist_ hist_pos_].
  unfold pushed, push_block, for_up.
  rewrite <- Hlen in Hpos.
  destruct (for_from_push far (Z.to_nat (block_samples_ st)) 0 _ _ _ Hpos Hold)
    as [Hlen' [Hcur Hrec]].
  replace (Z.to_nat (block_samples_ st)) with (length far) in * by lia.
  rewrite map_rd_all in Hrec.
  split; [| split].
  - unfold well_formed, hist_capacity in *.
    cbn [block_samples_ max_lag_samples_ far_hist_ hist_pos_].
    rewrite Hlen', Hcur, Hlen.
    repeat split; try lia; apply Z.mod_pos_bound; lia.
  - rewrite Hcur, Hlen. f_equal. lia.
  - exact Hrec.
Qed.

Lemma run_cons_fst st far mic (rest : list (list F * list F)) :
  fst (run st ((far, mic) :: rest)) =
  fst (run (fst (process_block st far mic)) rest).
Proof.
  cbn [run].
  destruct (process_block st far mic) as [st1 r].
  cbn [fst snd].
  destruct (run st1 rest) as [st2 rs].
  reflexivity.
Qed.

Lemma run_history (blocks : list (list F * list F)) :
  forall st stream,
    well_formed st ->
    (forall b, In b blocks -> Z.of_nat (length (fst b)) = block_samples_ st) ->
    holds_recent (far_hist_ st) (hist_pos_ st) stream ->
    let st' := fst (run st blocks) in
    well_formed st' /\
    block_samples_ st' = block_samples_ st /\
    hist_capacity st' = hist_capacity st /\
    hist_pos_ st'
      = (hist_pos_ st + Z.of_nat (length blocks) * block_samples_ st)
          mod hist_capacity st /\
    holds_recent (far_hist_ st') (hist_pos_ st') (stream ++ far_stream blocks).
Proof.
  induction blocks as [| [far mic] rest IH]; intros st stream Hwf Hlens Hold.
  - cbn [run fst length far_stream map concat]. rewrite app_nil_r.
    pose proof Hwf as [? [? [? ?]]].
    rewrite Z.mul_0_l, Z.add_0_r, Z.mod_small by lia.
    split; [exact Hwf |]. split; [reflexivity |]. split; [reflexivity |].
    split; [reflexivity | exact Hold].
  - cbv zeta. rewrite run_cons_fst.
    assert (Hfar : Z.of_nat (length far) = block_samples_ st)
      by (apply (Hlens (far, mic)); left; reflexivity).
    destruct (process_block_history st far mic stream Hwf Hfar Hold)
      as [Hwf1 [Hpos1 Hold1]].
    destruct (process_block_shape st far mic) as [_ [Hb1 [Hm1 _]]].
    assert (Hcap1 : hist_capacity (fst (process_block st far mic))
                    = hist_capacity st)
      by (unfold hist_capacity; rewrite Hb1, Hm1; reflexivity).
    destruct (IH (fst (process_block st far mic)) (stream ++ far) Hwf1)
      as [Hwf2 [Hb2 [Hcap2 [Hpos2 Hold2]]]].
    + intros b Hb. rewrite Hb1. apply Hlens. right. exact Hb.
    + exact Hold1.
    + split; [exact Hwf2 |].
      split; [rewrite Hb2; exact Hb1 |].
      split; [rewrite Hcap2; exact Hcap1 |].
      split.
      * rewrite Hpos2, Hcap1, Hb1, Hpos1, Zplus_mod_idemp_l.
        f_equal. cbn [length]. lia.
      * unfold far_stream in *. cbn [map fst concat].
        rewrite app_assoc. exact Hold2.
Qed.

(** [wrap_index] is reduction modulo the buffer size. *)
Lemma wrap_index_mod (hist_size pos offset : Z) :
  0 < hist_size ->
  wrap_index hist_size pos offset = (pos + offset) mod hist_size.
Proof.
  intros Hn. unfold wrap_index.
  pose proof (Z.quot_rem' (pos + offset) hist_size) as Hqr.
  destruct (Z_lt_le_dec (pos + offset) 0) as [Hneg | Hpos].
  - pose proof (Z.rem_bound_pos_neg (pos + offset) hist_size Hn
                  (Z.lt_le_incl _ _ Hneg)) as Hb.
    destruct (Z.rem (pos + offset) hist_size <? 0) eqn:E.
    + apply (Z.mod_unique _ _ (Z.quot (pos + offset) hist_size - 1)); lia.
    + apply Z.ltb_ge in E.
      apply (Z.mod_unique _ _ (Z.quot (pos + offset) hist_size)); lia.
  - pose proof (Z.rem_bound_pos (pos + offset) hist_size Hpos Hn) as Hb.
    destruct (Z.rem (pos + offset) hist_size <? 0) eqn:E.
    + apply Z.ltb_lt in E. lia.
    + apply (Z.mod_unique _ _ (Z.quot (pos + offset) hist_size)); lia.
Qed.

(** The window of candidate [lag]: the [block] samples that end [lag]
    samples before the newest one. *)
Lemma hist_at_recent hist (pos block lag i : Z) stream :
  0 <= pos < Z.of_nat (length hist) ->
  holds_recent hist pos stream ->
  0 <= lag -> 0 <= i < block -> lag + block <= Z.of_nat (length hist) ->
  hist_at hist pos block lag i = recent stream (lag + block - 1 - i).
Proof.
  intros Hpos Hold Hlag Hi Hfit. unfold hist_at.
  rewrite wrap_index_mod by lia.
  rewrite <- (Hold (lag + block - 1 - i)) by lia.
  do 2 f_equal. lia.
Qed.

(** The windows of a call, in terms of the stream delivered so far. *)
Lemma window_recent st far mic stream (lag i : Z) :
  well_formed st ->
  Z.of_nat (length far) = block_samples_ st ->
  holds_recent (far_hist_ st) (hist_pos_ st) stream ->
  0 <= lag <= max_lag_samples_ st -> 0 <= i < block_samples_ st ->
  hist_at (fst (pushed st far)) (snd (pushed st far)) (block_samples_ st) lag i
  = recent (stream ++ far) (lag + block_samples_ st - 1 - i).
Proof.
  intros Hwf Hfar Hold Hlag Hi.
  destruct (process_block_history st far mic stream Hwf Hfar Hold)
    as [[_ [_ [Hlen Hpos]]] [_ Hrec]].
  rewrite process_block_eq in Hlen, Hpos, Hrec.
  cbn [fst far_hist_ hist_pos_] in Hlen, Hpos, Hrec.
  unfold hist_capacity in Hlen, Hpos.
  cbn [fst max_lag_samples_ block_samples_] in Hlen, Hpos.
  apply hist_at_recent; try assumption; lia.
Qed.

Lemma in_upd_nat hist (n : nat) (x y : F) :
  In y (upd_nat hist n x) -> y = x \/ In y hist.
Proof.
  revert n. induction hist as [| h t IH]; intros [| n] Hy; cbn in *; auto.
  - destruct Hy as [<- | Hy]; auto.
  - destruct Hy as [<- | Hy]; auto.
    destruct (IH n Hy); auto.
Qed.

Lemma in_upd hist (i : Z) (x y : F) :
  In y (upd hist i x) -> y = x \/ In y hist.
Proof.
  unfold upd. destruct (i <? 0); [auto | apply in_upd_nat].
Qed.

(** A property of zero and of all samples of the history and of the far
    block is a property of all samples of the history after the store. *)
Lemma pushed_forall (P : F -> Prop) st far :
  P zero ->
  (forall x, In x (far_hist_ st) -> P x) ->
  (forall x, In x far -> P x) ->
  forall x, In x (fst (pushed st far)) -> P x.
Proof.
  intros Pz Ph Pf. unfold pushed, push_block, for_up.
  apply (for_from_inv (fun hp => forall x, In x (fst hp) -> P x)); [| exact Ph].
  intros i [hist pos] Hhp x Hx. cbn [push_sample fst] in *.
  apply in_upd in Hx. destruct Hx as [-> | Hx]; [| apply Hhp, Hx].
  unfold rd.
  destruct (nth_in_or_default (Z.to_nat i) far zero) as [Hin | ->];
    [apply Pf, Hin | exact Pz].
Qed.

Lemma rd_all_zero hist (i : Z) :
  (forall x, In x hist -> x = zero) -> rd hist i = zero.
Proof.
  intros Hz. unfold rd.
  destruct (nth_in_or_default (Z.to_nat i) hist zero) as [Hin | Hd];
    [apply Hz, Hin | exact Hd].
Qed.

Lemma new_suppressor_well_formed (fs : Z) (config : EchoSuppressorConfig F) :
  let st0 := new_suppressor fs config in
  well_formed st0 /\
  far_hist_ st0 = repeat zero (Z.to_nat (hist_capacity st0)) /\
  hist_pos_ st0 = 0 /\
  holds_recent (far_hist_ st0) (hist_pos_ st0) [].
Proof.
  cbv zeta. unfold new_suppressor, reset, set_config, well_formed, hist_capacity.
  cbn [block_samples_ max_lag_samples_ far_hist_ hist_pos_].
  set (block := Z.max 1 (Z.quot fs 100)).
  set (max_lag := Z.max block _).
  rewrite map_repeat.
  replace (max_lag + block * 4) with (max_lag + 4 * block) by lia.
  rewrite repeat_length.
  repeat split; try lia.
  intros k _. unfold recent. cbn [rev].
  rewrite !rd_all_zero; [reflexivity | intros x [] |].
  intros x Hx. apply repeat_spec in Hx. exact Hx.
Qed.

(** C7.  The history buffer has capacity maxLagSamples + 4 blockLength
    and starts zero-filled with the cursor at zero.  After any number of
    calls, each delivering one far block of blockLength samples, the
    capacity is unchanged, the cursor is below the capacity and has
    advanced by blockLength per call modulo the capacity, and going back
    from the cursor the buffer holds the most recent far-end samples,
    newest first, with zeros where the stream had not started yet. *)
Theorem history_holds_recent (fs : Z) (config : EchoSuppressorConfig F)
    (blocks : list (list F * list F)) :
  let st0 := new_suppressor fs config in
  let st := fst (run st0 blocks) in
  let cap := max_lag_samples_ st0 + 4 * block_samples_ st0 in
  (forall b, In b blocks -> Z.of_nat (length (fst b)) = block_samples_ st0) ->
  far_hist_ st0 = repeat zero (Z.to_nat cap) /\
  hist_pos_ st0 = 0 /\
  Z.of_nat (length (far_hist_ st)) = cap /\
  0 <= hist_pos_ st < cap /\
  hist_pos_ st = (Z.of_nat (length blocks) * block_samples_ st0) mod cap /\
  forall k, 0 <= k < cap ->
    rd (far_hist_ st) ((hist_pos_ st - 1 - k) mod cap)
    = recent (far_stream blocks) k.
Proof.
  intros st0 st cap Hlens.
  destruct (new_suppressor_well_formed fs config) as [Hwf [Hzero [Hpos0 Hold]]].
  fold st0 in Hwf, Hzero, Hpos0, Hold.
  destruct (run_history blocks st0 [] Hwf Hlens Hold)
    as [Hwf' [Hb [Hcap [Hpos Hrec]]]].
  fold st in Hwf', Hb, Hcap, Hpos, Hrec.
  destruct Hwf' as [_ [_ [Hlen Hcur]]].
  change (hist_capacity st0) with cap in *.
  rewrite Hcap in Hlen, Hcur. rewrite Hpos0, Z.add_0_l in Hpos.
  repeat split; try assumption; try lia.
  intros k Hk. rewrite <- Hlen. apply Hrec. lia.
Qed.

End History.

(** ** Exact arithmetic: order and gain bounds *)

Module XRFacts.

Local Open Scope R_scope.

Lemma xr_ltb_Fin (a b : R) : XR.ltb (Fin a) (Fin b) = true <-> a < b.
Proof.
  unfold XR.ltb. destruct (Rlt_dec a b); split; intros; try discriminate;
    try reflexivity; try lra.
Qed.

Lemma xr_ltb_Fin_false (a b : R) : XR.ltb (Fin a) (Fin b) = false <-> b <= a.
Proof.
  unfold XR.ltb. destruct (Rlt_dec a b); split; intros; try discriminate;
    try reflexivity; try lra.
Qed.

Lemma xr_ltb_irrefl (x : xreal) : XR.ltb x x = false.
Proof. destruct x; [reflexivity | apply xr_ltb_Fin_false; lra]. Qed.

Lemma xr_ltb_trans (x y z : xreal) :
  XR.ltb x y = true -> XR.ltb y z = true -> XR.ltb x z = true.
Proof.
  destruct x, y, z; try discriminate; try reflexivity.
  rewrite !xr_ltb_Fin. lra.
Qed.

Lemma xr_ltb_neg_inf (x : xreal) : XR.ltb x NegInf = false.
Proof. destruct x; reflexivity. Qed.

(** Not below a real number: a real number at least as large. *)
Lemma xr_not_below_Fin (x : xreal) (a : R) :
  XR.ltb x (Fin a) = false -> exists r, x = Fin r /\ a <= r.
Proof.
  destruct x as [| r]; [discriminate |].
  intros H. apply xr_ltb_Fin_false in H. exists r. split; [reflexivity | exact H].
Qed.

End XRFacts.

Lemma exact_order : ArithOrder xreal.
Proof.
  constructor.
  - exact XRFacts.xr_ltb_irrefl.
  - exact XRFacts.xr_ltb_trans.
  - exact XRFacts.xr_ltb_neg_inf.
Qed.

#[export] Existing Instance exact_order.

Section ExactGain.

Local Open Scope R_scope.

Implicit Types (st : EchoSuppressor xreal) (far mic : list xreal).

Lemma in_unit_exact (c : xreal) :
  in_unit c -> exists r, c = Fin r /\ 0 <= r <= 1.
Proof.
  intros [H0 H1].
  apply XRFacts.xr_not_below_Fin in H0. destruct H0 as [r [-> Hr]].
  apply XRFacts.xr_ltb_Fin_false in H1.
  exists r. split; [reflexivity | lra].
Qed.

Lemma gain_in_range_exact st (g : xreal) (a : R) :
  atten_linear_ st = Fin a ->
  gain_in_range st g <-> exists r, g = Fin r /\ a <= r <= 1.
Proof.
  intros Ha. unfold gain_in_range. rewrite Ha. split.
  - intros [H0 H1].
    apply XRFacts.xr_not_below_Fin in H0. destruct H0 as [r [-> Hr]].
    apply XRFacts.xr_ltb_Fin_false in H1.
    exists r. split; [reflexivity | lra].
  - intros [r [-> Hr]]. split; apply XRFacts.xr_ltb_Fin_false; lra.
Qed.

(** One smoothing step keeps the gain between the muted gain and one. *)
Lemma smooth_gain_in_range st (suppress : bool) :
  config_sane st ->
  gain_in_range st (gate_gain_ st) ->
  gain_in_range st (smooth_gain st suppress).
Proof.
  intros [Hatt [Hrel [_ Hmute]]] Hg.
  destruct (in_unit_exact _ Hatt) as [ca [Eca Hca]].
  destruct (in_unit_exact _ Hrel) as [cr [Ecr Hcr]].
  destruct (in_unit_exact _ Hmute) as [a [Ea Ha]].
  apply (gain_in_range_exact st _ a Ea) in Hg. destruct Hg as [g [Eg Hg]].
  apply (gain_in_range_exact st _ a Ea).
  unfold smooth_gain, target_gain_of. rewrite Eca, Ecr, Ea, Eg.
  destruct suppress.
  - destruct (f_ltb (Fin a) (Fin g)); cbn.
    + eexists. split; [reflexivity |]. nra.
    + eexists. split; [reflexivity |]. nra.
  - destruct (f_ltb one (Fin g)); cbn.
    + eexists. split; [reflexivity |]. nra.
    + eexists. split; [reflexivity |]. nra.
Qed.

End ExactGain.

Section ExactInvariant.

Local Open Scope R_scope.

Implicit Types (st : EchoSuppressor xreal) (far mic : list xreal).

Lemma Rpower_le_1 (x y : R) : 1 < x -> y <= 0 -> 0 < Rpower x y <= 1.
Proof.
  intros Hx Hy. unfold Rpower. split; [apply exp_pos |].
  assert (Hln : 0 < ln x) by (rewrite <- ln_1; apply ln_increasing; lra).
  destruct (Req_dec y 0) as [-> | Hne].
  - rewrite Rmult_0_l, exp_0. lra.
  - left. rewrite <- exp_0. apply exp_increasing. nra.
Qed.

(** A muted gain of at most 0 dB gives a linear gain in (0, 1]. *)
Lemma set_config_atten_exact st (config : EchoSuppressorConfig xreal) (d : R) :
  atten_db config = Fin d -> d <= 0 ->
  in_unit (atten_linear_ (set_config st config)).
Proof.
  intros Hd Hle. cbn [set_config atten_linear_]. rewrite Hd. cbn.
  destruct (Rpower_le_1 10 (d / 20)) as [Hp0 Hp1]; [lra | lra |].
  destruct (Rlt_dec (Rpower 10 (d / 20)) 0) as [Hlt | _]; [lra |].
  split; apply XRFacts.xr_ltb_Fin_false; lra.
Qed.

(** One call keeps the gain invariant and the configuration. *)
Lemma process_block_invariant_exact st far mic :
  config_sane st ->
  gain_invariant st ->
  gain_invariant (fst (process_block st far mic)) /\
  config_sane (fst (process_block st far mic)) /\
  gain_in_range st (applied_gain (snd (process_block st far mic))).
Proof.
  intros Hsane [Hg Hh].
  rewrite process_block_eq.
  cbn [fst snd applied_gain]. cbv zeta.
  split; [split |]; [| | split].
  - apply (smooth_gain_in_range st _ Hsane Hg).
  - cbn [hang_cnt_]. destruct Hsane as [_ [_ [HH _]]].
    unfold hangover.
    destruct (echo_detected st far mic); cbn [fst]; [exact HH |].
    destruct (0 <? hang_cnt_ st)%Z eqn:E; cbn [fst]; [| exact Hh].
    apply Z.ltb_lt in E. lia.
  - exact Hsane.
  - apply (smooth_gain_in_range st _ Hsane Hg).
Qed.


Lemma exact_demo_sane : config_sane exact_demo.
Proof.
  unfold config_sane, exact_demo, new_suppressor.
  cbn [reset config_ atten_linear_ set_config attack release hangover_blocks
       default_config].
  split; [| split; [| split; [lia |]]].
  - split; apply XRFacts.xr_ltb_Fin_false; lra.
  - split; apply XRFacts.xr_ltb_Fin_false; lra.
  - apply (set_config_atten_exact exact_demo default_config (-80)).
    + reflexivity.
    + lra.
Qed.


End ExactInvariant.

(** ** Exact arithmetic: silence *)

Section ExactSilence.

Local Open Scope R_scope.

Implicit Types (st : EchoSuppressor xreal) (far mic : list xreal).

(** With the correlation metric a silent microphone block scores zero at
    every lag (or minus infinity, where the history holds it). *)
Lemma ncc_silent_score st far mic (lag : Z) :
  lag_metric (config_ st) = kNCC ->
  (forall x, In x mic -> x = zero) ->
  score_of st far mic lag = Fin 0 \/ score_of st far mic lag = NegInf.
Proof.
  intros Hncc Hmic.
  unfold score_of, use_amdf_of. rewrite Hncc. cbn [LagMetric_eqb].
  unfold lag_score, window_sums, for_up.
  set (body := accumulate false _ _ _ _ _).
  assert (Hacc : forall n i s,
             (fst (fst s) = Fin 0 \/ fst (fst s) = NegInf) ->
             (fst (fst (for_from n i body s)) = Fin 0 \/
              fst (fst (for_from n i body s)) = NegInf)).
  { intros n i s Hs.
    apply (for_from_inv (fun s => fst (fst s) = Fin 0 \/ fst (fst s) = NegInf));
      [| exact Hs].
    intros j [[accum fp] fa] Hj. cbn [fst] in Hj.
    unfold body, accumulate. cbn [fst].
    rewrite (rd_all_zero mic j Hmic).
    destruct (hist_at _ _ _ _ _) as [| a]; destruct Hj as [-> | ->]; cbn;
      try (right; reflexivity).
    left. f_equal. lra. }
  specialize (Hacc (Z.to_nat (block_samples_ st)) 0%Z (zero, zero, zero)
                   (or_introl eq_refl)).
  destruct (for_from _ _ body _) as [[accum fp] fa]. cbn [fst] in Hacc.
  destruct Hacc as [-> | ->]; [| right; reflexivity].
  destruct (f_sqrt _) as [| y]; [right; reflexivity | left].
  cbn. f_equal. unfold Rdiv. apply Rmult_0_l.
Qed.

(** Silence at the microphone is not declared echo when the threshold is
    not negative. *)
Lemma ncc_silent_no_echo st far mic :
  lag_metric (config_ st) = kNCC ->
  f_ltb (rho_thresh (config_ st)) zero = false ->
  (forall x, In x mic -> x = zero) ->
  echo_detected st far mic = false.
Proof.
  intros Hncc Hth Hmic.
  apply no_echo_when_scores_below. intros l _.
  destruct (ncc_silent_score st far mic l Hncc Hmic) as [-> | ->].
  - exact Hth.
  - apply XRFacts.xr_ltb_neg_inf.
Qed.

(** A release step: the distance of the gain to 1.0 shrinks by the
    factor [1 - release]. *)
Lemma release_step_exact st (g rel : R) :
  gate_gain_ st = Fin g -> g <= 1 ->
  release (config_ st) = Fin rel ->
  smooth_gain st false = Fin (1 - (1 - rel) * (1 - g)).
Proof.
  intros Hg Hle Hrel.
  unfold smooth_gain, target_gain_of. rewrite Hg, Hrel.
  replace (f_ltb one (Fin g)) with false
    by (symmetry; apply XRFacts.xr_ltb_Fin_false; exact Hle).
  cbn. f_equal. lra.
Qed.

Lemma silent_output st far mic :
  config_sane st -> gain_invariant st ->
  (forall x, In x mic -> x = zero) ->
  forall x, In x (out (snd (process_block st far mic))) -> x = zero.
Proof.
  intros Hsane Hinv Hmic x Hx.
  destruct (process_block_invariant_exact st far mic Hsane Hinv)
    as [_ [_ Hr]].
  destruct Hsane as [_ [_ [_ Hmute]]].
  destruct (in_unit_exact _ Hmute) as [a [Ea _]].
  apply (gain_in_range_exact st _ a Ea) in Hr. destruct Hr as [g [Eg _]].
  rewrite process_block_eq in Hx, Eg. cbn [snd out applied_gain] in Hx, Eg.
  apply in_map_iff in Hx. destruct Hx as [i [<- _]].
  rewrite Eg, (rd_all_zero mic _ Hmic). cbn. f_equal. lra.
Qed.

(** A run of silent blocks under the correlation metric. *)
Lemma silent_run_exact (blocks : list (list xreal * list xreal)) :
  forall st,
    lag_metric (config_ st) = kNCC ->
    f_ltb (rho_thresh (config_ st)) zero = false ->
    config_sane st -> gain_invariant st ->
    silent_blocks blocks ->
    (forall r, In r (snd (run st blocks)) ->
               estimated_lag_samples r = (-1)%Z /\
               (forall x, In x (out r) -> x = zero) /\
               gain_in_range st (applied_gain r)) /\
    gain_invariant (fst (run st blocks)) /\
    (hang_cnt_ st = 0%Z ->
     forall g rel, gate_gain_ st = Fin g -> release (config_ st) = Fin rel ->
       gate_gain_ (fst (run st blocks))
       = Fin (1 - (1 - rel) ^ length blocks * (1 - g))).
Proof.
  induction blocks as [| [far mic] rest IH];
    intros st Hncc Hth Hsane Hinv Hsil.
  - cbn [run fst snd length pow]. split; [intros r [] |].
    split; [exact Hinv |].
    intros _ g rel Hg _. rewrite Hg. f_equal. lra.
  - assert (Hmic : forall x, In x mic -> x = zero)
      by (apply (Hsil (far, mic)); left; reflexivity).
    pose proof (ncc_silent_no_echo st far mic Hncc Hth Hmic) as Hno.
    destruct (process_block_invariant_exact st far mic Hsane Hinv)
      as [Hinv1 [Hsane1 Hr1]].
    pose proof (process_block_config st far mic) as Hcfg1.
    destruct (process_block_shape st far mic) as [_ [_ [_ Hatt1]]].
    destruct (IH (fst (process_block st far mic))) as [Hrs [Hinv2 Hclosed]];
      try assumption.
    { rewrite Hcfg1. exact Hncc. }
    { rewrite Hcfg1. exact Hth. }
    { intros b Hb. apply Hsil. right. exact Hb. }
    rewrite run_cons, run_cons_fst.
    split; [| split].
    + intros r [<- | Hr].
      * split; [apply estimated_lag_sentinel, Hno |].
        split; [apply silent_output; assumption | exact Hr1].
      * destruct (Hrs r Hr) as [Hl [Ho Hg]].
        split; [exact Hl |]. split; [exact Ho |].
        unfold gain_in_range in *. rewrite Hatt1 in Hg. exact Hg.
    + exact Hinv2.
    + intros Hh g rel Hg Hrel.
      destruct Hinv as [[_ Hg1] _]. rewrite Hg in Hg1.
      apply XRFacts.xr_ltb_Fin_false in Hg1.
      assert (Hstep : gate_gain_ (fst (process_block st far mic))
                      = Fin (1 - (1 - rel) * (1 - g))).
      { rewrite process_block_eq. cbn [fst gate_gain_].
        rewrite Hno. unfold hangover. rewrite Hh. cbn [Z.ltb Z.compare snd].
        apply release_step_exact; assumption. }
      assert (Hh1 : hang_cnt_ (fst (process_block st far mic)) = 0%Z).
      { destruct (hangover_no_echo st far mic Hno) as [Hc _].
        rewrite Hc, Hh. reflexivity. }
      rewrite (Hclosed Hh1 _ rel Hstep) by (rewrite Hcfg1; exact Hrel).
      f_equal. cbn [length pow]. lra.
Qed.


End ExactSilence.

(** ** Exact arithmetic: the scores *)

Section ExactScores.

Local Open Scope R_scope.

Implicit Types (st : EchoSuppressor xreal) (far mic : list xreal)
         (f g w m : Z -> R).

Lemma fmax_exact (a b : R) : fmax (Fin a) (Fin b) = Fin (Rmax a b).
Proof.
  unfold fmax, Rmax. cbn. destruct (Rlt_dec a b), (Rle_dec a b);
    f_equal; lra.
Qed.

Lemma eps_exact : eps = Fin eps_r.
Proof. reflexivity. Qed.

Lemma eps_r_pos : 0 < eps_r.
Proof. unfold eps_r. lra. Qed.

Lemma is_real_rd (l : list xreal) (i : Z) :
  (forall x, In x l -> is_real x) -> rd l i = Fin (re (rd l i)).
Proof.
  intros Hl. unfold rd.
  destruct (nth_in_or_default (Z.to_nat i) l zero) as [Hin | ->];
    [apply Hl, Hin | reflexivity].
Qed.

Ltac fin_eq :=
  repeat match goal with
         | |- (_, _) = (_, _) => apply f_equal2
         | |- Fin _ = Fin _ => apply f_equal
         end;
  try reflexivity; try lra.

Lemma Rsum_ext f g (n : nat) :
  forall (i : Z),
    (forall j, (i <= j < i + Z.of_nat n)%Z -> f j = g j) ->
    Rsum f i n = Rsum g i n.
Proof.
  induction n as [| n IH]; intros i Hfg; cbn [Rsum]; [reflexivity |].
  rewrite (Hfg i) by lia. rewrite (IH (i + 1)%Z); [reflexivity |].
  intros j Hj. apply Hfg. lia.
Qed.

Lemma Rsum_scal (c : R) f (n : nat) :
  forall i, Rsum (fun j => c * f j) i n = c * Rsum f i n.
Proof.
  induction n as [| n IH]; intros i; cbn [Rsum]; [lra |].
  rewrite IH. lra.
Qed.

Lemma Rsum_zero (n : nat) : forall i, Rsum (fun _ => 0) i n = 0.
Proof. induction n as [| n IH]; intros i; cbn [Rsum]; [| rewrite IH]; lra. Qed.

Lemma Rsum_nonneg f (n : nat) :
  (forall j, 0 <= f j) -> forall i, 0 <= Rsum f i n.
Proof.
  intros Hf. induction n as [| n IH]; intros i; cbn [Rsum]; [lra |].
  specialize (IH (i + 1)%Z). specialize (Hf i). lra.
Qed.

(** The three accumulators of the inner loop as sums. *)
Lemma accumulate_exact (use_amdf : bool) (hist : list xreal)
    (pos block lag : Z) mic w m (n : nat) :
  forall (i : Z) (a p q : R),
    (forall j, hist_at hist pos block lag j = Fin (w j)) ->
    (forall j, rd mic j = Fin (m j)) ->
    for_from n i (accumulate use_amdf hist pos block lag mic) (Fin a, Fin p, Fin q)
    = if use_amdf
      then (Fin (a + Rsum (fun j => Rabs (w j - m j)) i n),
            Fin (p + Rsum (fun j => w j * w j) i n),
            Fin (q + Rsum (fun j => Rabs (w j)) i n))
      else (Fin (a + Rsum (fun j => w j * m j) i n),
            Fin (p + Rsum (fun j => w j * w j) i n),
            Fin q).
Proof.
  induction n as [| n IH]; intros i a p q Hw Hm; cbn [for_from Rsum].
  - destruct use_amdf; fin_eq.
  - unfold accumulate at 2. rewrite Hw, Hm.
    destruct use_amdf; cbn [f_add f_mul f_sub f_abs exact XR.lift2 XR.lift1];
      rewrite IH by assumption; fin_eq.
Qed.

Lemma square_sum_exact mic m (n : nat) :
  forall (i : Z) (a : R),
    (forall j, rd mic j = Fin (m j)) ->
    for_from n i (fun i acc => f_add acc (f_mul (rd mic i) (rd mic i))) (Fin a)
    = Fin (a + Rsum (fun j => m j * m j) i n).
Proof.
  induction n as [| n IH]; intros i a Hm; cbn [for_from Rsum].
  - fin_eq.
  - rewrite Hm. cbn [f_add f_mul exact XR.lift2].
    rewrite IH by assumption. fin_eq.
Qed.

Lemma abs_sum_exact mic m (n : nat) :
  forall (i : Z) (a : R),
    (forall j, rd mic j = Fin (m j)) ->
    for_from n i (fun i acc => f_add acc (f_abs (rd mic i))) (Fin a)
    = Fin (a + Rsum (fun j => Rabs (m j)) i n).
Proof.
  induction n as [| n IH]; intros i a Hm; cbn [for_from Rsum].
  - fin_eq.
  - rewrite Hm. cbn [f_add f_abs exact XR.lift2 XR.lift1].
    rewrite IH by assumption. fin_eq.
Qed.

Section OneCall.

Variables (st : EchoSuppressor xreal) (far mic : list xreal).

Hypothesis hist_real : forall x, In x (far_hist_ st) -> is_real x.
Hypothesis far_real : forall x, In x far -> is_real x.
Hypothesis mic_real : forall x, In x mic -> is_real x.

Lemma win_exact (lag j : Z) :
  hist_at (fst (pushed st far)) (snd (pushed st far)) (block_samples_ st) lag j
  = Fin (win st far lag j).
Proof.
  unfold win, hist_at. apply is_real_rd.
  apply pushed_forall; [reflexivity | exact hist_real | exact far_real].
Qed.

Lemma micv_exact (j : Z) : rd mic j = Fin (micv mic j).
Proof. apply is_real_rd, mic_real. Qed.

(** Microphone power: the floored sum of squares. *)
Lemma mic_power_exact :
  mic_power (block_samples_ st) mic
  = Fin (Rmax (energy (micv mic) (block_len st)) eps_r).
Proof.
  unfold mic_power, for_up.
  change zero with (Fin 0).
  rewrite (square_sum_exact mic (micv mic)) by apply micv_exact.
  rewrite eps_exact, fmax_exact. unfold energy, block_len.
  do 2 f_equal. lra.
Qed.

(** Reference power of a window: the floored sum of squares. *)
Lemma far_pow_of_exact (lag : Z) :
  far_pow_of st far mic lag
  = Fin (Rmax (energy (win st far lag) (block_len st)) eps_r).
Proof.
  unfold far_pow_of, lag_far_pow, window_sums, for_up.
  change (zero, zero, zero) with (Fin 0, Fin 0, Fin 0).
  rewrite (accumulate_exact _ _ _ _ _ _ (win st far lag) (micv mic))
    by (intros j; first [apply win_exact | apply micv_exact]).
  rewrite eps_exact.
  destruct (use_amdf_of st); rewrite fmax_exact; unfold energy, block_len;
    do 2 f_equal; lra.
Qed.

(** The score of a candidate lag is the similarity metric of the
    specification. *)
Lemma score_of_exact (lag : Z) :
  score_of st far mic lag
  = Fin (if use_amdf_of st
         then amdf_r (win st far lag) (micv mic) (block_len st)
         else ncc_r (win st far lag) (micv mic) (block_len st)).
Proof.
  unfold score_of. rewrite mic_power_exact.
  unfold lag_score, window_sums, mic_abs_sum, for_up.
  change (zero, zero, zero) with (Fin 0, Fin 0, Fin 0).
  rewrite (accumulate_exact _ _ _ _ _ _ (win st far lag) (micv mic))
    by (intros j; first [apply win_exact | apply micv_exact]).
  destruct (use_amdf_of st).
  - change zero with (Fin 0).
    rewrite (abs_sum_exact mic (micv mic)) by apply micv_exact.
    rewrite eps_exact, !fmax_exact.
    cbn [f_add f_sub f_div f_of_int one exact XR.lift2].
    rewrite fmax_exact.
    cbn [f_add f_sub f_div f_of_int one exact XR.lift2].
    unfold amdf_r, clamp_r, abs_diff, abs_sum, block_len.
    rewrite !Rplus_0_l.
    set (s := 1 - _ / _).
    cbn [f_ltb exact XR.ltb].
    destruct (Rlt_dec 1 s); [reflexivity |].
    destruct (Rlt_dec s (-1)); reflexivity.
  - rewrite eps_exact, fmax_exact.
    cbn [f_mul f_div f_sqrt exact XR.lift2 XR.lift1].
    unfold ncc_r, dot, energy, block_len. rewrite !Rplus_0_l. reflexivity.
Qed.

End OneCall.

End ExactScores.

(** ** Exact arithmetic: a perfect echo *)

Section ExactEcho.

Local Open Scope R_scope.

Implicit Types (st : EchoSuppressor xreal) (far mic : list xreal)
         (f g w m : Z -> R).

Lemma Rsum_square_combination (a b : R) f g (n : nat) :
  forall i,
    Rsum (fun j => (a * f j - b * g j) * (a * f j - b * g j)) i n
    = a * a * Rsum (fun j => f j * f j) i n
      - 2 * a * b * Rsum (fun j => f j * g j) i n
      + b * b * Rsum (fun j => g j * g j) i n.
Proof.
  induction n as [| n IH]; intros i; cbn [Rsum]; [lra |].
  rewrite IH. ring.
Qed.

Lemma energy_nonneg f (n : nat) : 0 <= energy f n.
Proof. apply Rsum_nonneg. intros j. nra. Qed.

(** Cauchy-Schwarz for the sums of a block. *)
Lemma dot_square_le f g (n : nat) :
  dot f g n * dot f g n <= energy f n * energy g n.
Proof.
  pose proof (energy_nonneg f n) as HP.
  pose proof (energy_nonneg g n) as HQ.
  unfold dot, energy in *.
  set (P := Rsum (fun i => f i * f i) 0 n) in *.
  set (Q := Rsum (fun i => g i * g i) 0 n) in *.
  set (D := Rsum (fun i => f i * g i) 0 n) in *.
  assert (Hcomb : forall a b, 0 <= a * a * P - 2 * a * b * D + b * b * Q).
  { intros a b. unfold P, Q, D.
    rewrite <- (Rsum_square_combination a b f g n 0%Z).
    apply Rsum_nonneg. intros j. apply Rle_0_sqr. }
  destruct (Req_dec P 0) as [HP0 | HPn].
  - pose proof (Hcomb (Q + 1) D) as H1. rewrite HP0 in *. nra.
  - pose proof (Hcomb D P) as H1. nra.
Qed.

Lemma clamp_r_le_1 (x : R) : clamp_r x <= 1.
Proof.
  unfold clamp_r. destruct (Rlt_dec 1 x); [lra |].
  destruct (Rlt_dec x (-1)); lra.
Qed.

Lemma amdf_r_le_1 w m (n : nat) : amdf_r w m n <= 1.
Proof. apply clamp_r_le_1. Qed.

Lemma ncc_r_le_1 w m (n : nat) : ncc_r w m n <= 1.
Proof.
  unfold ncc_r.
  pose proof (dot_square_le w m n) as Hcs.
  pose proof (energy_nonneg w n) as HP.
  pose proof (energy_nonneg m n) as HQ.
  pose proof eps_r_pos as He.
  set (P := Rmax (energy w n) eps_r).
  set (Q := Rmax (energy m n) eps_r).
  assert (HP' : energy w n <= P /\ eps_r <= P)
    by (split; [apply Rmax_l | apply Rmax_r]).
  assert (HQ' : energy m n <= Q /\ eps_r <= Q)
    by (split; [apply Rmax_l | apply Rmax_r]).
  assert (HX : 0 < P * Q) by nra.
  assert (Hs : 0 < sqrt (P * Q)) by (apply sqrt_lt_R0, HX).
  assert (Hle : dot w m n <= sqrt (P * Q)).
  { destruct (Rle_dec (dot w m n) 0) as [Hneg | Hpos]; [lra |].
    rewrite <- (sqrt_square (dot w m n)) by lra.
    apply sqrt_le_1_alt. nra. }
  apply (Rmult_le_reg_r (sqrt (P * Q))); [exact Hs |].
  unfold Rdiv. rewrite Rmult_assoc, Rinv_l, Rmult_1_r, Rmult_1_l by lra.
  exact Hle.
Qed.

(** A block equal to the window scores 1 with the absolute-difference
    metric. *)
Lemma amdf_r_copy w m (n : nat) :
  (forall j, (0 <= j < Z.of_nat n)%Z -> m j = w j) ->
  amdf_r w m n = 1.
Proof.
  intros Hcopy. unfold amdf_r, abs_diff.
  rewrite (Rsum_ext _ (fun _ => 0));
    [| intros j Hj; rewrite Hcopy by lia;
       rewrite Rminus_diag; apply Rabs_R0].
  rewrite Rsum_zero. unfold Rdiv. rewrite Rmult_0_l, Rminus_0_r.
  unfold clamp_r. destruct (Rlt_dec 1 1); [lra |].
  destruct (Rlt_dec 1 (-1)); lra.
Qed.

(** A positive multiple of the window, with both powers above the
    floor, scores 1 with the correlation metric. *)
Lemma ncc_r_scaled w m (n : nat) (s : R) :
  0 < s ->
  (forall j, (0 <= j < Z.of_nat n)%Z -> m j = s * w j) ->
  eps_r < energy w n -> eps_r < energy m n ->
  ncc_r w m n = 1.
Proof.
  intros Hs Hcopy HP HQ.
  pose proof eps_r_pos as He.
  assert (Hdot : dot w m n = s * energy w n).
  { unfold dot, energy. rewrite <- Rsum_scal. apply Rsum_ext.
    intros j Hj. rewrite Hcopy by lia. ring. }
  assert (Hen : energy m n = s * s * energy w n).
  { unfold energy. rewrite <- Rsum_scal. apply Rsum_ext.
    intros j Hj. rewrite Hcopy by lia. ring. }
  unfold ncc_r. rewrite !Rmax_left by lra. rewrite Hdot, Hen.
  replace (energy w n * (s * s * energy w n))
    with ((s * energy w n) * (s * energy w n)) by ring.
  rewrite sqrt_square by nra.
  unfold Rdiv. apply Rinv_r. nra.
Qed.

Lemma ltb_eps_Rmax (e : R) :
  f_ltb eps (Fin (Rmax e eps_r)) = true -> eps_r < e.
Proof.
  rewrite eps_exact. intros H. apply XRFacts.xr_ltb_Fin in H.
  unfold Rmax in H. destruct (Rle_dec e eps_r); lra.
Qed.


End ExactEcho.

Section ExactEchoWitness.

Local Open Scope R_scope.

Lemma exact_demo_block : block_samples_ exact_demo = 1%Z.
Proof. reflexivity. Qed.

Lemma exact_demo_well_formed :
  well_formed exact_demo /\
  holds_recent (far_hist_ exact_demo) (hist_pos_ exact_demo) [] /\
  (forall x, In x (far_hist_ exact_demo) -> is_real x).
Proof.
  destruct (new_suppressor_well_formed 100 (default_config (F:=xreal)))
    as [Hwf [Hzero [_ Hold]]].
  fold exact_demo in Hwf, Hzero, Hold.
  split; [exact Hwf |]. split; [exact Hold |].
  intros x Hx. rewrite Hzero in Hx. apply repeat_spec in Hx. subst x.
  reflexivity.
Qed.

Lemma exact_half_real : forall x, In x exact_half -> is_real x.
Proof. intros x [<- | []]. reflexivity. Qed.

Lemma exact_demo_candidate_0 : In 0%Z (candidates_of exact_demo).
Proof.
  apply in_lag_candidates; [apply lag_step_of_pos |].
  exists 0%Z. destruct exact_demo_well_formed as [[Hb [Hm _]] _].
  split; [reflexivity | split; lia].
Qed.

Lemma exact_demo_copy (i : Z) :
  (0 <= i < block_samples_ exact_demo)%Z ->
  rd exact_half i
  = Fin (1 * re (recent ([] ++ exact_half)
                        (0 + block_samples_ exact_demo - 1 - i))).
Proof.
  rewrite exact_demo_block. intros Hi.
  assert (i = 0%Z) by lia. subst i. cbn. f_equal. lra.
Qed.

Lemma exact_demo_energy :
  energy (win exact_demo exact_half 0) (block_len exact_demo) = 1 / 4 /\
  energy (micv exact_half) (block_len exact_demo) = 1 / 4.
Proof.
  destruct exact_demo_well_formed as [Hwf [Hold _]].
  assert (Hw : win exact_demo exact_half 0 0 = 1 / 2).
  { unfold win.
    rewrite (window_recent exact_demo exact_half exact_half [] 0 0 Hwf eq_refl Hold).
    - reflexivity.
    - destruct Hwf as [Hb [Hm _]]. lia.
    - rewrite exact_demo_block. lia. }
  change (block_len exact_demo) with 1%nat.
  unfold energy. cbn [Rsum]. rewrite Hw.
  split; [lra |]. unfold micv. cbn. lra.
Qed.


End ExactEchoWitness.


Section ExactSilenceWitness.

Local Open Scope R_scope.

Lemma exact_demo_invariant : gain_invariant exact_demo.
Proof.
  destruct exact_demo_sane as [_ [_ [_ [_ Hm1]]]].
  split; [split; [exact Hm1 | apply XRFacts.xr_ltb_irrefl] | apply Z.le_refl].
Qed.

Lemma exact_silence_silent : silent_blocks exact_silence.
Proof.
  intros b [<- | [<- | []]] x [<- | []]; reflexivity.
Qed.


End ExactSilenceWitness.


(** ** binary32: silence under the correlation metric

    The detection half of the silence property holds in binary32 as
    well, whatever the history holds (NaN and infinities included): the
    products with a zero sample are zeros or NaN, so every score is a
    zero or NaN and none is above a threshold that is not negative. *)

Section B32Silence.

Implicit Types (st : EchoSuppressor spec_float) (far mic : list spec_float).

Lemma b32_mul_zero (x : spec_float) (s : bool) :
  SFmul B32.prec B32.emax x (S754_zero s) = S754_nan \/
  exists s', SFmul B32.prec B32.emax x (S754_zero s) = S754_zero s'.
Proof.
  destruct x as [sx | sx | | sx mx ex]; cbn;
    solve [left; reflexivity | right; eexists; reflexivity].
Qed.

Lemma b32_add_zero (a p : spec_float) :
  a = S754_zero false \/ a = S754_nan ->
  p = S754_nan \/ (exists s, p = S754_zero s) ->
  SFadd B32.prec B32.emax a p = S754_zero false \/
  SFadd B32.prec B32.emax a p = S754_nan.
Proof.
  intros [-> | ->] [-> | [s ->]]; try (right; reflexivity).
  destruct s; left; reflexivity.
Qed.

Lemma b32_div_zero (d : spec_float) :
  SFdiv B32.prec B32.emax (S754_zero false) d = S754_nan \/
  exists s, SFdiv B32.prec B32.emax (S754_zero false) d = S754_zero s.
Proof.
  destruct d as [sd | sd | | sd md ed]; cbn;
    solve [left; reflexivity | right; eexists; reflexivity].
Qed.

Lemma b32_ltb_zero_sign (t : spec_float) (s : bool) :
  SFltb t (S754_zero s) = SFltb t (S754_zero false).
Proof. destruct t as [st | st | | st mt et]; reflexivity. Qed.

Lemma b32_ltb_nan (t : spec_float) : SFltb t S754_nan = false.
Proof. destruct t as [st | st | | st mt et]; reflexivity. Qed.

Lemma b32_rd_zero mic (i : Z) :
  (forall x, In x mic -> exists s, x = S754_zero s) ->
  exists s, rd mic i = S754_zero s.
Proof.
  intros Hmic. unfold rd.
  destruct (nth_in_or_default (Z.to_nat i) mic zero) as [Hin | ->];
    [apply Hmic, Hin | exists false; reflexivity].
Qed.

Lemma ncc_silent_score_b32 st far mic (lag : Z) :
  lag_metric (config_ st) = kNCC ->
  (forall x, In x mic -> exists s, x = S754_zero s) ->
  score_of st far mic lag = S754_nan \/
  exists s, score_of st far mic lag = S754_zero s.
Proof.
  intros Hncc Hmic.
  unfold score_of, use_amdf_of. rewrite Hncc. cbn [LagMetric_eqb].
  unfold lag_score, window_sums, for_up.
  set (body := accumulate false _ _ _ _ _).
  assert (Hacc : fst (fst (for_from (Z.to_nat (block_samples_ st)) 0 body
                                    (zero, zero, zero))) = S754_zero false \/
                 fst (fst (for_from (Z.to_nat (block_samples_ st)) 0 body
                                    (zero, zero, zero))) = S754_nan).
  { apply (for_from_inv
             (fun s => fst (fst s) = S754_zero false \/ fst (fst s) = S754_nan));
      [| left; reflexivity].
    intros j [[accum fp] fa] Hj. cbn [fst] in Hj.
    unfold body, accumulate. cbn [fst].
    destruct (b32_rd_zero mic j Hmic) as [s ->].
    apply b32_add_zero; [exact Hj | apply b32_mul_zero]. }
  destruct (for_from _ _ body _) as [[accum fp] fa]. cbn [fst] in Hacc.
  destruct Hacc as [-> | ->]; [apply b32_div_zero | left; reflexivity].
Qed.

(** X22. In binary32 too, silence at the microphone is not declared
    echo under the correlation metric when the threshold is not
    negative. *)
Lemma ncc_silent_no_echo_b32 st far mic :
  lag_metric (config_ st) = kNCC ->
  f_ltb (rho_thresh (config_ st)) zero = false ->
  (forall x, In x mic -> exists s, x = S754_zero s) ->
  echo_detected st far mic = false /\
  estimated_lag_samples (snd (process_block st far mic)) = -1.
Proof.
  intros Hncc Hth Hmic.
  assert (He : echo_detected st far mic = false).
  { apply no_echo_when_scores_below. intros l _.
    destruct (ncc_silent_score_b32 st far mic l Hncc Hmic) as [-> | [s ->]].
    - apply b32_ltb_nan.
    - change (f_ltb (rho_thresh (config_ st)) (S754_zero s))
        with (SFltb (rho_thresh (config_ st)) (S754_zero s)).
      rewrite b32_ltb_zero_sign. exact Hth. }
  split; [exact He | apply estimated_lag_sentinel, He].
Qed.

End B32Silence.

(** ** binary32: a perfect echo under the absolute-difference metric

    For the absolute-difference metric the perfect-echo property holds
    in binary32 with no rounding involved: the differences of equal
    finite samples are exactly zero, so the score of the true lag is
    exactly 1.0, and the clamp keeps every score from exceeding it. *)

Section B32Echo.

Implicit Types (st : EchoSuppressor spec_float) (far mic : list spec_float).

Lemma for_from_inv_range {St : Type} (P : St -> Prop) (body : Z -> St -> St)
    (n : nat) :
  forall (i : Z) (s : St),
    (forall j s', i <= j < i + Z.of_nat n -> P s' -> P (body j s')) ->
    P s -> P (for_from n i body s).
Proof.
  induction n as [| n IH]; intros i s Hbody Hs; cbn [for_from].
  - exact Hs.
  - apply IH.
    + intros j s' Hj. apply Hbody. lia.
    + apply Hbody; [lia | exact Hs].
Qed.

Lemma b32_shr_1_nonneg (mrs : shr_record) :
  0 <= shr_m mrs -> 0 <= shr_m (shr_1 mrs).
Proof.
  destruct mrs as [m r s]. cbn [shr_m]. intros Hm. unfold shr_1.
  destruct m as [| [p | p |] | [p | p |]]; cbn [shr_m]; lia.
Qed.

Lemma b32_iter_shr_1_nonneg (p : positive) :
  forall mrs, 0 <= shr_m mrs -> 0 <= shr_m (SpecFloat.iter_pos shr_1 p mrs).
Proof.
  induction p as [p IH | p IH |]; intros mrs Hm; cbn [SpecFloat.iter_pos].
  - apply IH, IH, b32_shr_1_nonneg, Hm.
  - apply IH, IH, Hm.
  - apply b32_shr_1_nonneg, Hm.
Qed.

Lemma b32_shr_fexp_nonneg (m e : Z) (l : location) :
  0 <= m -> 0 <= shr_m (fst (shr_fexp B32.prec B32.emax m e l)).
Proof.
  intros Hm. unfold shr_fexp, shr.
  assert (H0 : 0 <= shr_m (shr_record_of_loc m l))
    by (destruct l as [| []]; exact Hm).
  destruct (fexp B32.prec B32.emax (Zdigits2 m + e) - e) as [| p | p];
    cbn [fst]; try exact H0.
  apply b32_iter_shr_1_nonneg, H0.
Qed.

Lemma b32_round_aux_nonneg (m e : Z) (l : location) :
  0 <= m -> b32_nonneg (binary_round_aux B32.prec B32.emax false m e l).
Proof.
  intros Hm. unfold binary_round_aux.
  pose proof (b32_shr_fexp_nonneg m e l Hm) as H1.
  destruct (shr_fexp B32.prec B32.emax m e l) as [mrs1 e1]. cbn [fst] in H1.
  assert (H2 : 0 <= round_nearest_even (shr_m mrs1) (loc_of_shr_record mrs1)).
  { unfold round_nearest_even.
    destruct (loc_of_shr_record mrs1) as [| []]; try lia.
    destruct (Z.even (shr_m mrs1)); lia. }
  pose proof (b32_shr_fexp_nonneg _ e1 loc_Exact H2) as H3.
  destruct (shr_fexp B32.prec B32.emax _ e1 loc_Exact) as [mrs2 e2].
  cbn [fst] in H3.
  destruct (shr_m mrs2) as [| p | p]; try lia; [exact I |].
  destruct (e2 <=? B32.emax - B32.prec); exact I.
Qed.

Lemma b32_add_nonneg (a b : spec_float) :
  b32_nonneg a -> b32_nonneg b -> b32_nonneg (f_add a b).
Proof.
  destruct a as [[] | [] | | [] ma ea]; try contradiction;
    destruct b as [[] | [] | | [] mb eb]; try contradiction;
    intros _ _; try exact I.
  cbn [f_add binary32 SFadd cond_Zopp].
  set (ez := Z.min ea eb).
  destruct (fst (shl_align ma ea ez)) as [pa | pa |] eqn:Ea;
    destruct (fst (shl_align mb eb ez)) as [pb | pb |] eqn:Eb;
    cbn [Z.add binary_normalize]; unfold binary_round;
    match goal with
    | |- context [shl_align ?m ?e ?e'] =>
        destruct (shl_align m e e') as [mz ez']
    end; apply b32_round_aux_nonneg; lia.
Qed.

Lemma b32_abs_nonneg (x : spec_float) : b32_finite x -> b32_nonneg (f_abs x).
Proof. destruct x as [[] | [] | | [] m e]; try contradiction; intros _; exact I. Qed.

Lemma b32_fmax_eps (a : spec_float) :
  b32_nonneg a ->
  match fmax a eps with
  | S754_finite false _ _ | S754_infinity false => True
  | _ => False
  end.
Proof.
  unfold fmax.
  destruct a as [[] | [] | | [] m e]; try contradiction; intros _;
    try exact I.
  - destruct (f_ltb (S754_finite false m e) eps); exact I.
Qed.

Lemma b32_sub_self (x : spec_float) :
  b32_finite x -> f_sub x x = S754_zero false.
Proof.
  destruct x as [[] | [] | | s m e]; try contradiction; intros _;
    try reflexivity.
  cbn [f_sub binary32 SFsub]. rewrite Z.sub_diag. reflexivity.
Qed.

(** An accumulation of absolute values of numbers is not NaN and not
    negative. *)
Lemma b32_abs_sum_nonneg (g : Z -> spec_float) (n : nat) :
  forall (i : Z) (a : spec_float),
    (forall j, i <= j < i + Z.of_nat n -> b32_finite (g j)) ->
    b32_nonneg a ->
    b32_nonneg (for_from n i (fun j acc => f_add acc (f_abs (g j))) a).
Proof.
  intros i a Hg Ha.
  apply (for_from_inv_range b32_nonneg); [| exact Ha].
  intros j s' Hj Hs'. apply b32_add_nonneg; [exact Hs' |].
  apply b32_abs_nonneg, Hg, Hj.
Qed.

Lemma b32_one : one = S754_finite false 8388608 (-23).
Proof. reflexivity. Qed.

(** A value that was taken by the search and is neither below nor above
    1.0 is 1.0. *)
Lemma b32_eq_one (p x : spec_float) :
  f_ltb p x = true -> f_ltb x one = false -> f_ltb one x = false -> x = one.
Proof.
  rewrite b32_one. cbn [f_ltb binary32].
  destruct x as [[] | [] | | [] m e]; intros Hp H1 H2;
    try discriminate H1; try discriminate H2;
    try (rewrite b32_ltb_nan in Hp; discriminate Hp).
  destruct (SFltb (S754_finite false m e) (S754_finite false 8388608 (-23)))
    eqn:E1; [discriminate H1 |].
  destruct (SFltb (S754_finite false 8388608 (-23)) (S754_finite false m e))
    eqn:E2; [discriminate H2 |].
  assert (He : e = -23 /\ m = 8388608%positive).
  { destruct (Z.compare_spec e (-23)) as [He | He | He].
    - split; [exact He |]. subst e.
      destruct (Pos.compare_spec m 8388608) as [Hm | Hm | Hm]; [exact Hm | |].
      + assert (Ht : SFltb (S754_finite false m (-23))
                           (S754_finite false 8388608 (-23)) = true)
          by (apply B32Order.b32_ltb_finite_pos; right; split; [reflexivity | exact Hm]).
        rewrite Ht in E1. discriminate E1.
      + assert (Ht : SFltb (S754_finite false 8388608 (-23))
                           (S754_finite false m (-23)) = true)
          by (apply B32Order.b32_ltb_finite_pos; right; split; [reflexivity | exact Hm]).
        rewrite Ht in E2. discriminate E2.
    - assert (Ht : SFltb (S754_finite false m e)
                         (S754_finite false 8388608 (-23)) = true)
        by (apply B32Order.b32_ltb_finite_pos; left; exact He).
      rewrite Ht in E1. discriminate E1.
    - assert (Ht : SFltb (S754_finite false 8388608 (-23))
                         (S754_finite false m e) = true)
        by (apply B32Order.b32_ltb_finite_pos; left; exact He).
      rewrite Ht in E2. discriminate E2. }
  destruct He as [-> ->]. reflexivity.
Qed.

(** The clamp keeps every absolute-difference score from exceeding 1.0. *)
Lemma amdf_score_le_one_b32 st far mic (lag : Z) :
  use_amdf_of st = true ->
  f_ltb one (score_of st far mic lag) = false.
Proof.
  intros Hamdf. unfold score_of, lag_score. rewrite Hamdf.
  destruct (window_sums true _ _ _ _ _) as [[accum fp] fa].
  cbv zeta.
  destruct (f_ltb one (f_sub one _)) eqn:E1; [reflexivity |].
  destruct (f_ltb (f_sub one _) (f_of_int (-1))) eqn:E2;
    [reflexivity | exact E1].
Qed.

(** A block that is an exact copy of the window of lag L scores 1.0. *)
Lemma amdf_copy_score_b32 st far mic (L : Z) :
  use_amdf_of st = true ->
  (forall i, 0 <= i < block_samples_ st ->
     rd mic i = hist_at (fst (pushed st far)) (snd (pushed st far))
                        (block_samples_ st) L i /\
     b32_finite (rd mic i)) ->
  score_of st far mic L = one.
Proof.
  intros Hamdf Hcopy.
  unfold score_of, lag_score, mic_abs_sum, window_sums, for_up.
  rewrite Hamdf.
  set (body := accumulate true _ _ _ _ _).
  assert (Hsum : fst (fst (for_from (Z.to_nat (block_samples_ st)) 0 body
                                    (zero, zero, zero))) = S754_zero false /\
                 b32_nonneg (snd (for_from (Z.to_nat (block_samples_ st)) 0 body
                                           (zero, zero, zero)))).
  { apply (for_from_inv_range
             (fun s => fst (fst s) = S754_zero false /\ b32_nonneg (snd s)));
      [| split; [reflexivity | exact I]].
    intros j [[accum fp] fa] Hj [Hacc Hfa]. cbn [fst snd] in Hacc, Hfa.
    destruct (Hcopy j ltac:(lia)) as [Hc Hfin].
    unfold body, accumulate. rewrite <- Hc. cbn [fst snd].
    split.
    - rewrite Hacc, (b32_sub_self _ Hfin). reflexivity.
    - apply b32_add_nonneg; [exact Hfa | apply b32_abs_nonneg, Hfin]. }
  assert (Hmic : b32_nonneg
                   (for_from (Z.to_nat (block_samples_ st)) 0
                      (fun i acc => f_add acc (f_abs (rd mic i))) zero)).
  { apply b32_abs_sum_nonneg; [| exact I].
    intros j Hj. apply Hcopy. lia. }
  destruct (for_from _ _ body _) as [[accum fp] fa].
  cbn [fst snd] in Hsum. destruct Hsum as [-> Hfa].
  pose proof (b32_fmax_eps _ Hmic) as Hmabs.
  set (mic_abs := fmax _ eps) in *.
  assert (Hden : b32_nonneg (f_add mic_abs fa)).
  { apply b32_add_nonneg; [| exact Hfa].
    destruct mic_abs as [[] | [] | | [] m e]; try contradiction; exact I. }
  pose proof (b32_fmax_eps _ Hden) as Hdenom.
  destruct (fmax (f_add mic_abs fa) eps) as [[] | [] | | [] m e];
    try contradiction; reflexivity.
Qed.



End B32Echo.


(** ** The general properties at work on binary32 *)

Lemma echo_decision_rule_witness :
  ArithOrder spec_float /\
  echo_detected b32_demo [b32_half] [b32_half] = true /\
  estimated_lag_samples (snd (process_block b32_demo [b32_half] [b32_half])) = 0.
Proof.
  split; [exact binary32_order |].
  destruct (echo_decision_rule b32_demo [b32_half] [b32_half])
    as [_ [Hiff [Hdecl _]]].
  assert (Hd : f_ltb (rho_thresh (config_ b32_demo))
                 (best_score (search_of b32_demo [b32_half] [b32_half])) = true /\
               f_ltb (mic_power (block_samples_ b32_demo) [b32_half])
                 (f_mul (power_ratio_alpha (config_ b32_demo))
                    (far_pow_of b32_demo [b32_half] [b32_half]
                       (best_lag (search_of b32_demo [b32_half] [b32_half]))))
               = true)
    by (split; vm_compute; reflexivity).
  split; [apply Hiff, Hd |].
  destruct (Hdecl Hd) as [Hlag _]. rewrite Hlag. vm_compute. reflexivity.
Defined.

Lemma lag_search_tie_break_witness :
  ArithOrder spec_float /\
  (let st := fst (process_block b32_demo [b32_half] [b32_half]) in
   score_of st [b32_half] [b32_half] 0 = score_of st [b32_half] [b32_half] 1 /\
   best_lag (search_of st [b32_half] [b32_half]) <> 1).
Proof.
  split; [exact binary32_order |].
  cbv zeta. split; [vm_compute; reflexivity |].
  destruct (lag_search_tie_break
              (fst (process_block b32_demo [b32_half] [b32_half]))
              [b32_half] [b32_half])
    as [_ [_ [_ [_ [_ [Htie _]]]]]].
  apply (Htie 0 1).
  - vm_compute. left. reflexivity.
  - vm_compute. right. left. reflexivity.
  - lia.
  - vm_compute. reflexivity.
Defined.

Lemma estimated_lag_range_witness :
  ArithOrder spec_float /\
  (let lag := estimated_lag_samples
                (snd (process_block b32_demo [b32_half] [b32_half])) in
   lag = -1 \/
   exists k, 0 <= k /\ lag = k * lag_step_of (fs_ b32_demo) /\
             0 <= lag <= max_lag_samples_ b32_demo).
Proof.
  split; [exact binary32_order |].
  exact (estimated_lag_range b32_demo [b32_half] [b32_half]).
Defined.

Lemma hangover_persistence_witness :
  ArithOrder spec_float /\
  estimated_lag_samples (snd (process_block b32_hang1 [b32_half] [b32_half]))
    <> -1 /\
  map (@suppressed spec_float)
      (snd (run (fst (process_block b32_hang1 [b32_half] [b32_half]))
                [([b32_zero], [b32_zero]); ([b32_zero], [b32_zero])]))
  = [true; false].
Proof.
  split; [exact binary32_order |].
  assert (H0 : estimated_lag_samples
                 (snd (process_block b32_hang1 [b32_half] [b32_half])) <> -1)
    by (vm_compute; discriminate).
  split; [exact H0 |].
  pose proof (hangover_persistence b32_hang1 [b32_half] [b32_half]
                [([b32_zero], [b32_zero]); ([b32_zero], [b32_zero])] H0) as Hp.
  cbv zeta in Hp.
  remember (snd (run (fst (process_block b32_hang1 [b32_half] [b32_half]))
                     [([b32_zero], [b32_zero]); ([b32_zero], [b32_zero])]))
    as rs eqn:Ers.
  assert (Hnone : forall r, In r rs -> estimated_lag_samples r = -1).
  { rewrite Ers. vm_compute. intros r [<- | [<- | []]]; reflexivity. }
  destruct (Hp Hnone) as [_ Hk].
  assert (Hlen : length rs = 2%nat) by (rewrite Ers; vm_compute; reflexivity).
  destruct rs as [| r1 [| r2 [| r3 rs]]]; try discriminate Hlen.
  cbn [map].
  rewrite (Hk 0%nat r1 eq_refl), (Hk 1%nat r2 eq_refl).
  reflexivity.
Defined.

Lemma history_holds_recent_witness :
  (forall b, In b b32_echo_then_silence ->
             Z.of_nat (length (fst b)) = block_samples_ b32_demo) /\
  (let st := fst (run b32_demo b32_echo_then_silence) in
   let cap := max_lag_samples_ b32_demo + 4 * block_samples_ b32_demo in
   hist_pos_ st = (3 * block_samples_ b32_demo) mod cap /\
   rd (far_hist_ st) ((hist_pos_ st - 1 - 2) mod cap)
   = recent (far_stream b32_echo_then_silence) 2).
Proof.
  assert (Hlen : forall b, In b b32_echo_then_silence ->
                           Z.of_nat (length (fst b)) = block_samples_ b32_demo)
    by (intros b [<- | [<- | [<- | []]]]; reflexivity).
  split; [exact Hlen |].
  destruct (history_holds_recent 100 default_config b32_echo_then_silence Hlen)
    as [_ [_ [_ [_ [Hpos Hrec]]]]].
  split; [exact Hpos |].
  apply Hrec. vm_compute. split; [discriminate | reflexivity].
Defined.


(** The original form of C3 fails: with a hangover length of one block,
    the first block without detection after a detected block is still
    suppressed, and the release comes with the second. *)
Lemma hangover_counterexample :
  hangover_blocks (config_ b32_hang1) = 1 /\
  map (fun r => (estimated_lag_samples r, suppressed r))
      (snd (run b32_hang1 b32_echo_then_silence))
  = [(0, true); (-1, true); (-1, false)].
Proof. split; vm_compute; reflexivity. Qed.

(** * The helpers and the front ends *)

(** ** [reset] *)

Section ResetProperties.

Context {F : Type} {A : Arith F}.

Lemma push_block_length (block : Z) (far hist : list F) (pos : Z) :
  length (fst (push_block block far hist pos)) = length hist.
Proof.
  unfold push_block, for_up.
  apply (for_from_inv (fun hp : list F * Z => length (fst hp) = length hist)).
  - intros i [h p] Hh. cbn [push_sample fst] in *. now rewrite length_upd.
  - reflexivity.
Qed.

Lemma map_const_length {X Y : Type} (c : Y) (l1 l2 : list X) :
  length l1 = length l2 ->
  map (fun _ => c) l1 = map (fun _ => c) l2.
Proof.
  revert l2. induction l1 as [| x l1 IH]; intros [| y l2] H; try discriminate H.
  - reflexivity.
  - cbn. f_equal. apply IH. now injection H.
Qed.

(** [reset] undoes whatever a call of [process_block] changed. *)
Lemma reset_process_block (st : EchoSuppressor F) (far mic : list F) :
  reset (fst (process_block st far mic)) = reset st.
Proof.
  pose proof (push_block_length (block_samples_ st) far (far_hist_ st)
                (hist_pos_ st)) as Hlen.
  unfold process_block.
  destruct (push_block (block_samples_ st) far (far_hist_ st) (hist_pos_ st))
    as [hist pos].
  destruct (hangover _ _ _) as [hang suppress].
  cbn [fst] in *. unfold reset. cbn.
  f_equal. now apply map_const_length.
Qed.

Lemma reset_run (blocks : list (list F * list F)) (st : EchoSuppressor F) :
  reset (fst (run st blocks)) = reset st.
Proof.
  revert st. induction blocks as [| [far mic] rest IH]; intros st.
  - reflexivity.
  - cbn [run].
    pose proof (reset_process_block st far mic) as H1.
    destruct (process_block st far mic) as [st1 r]. cbn [fst] in H1.
    pose proof (IH st1) as H2.
    destruct (run st1 rest) as [st2 rs]. cbn [fst] in *.
    now rewrite H2.
Qed.

Lemma reset_idempotent (st : EchoSuppressor F) : reset (reset st) = reset st.
Proof.
  unfold reset. cbn. f_equal. rewrite map_map. reflexivity.
Qed.

(** X1. However many blocks a suppressor has processed, [reset] brings
    it back to the state the constructor left it in: zeroed history,
    cursor 0, gain 1, no hangover, and the configuration and the derived
    sizes and muted gain unchanged. *)
Theorem reset_restores_construction (sample_rate : Z)
    (config : EchoSuppressorConfig F) (blocks : list (list F * list F)) :
  reset (fst (run (new_suppressor sample_rate config) blocks))
  = new_suppressor sample_rate config.
Proof.
  rewrite reset_run. unfold new_suppressor. apply reset_idempotent.
Qed.

End ResetProperties.

(** ** The names of the lag metrics *)

Section MetricNames.

Lemma parse_metric_name (metric : LagMetric) :
  parse_metric (LagMetricName metric) = Some metric.
Proof. destruct metric; reflexivity. Qed.

(** X2. [parse_metric] reads back the names [LagMetricName] prints, and
    accepts a string exactly when its lower-cased form is one of these
    names. *)
Theorem parse_metric_round_trip :
  (forall metric, parse_metric (LagMetricName metric) = Some metric) /\
  (forall value metric,
      parse_metric value = Some metric <->
      lowered value = LagMetricName metric).
Proof.
  split; [exact parse_metric_name |].
  intros value metric. unfold parse_metric. split.
  - destruct (String.eqb (lowered value) "ncc") eqn:E1.
    + intros H. injection H as <-. now apply String.eqb_eq.
    + destruct (String.eqb (lowered value) "amdf") eqn:E2.
      * intros H. injection H as <-. now apply String.eqb_eq.
      * discriminate.
  - intros ->. destruct metric; reflexivity.
Qed.

End MetricNames.

(** ** The clamp of the output samples in binary32 *)

Section ClampB32.

Lemma b32_ltb_asym (x y : spec_float) :
  SFltb x y = true -> SFltb y x = false.
Proof.
  intros H. destruct (SFltb y x) eqn:E; [| reflexivity].
  pose proof (B32Order.b32_ltb_trans _ _ _ H E) as H1.
  now rewrite B32Order.b32_ltb_irrefl in H1.
Qed.

(** X3. Whatever binary32 value the suppressor hands back, NaN and the
    infinities included, the clamp of the front ends yields a number
    that is neither below -1 nor above 1; NaN becomes 1. *)
Theorem clamp_sample_b32 (v : spec_float) :
  clamp_sample v <> S754_nan /\
  f_ltb (clamp_sample v) (f_of_int (-1)) = false /\
  f_ltb one (clamp_sample v) = false /\
  clamp_sample S754_nan = one.
Proof.
  unfold clamp_sample, fmax, fmin.
  change (@f_ltb spec_float binary32) with SFltb.
  destruct (SFltb v one) eqn:E1.
  - destruct (SFltb (f_of_int (-1)) v) eqn:E2.
    + repeat split.
      * intros ->. vm_compute in E1. discriminate E1.
      * now apply b32_ltb_asym.
      * now apply b32_ltb_asym.
    + repeat split; try reflexivity. vm_compute. discriminate.
  - assert (H : SFltb (f_of_int (-1)) one = true) by reflexivity.
    rewrite H. repeat split; try reflexivity. vm_compute. discriminate.
Qed.

End ClampB32.

(** ** The 16-bit output samples in exact arithmetic *)

Section ExactSamples.

Lemma Int_part_bounds (r : R) :
  (IZR (Int_part r) <= r < IZR (Int_part r) + 1)%R.
Proof.
  pose proof (base_Int_part r) as [H1 H2]. lra.
Qed.

Lemma Int_part_ge (r : R) (a : Z) : (IZR a <= r)%R -> a <= Int_part r.
Proof.
  intros H. pose proof (Int_part_bounds r) as [_ H2].
  assert (H3 : (IZR a < IZR (Int_part r + 1))%R) by (rewrite plus_IZR; lra).
  apply lt_IZR in H3. lia.
Qed.

Lemma Int_part_le (r : R) (b : Z) : (r <= IZR b)%R -> Int_part r <= b.
Proof.
  intros H. pose proof (Int_part_bounds r) as [H1 _].
  apply le_IZR. lra.
Qed.

Lemma Int_part_lt (r : R) (b : Z) : (r < IZR b)%R -> Int_part r < b.
Proof.
  intros H. pose proof (Int_part_bounds r) as [H1 _].
  apply lt_IZR. lra.
Qed.

(** Rounding to the nearest integer stays between integer bounds. *)
Lemma rint_bounds (r : R) (a b : Z) :
  (IZR a <= r <= IZR b)%R -> a <= XRIO.rint r <= b.
Proof.
  intros [Ha Hb]. unfold XRIO.rint.
  pose proof (Int_part_ge r a Ha) as H1.
  pose proof (Int_part_le r b Hb) as H2.
  pose proof (Int_part_bounds r) as [H3 H4].
  assert (Hup : (IZR (Int_part r) < r)%R -> Int_part r + 1 <= b).
  { intros Hlt. assert (Int_part r < b); [| lia].
    apply lt_IZR. lra. }
  destruct (Rlt_dec (r - IZR (Int_part r)) (1 / 2)); [lia |].
  destruct (Rlt_dec (1 / 2) (r - IZR (Int_part r))).
  - split; [lia |]. apply Hup. lra.
  - destruct (Z.even (Int_part r)); [lia |].
    split; [lia |]. apply Hup. lra.
Qed.

Lemma clamp_sample_exact (v : xreal) :
  exists r : R, clamp_sample v = Fin r /\ (-1 <= r <= 1)%R.
Proof.
  unfold clamp_sample, fmax, fmin, one. cbn [f_ltb f_of_int exact].
  destruct v as [| r]; cbn [XR.ltb].
  - exists (-1)%R. split; [reflexivity | lra].
  - destruct (Rlt_dec r (IZR 1)) as [H1 | H1]; cbn [XR.ltb].
    + destruct (Rlt_dec (IZR (-1)) r) as [H2 | H2].
      * exists r. split; [reflexivity | lra].
      * exists (-1)%R. split; [reflexivity | lra].
    + destruct (Rlt_dec (IZR (-1)) (IZR 1)) as [H2 | H2].
      * exists 1%R. split; [reflexivity | lra].
      * exfalso. apply H2. lra.
Qed.

(** X4. In exact arithmetic the 16-bit sample written for any output
    value, minus infinity included, lies in [-32767, 32767]: the
    conversion never wraps around and never produces -32768. *)
Theorem float_to_sample_range (v : xreal) :
  -32767 <= float_to_sample v <= 32767.
Proof.
  unfold float_to_sample.
  destruct (clamp_sample_exact v) as [r [-> Hr]].
  unfold kScale. cbn [f_mul f_of_int f_lrint exact exact_io XR.lift2 XRIO.lrint].
  assert (H : -32767 <= XRIO.rint (r * IZR 32767) <= 32767).
  { apply rint_bounds. lra. }
  unfold to_int16.
  rewrite Z.mod_small by lia. lia.
Qed.

End ExactSamples.

(** ** 16-bit samples through binary32 at unity gain *)

Section UnityGain.

Lemma all_in_spec (P : Z -> bool) (depth : nat) (lo : Z) :
  all_in depth lo P = true ->
  forall x, lo <= x < lo + 2 ^ Z.of_nat depth -> P x = true.
Proof.
  revert lo. induction depth as [| d IH]; intros lo H x Hx.
  - cbn in *. assert (x = lo) by lia. now subst.
  - cbn [all_in] in H. apply andb_prop in H as [H1 H2].
    rewrite Nat2Z.inj_succ, Z.pow_succ_r in Hx by lia.
    destruct (Z.lt_ge_cases x (lo + 2 ^ Z.of_nat d)).
    + apply (IH lo H1). lia.
    + apply (IH _ H2). lia.
Qed.

(** X5. At unity gain a 16-bit sample that goes through the binary32
    domain and back ([x / 32768], then [lrintf] of the product with
    32767) moves by at most one step and never away from zero; samples
    up to 8192 in magnitude come back unchanged, full scale does not. *)
Theorem unity_round_trip_b32 (x : Z) :
  -32768 <= x <= 32767 ->
  Z.abs (unity_round_trip x - x) <= 1 /\
  Z.abs (unity_round_trip x) <= Z.abs x /\
  (Z.abs x <= 8192 -> unity_round_trip x = x) /\
  unity_round_trip 32767 = 32766.
Proof.
  intros Hx.
  assert (H : all_in 16 (-32768)
                (fun x => let y := unity_round_trip x in
                          (Z.abs (y - x) <=? 1) && (Z.abs y <=? Z.abs x)
                          && ((y =? x) || (8192 <? Z.abs x)))
              = true) by (vm_compute; reflexivity).
  pose proof (all_in_spec _ _ _ H x) as Hp. cbv beta zeta in Hp.
  assert (Hr : -32768 <= x < -32768 + 2 ^ Z.of_nat 16) by (cbn; lia).
  specialize (Hp Hr).
  apply andb_prop in Hp as [Hp H3]. apply andb_prop in Hp as [H1 H2].
  apply Z.leb_le in H1, H2.
  split; [exact H1 |]. split; [exact H2 |]. split.
  - intros Hs. apply orb_prop in H3 as [H3 | H3].
    + now apply Z.eqb_eq.
    + apply Z.ltb_lt in H3. lia.
  - vm_compute. reflexivity.
Qed.

Lemma unity_round_trip_b32_witness :
  Z.abs (unity_round_trip 12345 - 12345) <= 1 /\
  Z.abs (unity_round_trip 12345) <= Z.abs 12345 /\
  (Z.abs 12345 <= 8192 -> unity_round_trip 12345 = 12345) /\
  unity_round_trip 32767 = 32766.
Proof. apply (unity_round_trip_b32 12345). lia. Defined.

End UnityGain.

(** ** The gain meter *)

Section Meter.

Lemma lit_exact (n d : Z) : lit n d = Fin (IZR n / IZR d).
Proof. reflexivity. Qed.

(** X6. In exact arithmetic the meter is monotone: a higher gain never
    shows fewer stars, and the number of stars is between zero and
    four whatever the gain (also outside [0, 1]). *)
Theorem gain_meter_monotone (a b : R) :
  (a <= b)%R ->
  0 <= stars (GainMeterString (Fin a))
  /\ stars (GainMeterString (Fin a)) <= stars (GainMeterString (Fin b))
  /\ stars (GainMeterString (Fin b)) <= 4.
Proof.
  intros Hab. unfold GainMeterString, fclamp, zero, one.
  rewrite !lit_exact.
  cbn [f_ltb f_leb f_of_int exact exact_io XR.ltb XRIO.leb].
  repeat match goal with
  | |- context [Rlt_dec ?x ?y] => destruct (Rlt_dec x y); cbn [XR.ltb XRIO.leb]
  | |- context [Rle_dec ?x ?y] => destruct (Rle_dec x y); cbn [XR.ltb XRIO.leb]
  end;
  try (exfalso; lra);
  vm_compute; repeat split; intros H; discriminate H.
Qed.

Lemma gain_meter_monotone_witness :
  0 <= stars (GainMeterString (Fin (3 / 10)))
  /\ stars (GainMeterString (Fin (3 / 10))) <= stars (GainMeterString (Fin (6 / 10)))
  /\ stars (GainMeterString (Fin (6 / 10))) <= 4.
Proof. apply (gain_meter_monotone (3 / 10) (6 / 10)). lra. Defined.

End Meter.

(** ** echoback.cc: queues and the capture delay line *)

Section Queues.

Import Echoback.

(** A loop over the indices of a list is a fold over the list. *)
Lemma for_from_fold {St : Type} (f : St -> Z -> St) (pre l : list Z) (s : St) :
  for_from (length l) (size pre)
    (fun i s => f s (rd16 (pre ++ l) i)) s
  = fold_left f l s.
Proof.
  revert pre s. induction l as [| x l IH]; intros pre s.
  - reflexivity.
  - cbn [length for_from fold_left].
    assert (Hx : rd16 (pre ++ x :: l) (size pre) = x).
    { unfold rd16, size. rewrite Nat2Z.id, app_nth2, Nat.sub_diag by lia.
      reflexivity. }
    rewrite Hx.
    specialize (IH (pre ++ [x]) (f s x)).
    unfold size in *. rewrite length_app in IH. cbn [length] in IH.
    rewrite <- app_assoc in IH. cbn [app] in IH.
    replace (Z.of_nat (length pre) + 1) with (Z.of_nat (length pre + 1)) by lia.
    exact IH.
Qed.

Lemma for_up_fold {St : Type} (f : St -> Z -> St) (l : list Z) (s : St) :
  for_up (size l) (fun i s => f s (rd16 l i)) s = fold_left f l s.
Proof.
  unfold for_up, size. rewrite Nat2Z.id.
  exact (for_from_fold f [] l s).
Qed.

Lemma nth_hd_skipn {X : Type} (n : nat) (l : list X) (d : X) :
  nth n l d = hd d (skipn n l).
Proof.
  revert l. induction n as [| n IH]; intros [| y l]; try reflexivity.
  cbn [nth skipn]. apply IH.
Qed.

(** One step of a delay line of [d] samples: the line after the step and
    the sample that leaves it. *)
Lemma delay_step (d : nat) (fed : list Z) (x : Z) :
  let dl := skipn (length fed - d) fed ++ [x] in
  (size dl <=? Z.of_nat d) = (length fed <? d)%nat /\
  (Z.of_nat d <? size dl) = negb (length fed <? d)%nat /\
  ((length fed < d)%nat ->
     dl = skipn (length (fed ++ [x]) - d) (fed ++ [x]) /\
     nth (length fed) (repeat 0 d ++ fed ++ [x]) 0 = 0) /\
  ((d <= length fed)%nat ->
     tl dl = skipn (length (fed ++ [x]) - d) (fed ++ [x]) /\
     nth (length fed) (repeat 0 d ++ fed ++ [x]) 0 = hd 0 dl).
Proof.
  intros dl. subst dl. unfold size.
  rewrite !length_app, length_skipn. cbn [length].
  split; [| split; [| split]].
  - destruct (Nat.ltb_spec (length fed) d); [apply Z.leb_le | apply Z.leb_gt]; lia.
  - destruct (Nat.ltb_spec (length fed) d); cbn [negb];
      [apply Z.ltb_ge | apply Z.ltb_lt]; lia.
  - intros Hlt. split.
    + replace (length fed - d)%nat with 0%nat by lia.
      replace (length fed + 1 - d)%nat with 0%nat by lia. reflexivity.
    + rewrite app_nth1 by (rewrite repeat_length; lia).
      apply nth_repeat.
  - intros Hge. split.
    + destruct d as [| d'].
      * rewrite !Nat.sub_0_r, skipn_all.
        rewrite skipn_all2 by (rewrite length_app; cbn [length]; lia).
        reflexivity.
      * replace (length fed + 1 - S d')%nat with (S (length fed - S d')) by lia.
        rewrite skipn_app.
        replace (S (length fed - S d') - length fed)%nat with 0%nat by lia.
        change (skipn 0 [x]) with [x].
        destruct (skipn (length fed - S d') fed) as [| y t] eqn:E.
        -- assert (Hl : length (skipn (length fed - S d') fed) = 0%nat)
             by now rewrite E.
           rewrite length_skipn in Hl. lia.
        -- cbn [app tl].
           assert (E' : skipn (S (length fed - S d')) fed = t).
           { change (S (length fed - S d')) with (1 + (length fed - S d'))%nat.
             rewrite <- skipn_skipn, E. reflexivity. }
           now rewrite E'.
    + rewrite app_nth2 by (rewrite repeat_length; lia).
      rewrite repeat_length.
      destruct d as [| d'].
      * rewrite !Nat.sub_0_r, skipn_all.
        rewrite (app_nth2 fed [x] 0) by lia.
        rewrite Nat.sub_diag. reflexivity.
      * destruct (skipn (length fed - S d') fed) as [| y t] eqn:E.
        -- assert (Hl : length (skipn (length fed - S d') fed) = 0%nat)
             by now rewrite E.
           rewrite length_skipn in Hl. lia.
        -- change (hd 0 ((y :: t) ++ [x])) with y.
           assert (Hlt : (length fed - S d' < length fed)%nat) by lia.
           rewrite (app_nth1 fed [x] 0 Hlt).
           now rewrite nth_hd_skipn, E.
Qed.

Lemma firstn_snoc (l : list Z) (n : nat) :
  (n < length l)%nat -> firstn (S n) l = firstn n l ++ [nth n l 0].
Proof.
  revert n. induction l as [| y l IH]; intros n Hn; [cbn in Hn; lia |].
  destruct n as [| n]; [reflexivity |].
  cbn [length] in Hn. cbn [firstn nth app]. f_equal. rewrite <- IH by lia.
  reflexivity.
Qed.

(** The stream delayed, one more sample fed. *)
Lemma delayed_snoc (d : nat) (fed : list Z) (x : Z) :
  delayed d (fed ++ [x])
  = delayed d fed ++ [nth (length fed) (repeat 0 d ++ fed ++ [x]) 0].
Proof.
  unfold delayed. rewrite length_app. cbn [length].
  rewrite Nat.add_1_r, firstn_snoc
    by (rewrite !length_app, repeat_length; cbn [length]; lia).
  f_equal.
  rewrite app_assoc, firstn_app.
  replace (length fed - length (repeat 0%Z d ++ fed))%nat with 0%nat
    by (rewrite length_app; lia).
  cbn [firstn]. now rewrite app_nil_r.
Qed.


Lemma upd_nat_split {X : Type} (l : list X) (k : nat) (x : X) :
  (k < length l)%nat ->
  upd_nat l k x = firstn k l ++ x :: skipn (S k) l.
Proof.
  revert k. induction l as [| y l IH]; intros k Hk; [cbn in Hk; lia |].
  destruct k as [| k]; [reflexivity |].
  cbn [length] in Hk. cbn [upd_nat firstn skipn app]. f_equal. apply IH. lia.
Qed.

Lemma upd_split {X : Type} (l : list X) (k : nat) (x : X) :
  (k < length l)%nat ->
  upd l (Z.of_nat k) x = firstn k l ++ x :: skipn (S k) l.
Proof.
  intros Hk. unfold upd.
  destruct (Z.ltb_spec (Z.of_nat k) 0); [lia |].
  rewrite Nat2Z.id. now apply upd_nat_split.
Qed.

Lemma firstn_S_hd (q : list Z) (m : nat) :
  (m < length q)%nat ->
  firstn (S m) q = firstn m q ++ [hd 0 (skipn m q)].
Proof.
  intros H. rewrite <- nth_hd_skipn. now apply firstn_snoc.
Qed.

Lemma tl_skipn {X : Type} (m : nat) (q : list X) : tl (skipn m q) = skipn (S m) q.
Proof.
  revert q. induction m as [| m IH]; intros [| y q]; try reflexivity.
  cbn [skipn]. rewrite IH. reflexivity.
Qed.

(** The loop of [pop_samples], [m] samples from the queue [q0] in. *)
Lemma pop_loop (q0 dst0 : list Z) (n : nat) (m : nat) :
  (m + n <= length q0)%nat -> (m + n <= length dst0)%nat ->
  for_from n (Z.of_nat m)
    (fun i '(q, dst) => (tl q, upd dst i (hd 0 q)))
    (skipn m q0, firstn m q0 ++ skipn m dst0)
  = (skipn (m + n) q0, firstn (m + n) q0 ++ skipn (m + n) dst0).
Proof.
  revert m. induction n as [| n IH]; intros m Hq Hd.
  - now rewrite Nat.add_0_r.
  - cbn [for_from].
    assert (Hlen : length (firstn m q0) = m) by (rewrite length_firstn; lia).
    rewrite upd_split by (rewrite length_app, Hlen, length_skipn; lia).
    rewrite firstn_app, Hlen, Nat.sub_diag, firstn_all2 by lia.
    cbn [firstn]. rewrite app_nil_r.
    rewrite skipn_app, Hlen.
    rewrite (skipn_all2 (firstn m q0)) by lia.
    replace (S m - m)%nat with 1%nat by lia.
    rewrite skipn_skipn. cbn [app].
    rewrite tl_skipn.
    replace (firstn m q0 ++ hd 0 (skipn m q0) :: skipn (1 + m) dst0)
      with (firstn (S m) q0 ++ skipn (S m) dst0)
      by (rewrite firstn_S_hd by lia; now rewrite <- app_assoc).
    replace (Z.of_nat m + 1) with (Z.of_nat (S m)) by lia.
    rewrite IH by lia.
    now replace (S m + n)%nat with (m + S n)%nat by lia.
Qed.

(** X7. [pop_samples] moves [min(size, n)] samples from the front of the
    queue to the front of the destination, in order; nothing is lost:
    what was moved followed by what is left is the old queue, and the
    rest of the destination is untouched. *)
Theorem pop_samples_spec (q dst : list Z) (n : Z) :
  0 <= n <= Echoback.size dst ->
  let m := Nat.min (length q) (Z.to_nat n) in
  pop_samples q dst n = (skipn m q, firstn m q ++ skipn m dst, Z.of_nat m).
Proof.
  intros Hn m. unfold pop_samples, Echoback.size in *.
  assert (Hm : (if Z.of_nat (length q) <? n then Z.of_nat (length q) else n)
               = Z.of_nat m).
  { destruct (Z.ltb_spec (Z.of_nat (length q)) n); lia. }
  rewrite Hm. unfold for_up. rewrite Nat2Z.id.
  pose proof (pop_loop q dst m 0) as H. cbn [Nat.add skipn firstn app] in H.
  change (Z.of_nat 0) with 0 in H.
  rewrite H by lia. reflexivity.
Qed.

Lemma push_block_spec (q src : list Z) :
  Echoback.push_block q src (Echoback.size src) = q ++ src.
Proof.
  unfold Echoback.push_block.
  rewrite (for_up_fold (fun q x => q ++ [x]) src q).
  revert q. induction src as [| x src IH]; intros q.
  - now rewrite app_nil_r.
  - cbn [fold_left]. rewrite IH, <- app_assoc. reflexivity.
Qed.

Section Capture.

Context {F : Type} {A : Arith F}.

Lemma set_capture_again (s : State F) (r1 d1 r2 d2 : list Z) :
  set_capture (set_capture s r1 d1) r2 d2 = set_capture s r2 d2.
Proof. reflexivity. Qed.

Lemma enqueue_capture_fold (s : State F) (d : nat) (samples : list Z) :
  delay_line s = [] ->
  delay_target_samples s = Z.of_nat d ->
  fold_left enqueue_capture_sample samples s
  = set_capture s (rec_dev s ++ delayed d samples) (lastn d samples).
Proof.
  intros Hdl Hd. induction samples as [| x fed IH] using rev_ind.
  - destruct s. cbn in *. subst. unfold delayed, lastn, set_capture. cbn.
    now rewrite app_nil_r.
  - rewrite fold_left_app, IH. cbn [fold_left].
    unfold enqueue_capture_sample.
    cbn [delay_line delay_target_samples rec_dev set_capture].
    rewrite Hd. unfold lastn at 1 2 3.
    pose proof (delay_step d fed x) as [H1 [_ [H3 H4]]]. cbv zeta in *.
    rewrite H1, delayed_snoc.
    destruct (Nat.ltb_spec (length fed) d) as [Hlt | Hge].
    + destruct (H3 Hlt) as [E1 E2]. rewrite E2.
      unfold set_capture. cbn. rewrite <- app_assoc.
      unfold lastn. now rewrite <- E1.
    + destruct (H4 Hge) as [E1 E2]. rewrite E2.
      unfold set_capture. cbn. rewrite <- app_assoc.
      unfold lastn. now rewrite <- E1.
Qed.

(** X8. The capture delay line is a pure delay: samples fed one by one
    through [enqueue_capture_sample] reach [rec_dev] in order,
    [delay_target_samples] places late, with zeros in front; the line
    keeps the samples still to come, and nothing else of the state
    changes. *)
Theorem capture_delay_line (s : State F) (samples : list Z) :
  delay_line s = [] ->
  0 <= delay_target_samples s ->
  let d := Z.to_nat (delay_target_samples s) in
  let s' := fold_left enqueue_capture_sample samples s in
  rec_dev s' = rec_dev s ++ delayed d samples /\
  delay_line s' = lastn d samples /\
  s' = set_capture s (rec_dev s') (delay_line s').
Proof.
  intros Hdl Hd d s'. subst s'.
  rewrite (enqueue_capture_fold s d samples Hdl) by (subst d; lia).
  repeat split.
Qed.

End Capture.

Lemma capture_delay_line_witness :
  let s := opt_input_delay (F:=spec_float) state_init 10 in
  let s' := fold_left enqueue_capture_sample [5; 6; 7] s in
  rec_dev s' = rec_dev s ++ delayed 160 [5; 6; 7] /\
  delay_line s' = lastn 160 [5; 6; 7] /\
  s' = set_capture s (rec_dev s') (delay_line s').
Proof.
  apply (capture_delay_line (opt_input_delay (F:=spec_float) state_init 10)
           [5; 6; 7]).
  - reflexivity.
  - vm_compute. intros H. discriminate H.
Defined.

End Queues.

(** ** echoback.cc: the loopback delay line *)

Section Loopback.

Import Echoback.

Context {F : Type} {A : Arith F}.

Lemma delayed_length (d : nat) (l : list Z) : length (delayed d l) = length l.
Proof.
  unfold delayed. rewrite length_firstn, length_app, repeat_length. lia.
Qed.

Lemma delayed_app (d : nat) (l1 l2 : list Z) :
  delayed d (l1 ++ l2) = delayed d l1 ++ skipn (length l1) (delayed d (l1 ++ l2)).
Proof.
  rewrite <- (firstn_skipn (length l1) (delayed d (l1 ++ l2))) at 1.
  f_equal. unfold delayed.
  rewrite firstn_firstn, length_app, Nat.min_l by lia.
  rewrite (app_assoc (repeat 0 d) l1 l2), firstn_app.
  replace (length l1 - length (repeat 0%Z d ++ l1))%nat with 0%nat
    by (rewrite length_app; lia).
  cbn [firstn]. now rewrite app_nil_r.
Qed.

Lemma set_far_delay_line_again (s : State F) (l1 l2 : list Z) :
  set_far_delay_line (set_far_delay_line s l1) l2 = set_far_delay_line s l2.
Proof. reflexivity. Qed.

(** The loop of [apply_loopback_delay], [k] samples of the block [b] in. *)
Lemma loopback_loop (s : State F) (d : nat) (fed b : list Z) (n k : nat) :
  (k + n <= length b)%nat ->
  for_from n (Z.of_nat k)
    (fun i '(s, block) =>
       let fdl := far_delay_line s ++ [rd16 block i] in
       if Z.of_nat d <? size fdl
       then (set_far_delay_line s (tl fdl), upd block i (hd 0 fdl))
       else (set_far_delay_line s fdl, upd block i 0))
    (set_far_delay_line s (lastn d (fed ++ firstn k b)),
     skipn (length fed) (delayed d (fed ++ firstn k b)) ++ skipn k b)
  = (set_far_delay_line s (lastn d (fed ++ firstn (k + n) b)),
     skipn (length fed) (delayed d (fed ++ firstn (k + n) b))
     ++ skipn (k + n) b).
Proof.
  revert k. induction n as [| n IH]; intros k Hk.
  - now rewrite Nat.add_0_r.
  - cbn [for_from]. cbv zeta.
    set (fed' := fed ++ firstn k b).
    set (O := skipn (length fed) (delayed d fed')).
    assert (HO : length O = k).
    { subst O fed'. rewrite length_skipn, delayed_length, length_app,
        length_firstn. lia. }
    assert (Hx : rd16 (O ++ skipn k b) (Z.of_nat k) = nth k b 0).
    { unfold rd16. rewrite Nat2Z.id, app_nth2, HO, Nat.sub_diag by lia.
      rewrite nth_hd_skipn. now rewrite (nth_hd_skipn k b). }
    rewrite Hx. cbn [far_delay_line set_far_delay_line].
    assert (Hfed : fed' ++ [nth k b 0] = fed ++ firstn (S k) b).
    { subst fed'. rewrite <- app_assoc. f_equal.
      symmetry. apply firstn_snoc. lia. }
    pose proof (delay_step d fed' (nth k b 0)) as [_ [H2 [H3 H4]]].
    cbv zeta in H2, H3, H4. unfold lastn at 1 2 3.
    rewrite H2.
    assert (HO' : skipn (length fed) (delayed d (fed ++ firstn (S k) b))
                  = O ++ [nth (length fed') (repeat 0 d ++ fed' ++ [nth k b 0]) 0]).
    { rewrite <- Hfed, delayed_snoc, skipn_app.
      fold O. f_equal.
      rewrite delayed_length.
      replace (length fed - length fed')%nat with 0%nat
        by (subst fed'; rewrite length_app; lia).
      reflexivity. }
    assert (Hupd : forall y,
               upd (O ++ skipn k b) (Z.of_nat k) y = (O ++ [y]) ++ skipn (S k) b).
    { intros y. rewrite upd_split by (rewrite length_app, length_skipn; lia).
      rewrite firstn_app, HO, Nat.sub_diag, firstn_all2 by lia.
      cbn [firstn]. rewrite app_nil_r, skipn_app, HO.
      rewrite (skipn_all2 O) by lia.
      replace (S k - k)%nat with 1%nat by lia.
      rewrite skipn_skipn, <- app_assoc. reflexivity. }
    rewrite !Hupd.
    replace (Z.of_nat k + 1) with (Z.of_nat (S k)) by lia.
    replace (k + S n)%nat with (S k + n)%nat by lia.
    rewrite <- (IH (S k)) by lia.
    f_equal.
    destruct (Nat.ltb_spec (length fed') d) as [Hlt | Hge]; cbn [negb].
    + destruct (H3 Hlt) as [E1 E2]. unfold lastn.
      rewrite set_far_delay_line_again, HO', E2, E1, Hfed. reflexivity.
    + destruct (H4 Hge) as [E1 E2]. unfold lastn.
      rewrite set_far_delay_line_again, HO', E2, E1, Hfed. reflexivity.
Qed.

Lemma apply_loopback_delay_spec (s : State F) (d : nat) (fed b : list Z) :
  loopback_delay_target_samples s = Z.of_nat d ->
  far_delay_line s = lastn d fed ->
  size b = kBlockLen ->
  apply_loopback_delay s b
  = (set_far_delay_line s (lastn d (fed ++ b)),
     skipn (length fed) (delayed d (fed ++ b))).
Proof.
  intros HT Hfdl Hb. unfold apply_loopback_delay. rewrite HT.
  assert (Hlen : length b = 160%nat) by (unfold size, kBlockLen in Hb; lia).
  destruct (Z.eqb_spec (Z.of_nat d) 0) as [Hz | Hnz].
  - assert (d = 0%nat) by lia. subst d.
    unfold lastn in *. rewrite Nat.sub_0_r, skipn_all in *.
    unfold delayed. cbn [repeat app].
    rewrite firstn_all, skipn_app, skipn_all, Nat.sub_diag.
    f_equal. destruct s. cbn in *. now subst.
  - unfold for_up.
    replace (Z.to_nat kBlockLen) with (length b)
      by (change (Z.to_nat kBlockLen) with 160%nat; lia).
    pose proof (loopback_loop s d fed b (length b) 0) as H.
    cbn [Nat.add firstn skipn] in H. change (Z.of_nat 0) with 0 in H.
    rewrite app_nil_r in H.
    assert (E1 : skipn (length fed) (delayed d fed) = []).
    { apply skipn_all2. rewrite delayed_length. lia. }
    rewrite E1 in H. cbn [app] in H.
    assert (E2 : set_far_delay_line s (lastn d fed) = s).
    { rewrite <- Hfdl. destruct s. reflexivity. }
    rewrite E2 in H. rewrite H by lia.
    rewrite firstn_all, skipn_all, app_nil_r. reflexivity.
Qed.

Lemma loopback_blocks_spec (blocks : list (list Z)) (s : State F) (d : nat)
    (fed : list Z) :
  loopback_delay_target_samples s = Z.of_nat d ->
  far_delay_line s = lastn d fed ->
  Forall (fun b => size b = kBlockLen) blocks ->
  fst (loopback_blocks s blocks)
  = set_far_delay_line s (lastn d (fed ++ concat blocks)) /\
  concat (snd (loopback_blocks s blocks))
  = skipn (length fed) (delayed d (fed ++ concat blocks)).
Proof.
  revert s fed. induction blocks as [| b rest IH]; intros s fed HT Hfdl Hall.
  - cbn [loopback_blocks concat fst snd]. rewrite app_nil_r. split.
    + rewrite <- Hfdl. destruct s. reflexivity.
    + symmetry. apply skipn_all2. rewrite delayed_length. lia.
  - inversion Hall as [| ? ? Hb Hrest]; subst.
    cbn [loopback_blocks].
    rewrite (apply_loopback_delay_spec s d fed b HT Hfdl Hb).
    specialize (IH (set_far_delay_line s (lastn d (fed ++ b))) (fed ++ b) HT
                  eq_refl Hrest).
    destruct (loopback_blocks _ rest) as [s2 os]. cbn [fst snd] in *.
    destruct IH as [IH1 IH2]. cbn [concat].
    rewrite <- app_assoc in IH1, IH2. split.
    + now rewrite IH1.
    + rewrite IH2.
      pose proof (delayed_app d (fed ++ b) (concat rest)) as HX.
      rewrite <- app_assoc in HX.
      set (X := delayed d (fed ++ b ++ concat rest)) in *.
      transitivity (skipn (length fed)
                      (delayed d (fed ++ b) ++ skipn (length (fed ++ b)) X));
        [| now rewrite <- HX].
      rewrite skipn_app, delayed_length.
      replace (length fed - length (fed ++ b))%nat with 0%nat
        by (rewrite length_app; lia).
      reflexivity.
Qed.

(** X9. The loopback delay line is a pure delay of the loudspeaker
    signal: over consecutive blocks of 160 samples the blocks that
    [apply_loopback_delay] leaves are the input stream
    [loopback_delay_target_samples] places late, with zeros in front
    (the stream itself when the target is zero), and the line keeps the
    samples still to come. *)
Theorem loopback_delay_line (s : State F) (blocks : list (list Z)) :
  far_delay_line s = [] ->
  0 <= loopback_delay_target_samples s ->
  Forall (fun b => size b = kBlockLen) blocks ->
  let d := Z.to_nat (loopback_delay_target_samples s) in
  concat (snd (loopback_blocks s blocks)) = delayed d (concat blocks) /\
  far_delay_line (fst (loopback_blocks s blocks)) = lastn d (concat blocks).
Proof.
  intros Hfdl HT Hall d.
  assert (H1 : loopback_delay_target_samples s = Z.of_nat d) by (subst d; lia).
  assert (H2 : far_delay_line s = lastn d []).
  { rewrite Hfdl. unfold lastn. now destruct d. }
  destruct (loopback_blocks_spec blocks s d [] H1 H2 Hall) as [H3 H4].
  cbn [app length skipn] in *. split; [exact H4 |].
  now rewrite H3.
Qed.

End Loopback.

(** ** echoback.cc: one pass of the block loop *)

Section BlockLoop.

Import Echoback.

Context {F : Type} {A : Arith F} {IO : ArithIO F}.

Lemma block_of_length {X : Type} (f : Z -> X) : length (block_of f) = 160%nat.
Proof. unfold block_of. now rewrite length_map, length_seq. Qed.

Lemma block_of_rd16 (b : list Z) :
  length b = 160%nat -> block_of (rd16 b) = b.
Proof.
  intros Hb. unfold block_of. change (Z.to_nat kBlockLen) with 160%nat.
  rewrite <- Hb. clear Hb.
  apply nth_ext with (d := 0) (d' := 0).
  - now rewrite length_map, length_seq.
  - intros n Hn. rewrite length_map, length_seq in Hn.
    rewrite (nth_indep _ 0 (rd16 b (Z.of_nat 0))) by (rewrite length_map, length_seq; lia).
    rewrite (map_nth (fun i => rd16 b (Z.of_nat i))), seq_nth by lia.
    unfold rd16. now rewrite Nat2Z.id.
Qed.

(** [apply_loopback_delay] keeps the length of the block and touches the
    delay line only. *)
Lemma apply_loopback_delay_frame (s : State F) (b : list Z) :
  length (snd (apply_loopback_delay s b)) = length b /\
  fst (apply_loopback_delay s b)
  = set_far_delay_line s (far_delay_line (fst (apply_loopback_delay s b))).
Proof.
  unfold apply_loopback_delay.
  destruct (loopback_delay_target_samples s =? 0).
  - cbn [fst snd]. split; [reflexivity |]. now destruct s.
  - unfold for_up.
    apply (for_from_inv
             (fun p : State F * list Z =>
                length (snd p) = length b /\
                fst p = set_far_delay_line s (far_delay_line (fst p)))).
    + intros i [s1 b1] [H1 H2]. cbn [fst snd] in *. cbv zeta.
      destruct (_ <? _); cbn [fst snd]; rewrite length_upd; (split; [exact H1 |]);
        rewrite H2; reflexivity.
    + cbn [fst snd]. split; [reflexivity |]. now destruct s.
Qed.

Lemma pop_block (q : list Z) :
  (160 <= length q)%nat ->
  pop_samples q (repeat 0 (Z.to_nat kBlockLen)) kBlockLen
  = (skipn 160 q, firstn 160 q, 160).
Proof.
  intros Hq. rewrite pop_samples_spec
    by (unfold Echoback.size; rewrite repeat_length; unfold kBlockLen; lia).
  change (Z.to_nat kBlockLen) with 160%nat.
  rewrite Nat.min_r by lia.
  rewrite (skipn_all2 (n := 160) (repeat 0 160)) by (rewrite repeat_length; lia).
  now rewrite app_nil_r.
Qed.

Lemma push_block_160 (q src : list Z) :
  length src = 160%nat -> Echoback.push_block q src kBlockLen = q ++ src.
Proof.
  intros H. rewrite <- (push_block_spec q src). f_equal.
  unfold Echoback.size, kBlockLen. lia.
Qed.

(** What one pass of the block loop does to the queues. *)
Lemma process_one_block_queues (s : State F) :
  kBlockLen <= size (rec_dev s) ->
  let far_blk := if kBlockLen <=? size (jitter s)
                 then firstn 160 (jitter s) else repeat 0 160 in
  let jit := if kBlockLen <=? size (jitter s)
             then skipn 160 (jitter s) else jitter s in
  let s' := process_one_block s in
  rec_dev s' = skipn 160 (rec_dev s) /\
  out_dev s' = out_dev s ++ snd (apply_loopback_delay s far_blk) /\
  far_delay_line s' = far_delay_line (fst (apply_loopback_delay s far_blk)) /\
  (exists out_blk, length out_blk = 160%nat /\ jitter s' = jit ++ out_blk /\
     (passthrough s = true -> out_blk = firstn 160 (rec_dev s))) /\
  block_counter s' = block_counter s + 1 /\
  delay_line s' = delay_line s /\
  delay_target_samples s' = delay_target_samples s /\
  loopback_delay_target_samples s' = loopback_delay_target_samples s /\
  passthrough s' = passthrough s /\
  (passthrough s = true -> suppressor s' = suppressor s).
Proof.
  intros Hrec far_blk jit s'. subst s'. unfold process_one_block.
  assert (Hr : (160 <= length (rec_dev s))%nat)
    by (unfold size, kBlockLen in Hrec; lia).
  rewrite (pop_block (rec_dev s) Hr).
  assert (Hfar : (let '(jit, far_blk) :=
                    if kBlockLen <=? size (jitter s)
                    then let '(jit, far_blk, _) :=
                           pop_samples (jitter s) (repeat 0 (Z.to_nat kBlockLen))
                             kBlockLen in (jit, far_blk)
                    else (jitter s, repeat 0 (Z.to_nat kBlockLen)) in
                  (jit, far_blk)) = (jit, far_blk)).
  { subst jit far_blk.
    destruct (Z.leb_spec kBlockLen (size (jitter s))) as [Hj | Hj].
    - rewrite pop_block by (unfold size, kBlockLen in Hj; lia). reflexivity.
    - reflexivity. }
  destruct (if kBlockLen <=? size (jitter s)
            then let '(jit, far_blk, _) :=
                   pop_samples (jitter s) (repeat 0 (Z.to_nat kBlockLen))
                     kBlockLen in (jit, far_blk)
            else (jitter s, repeat 0 (Z.to_nat kBlockLen))) as [jit0 far0].
  injection Hfar as -> ->.
  pose proof (apply_loopback_delay_frame s far_blk) as [Hlen _].
  assert (Hfl : length far_blk = 160%nat).
  { subst far_blk.
    destruct (Z.leb_spec kBlockLen (size (jitter s))) as [Hj | Hj].
    - rewrite length_firstn. unfold size, kBlockLen in Hj. lia.
    - apply repeat_length. }
  destruct (apply_loopback_delay s far_blk) as [s1 speaker_blk].
  cbn [fst snd] in *.
  destruct (passthrough s) eqn:Hp.
  - cbn [rec_dev out_dev jitter far_delay_line block_counter delay_line
         delay_target_samples loopback_delay_target_samples passthrough
         suppressor].
    rewrite !push_block_160 by (try apply block_of_length; lia).
    repeat split; try reflexivity.
    exists (block_of (rd16 (firstn 160 (rec_dev s)))).
    split; [apply block_of_length |]. split; [reflexivity |].
    intros _. apply block_of_rd16. rewrite length_firstn. lia.
  - destruct (Fixed.process_block (suppressor s) _ _) as [sup r].
    cbn [rec_dev out_dev jitter far_delay_line block_counter delay_line
         delay_target_samples loopback_delay_target_samples passthrough
         suppressor].
    rewrite !push_block_160 by (try apply block_of_length; lia).
    repeat split; try reflexivity; try discriminate.
    eexists. split; [apply block_of_length |]. split; [reflexivity |].
    discriminate.
Qed.

End BlockLoop.

(** ** echoback.cc: the block loop *)

Section AvailableBlocks.

Import Echoback.

Context {F : Type} {A : Arith F} {IO : ArithIO F}.

Lemma process_blocks_loop_sizes (fuel : nat) (s : State F) :
  (length (rec_dev s) / 160 <= fuel)%nat ->
  let k := (length (rec_dev s) / 160)%nat in
  let s' := process_blocks_loop fuel s in
  rec_dev s' = skipn (160 * k) (rec_dev s) /\
  block_counter s' = block_counter s + Z.of_nat k /\
  length (out_dev s') = (length (out_dev s) + 160 * k)%nat /\
  length (jitter s')
  = (if ((0 <? k) && (length (jitter s) <? 160))%nat
     then length (jitter s) + 160 else length (jitter s))%nat /\
  delay_line s' = delay_line s /\
  delay_target_samples s' = delay_target_samples s /\
  loopback_delay_target_samples s' = loopback_delay_target_samples s /\
  passthrough s' = passthrough s.
Proof.
  revert s. induction fuel as [| fuel IH]; intros s Hfuel k s'.
  - subst s'. cbn [process_blocks_loop].
    assert (Hk : k = 0%nat) by (subst k; lia). rewrite Hk.
    cbn [Nat.ltb Nat.leb andb]. rewrite Nat.mul_0_r, Nat.add_0_r. cbn [skipn].
    repeat split; lia.
  - subst s'. cbn [process_blocks_loop].
    destruct (Z.leb_spec kBlockLen (size (rec_dev s))) as [Hge | Hlt].
    + pose proof (process_one_block_queues s Hge) as
        [H1 [H2 [_ [[ob [Hob [H4 _]]] [H5 [H6 [H7 [H8 [H9 _]]]]]]]]].
      assert (Hr : (160 <= length (rec_dev s))%nat)
        by (unfold size, kBlockLen in Hge; lia).
      assert (Hk : k = S (length (skipn 160 (rec_dev s)) / 160)).
      { subst k. rewrite length_skipn.
        replace (length (rec_dev s)) with (length (rec_dev s) - 160 + 1 * 160)%nat
          at 1 by lia.
        rewrite Nat.div_add by lia. lia. }
      specialize (IH (process_one_block s)).
      rewrite H1 in IH.
      assert (Hf : (length (skipn 160 (rec_dev s)) / 160 <= fuel)%nat) by lia.
      specialize (IH Hf). cbv zeta in IH.
      destruct IH as [I1 [I2 [I3 [I4 [I5 [I6 [I7 I8]]]]]]].
      set (k' := (length (skipn 160 (rec_dev s)) / 160)%nat) in *.
      rewrite Hk.
      pose proof (apply_loopback_delay_frame s
                    (if kBlockLen <=? size (jitter s)
                     then firstn 160 (jitter s) else repeat 0 160)) as [Hsl _].
      assert (Hfl : length (if kBlockLen <=? size (jitter s)
                            then firstn 160 (jitter s) else repeat 0 160)
                    = 160%nat).
      { destruct (Z.leb_spec kBlockLen (size (jitter s))) as [Hj | Hj].
        - rewrite length_firstn. unfold size, kBlockLen in Hj. lia.
        - apply repeat_length. }
      split; [| split; [| split; [| split]]].
      * rewrite I1, skipn_skipn. f_equal. lia.
      * rewrite I2, H5. lia.
      * rewrite I3, H2, length_app, Hsl, Hfl. lia.
      * rewrite I4, H4, length_app, Hob.
        change (0 <? S k')%nat with true. cbn [andb].
        destruct (Z.leb_spec kBlockLen (size (jitter s))) as [Hj | Hj];
          unfold size, kBlockLen in Hj.
        -- rewrite length_skipn.
           replace (length (jitter s) - 160 + 160 <? 160)%nat with false
             by (symmetry; apply Nat.ltb_ge; lia).
           rewrite andb_false_r.
           replace (length (jitter s) <? 160)%nat with false
             by (symmetry; apply Nat.ltb_ge; lia).
           lia.
        -- replace (length (jitter s) + 160 <? 160)%nat with false
             by (symmetry; apply Nat.ltb_ge; lia).
           rewrite andb_false_r.
           replace (length (jitter s) <? 160)%nat with true
             by (symmetry; apply Nat.ltb_lt; lia).
           reflexivity.
      * rewrite I5, I6, I7, I8. repeat split; assumption.
    + assert (Hk : k = 0%nat).
      { subst k. unfold size, kBlockLen in Hlt. apply Nat.div_small. lia. }
      rewrite Hk. cbn [Nat.ltb Nat.leb andb].
      rewrite Nat.mul_0_r, Nat.add_0_r. cbn [skipn].
      repeat split; lia.
Qed.

(** X10. [process_available_blocks] runs the block loop to the end: it
    takes every whole block of 160 samples off [rec_dev], in order, and
    leaves fewer than 160 behind; it counts the blocks, hands the
    loudspeaker queue 160 samples for each, and keeps the loopback
    buffer [jitter] from growing: once it holds a block its size stays
    the same. *)
Theorem process_available_blocks_queues (s : State F) :
  let k := size (rec_dev s) / kBlockLen in
  let s' := process_available_blocks s in
  rec_dev s' = skipn (Z.to_nat (kBlockLen * k)) (rec_dev s) /\
  size (rec_dev s') = size (rec_dev s) mod kBlockLen /\
  size (rec_dev s') < kBlockLen /\
  block_counter s' = block_counter s + k /\
  size (out_dev s') = size (out_dev s) + kBlockLen * k /\
  size (jitter s')
  = (if (0 <? k) && (size (jitter s) <? kBlockLen)
     then size (jitter s) + kBlockLen else size (jitter s)).
Proof.
  intros k s'. subst s'. unfold process_available_blocks.
  assert (Hfuel : (length (rec_dev s) / 160 <= length (rec_dev s))%nat).
  { apply Nat.Div0.div_le_upper_bound. lia. }
  pose proof (process_blocks_loop_sizes (length (rec_dev s)) s Hfuel)
    as [H1 [H2 [H3 [H4 _]]]].
  assert (Hk : k = Z.of_nat (length (rec_dev s) / 160)).
  { subst k. unfold size, kBlockLen. now rewrite Nat2Z.inj_div. }
  assert (Hsz : size (process_blocks_loop (length (rec_dev s)) s).(rec_dev)
                = size (rec_dev s) mod kBlockLen).
  { rewrite H1. unfold size, kBlockLen. rewrite length_skipn.
    rewrite Nat2Z.inj_sub, Nat2Z.inj_mul, Nat2Z.inj_div.
    - rewrite Z.mod_eq by lia. reflexivity.
    - apply Nat.Div0.mul_div_le. }
  split; [| split; [| split; [| split; [| split]]]].
  - rewrite H1. f_equal. rewrite Hk. unfold kBlockLen. lia.
  - exact Hsz.
  - rewrite Hsz. apply Z.mod_pos_bound. reflexivity.
  - rewrite H2. lia.
  - unfold size. rewrite H3, Hk. unfold kBlockLen. lia.
  - unfold size. rewrite H4, Hk. unfold kBlockLen.
    destruct (Nat.ltb_spec 0 (length (rec_dev s) / 160)) as [Hp | Hp];
      [replace (0 <? Z.of_nat (length (rec_dev s) / 160)) with true
         by (symmetry; apply Z.ltb_lt; lia)
      |replace (0 <? Z.of_nat (length (rec_dev s) / 160)) with false
         by (symmetry; apply Z.ltb_ge; lia)];
      cbn [andb]; [| reflexivity].
    destruct (Nat.ltb_spec (length (jitter s)) 160) as [Hj | Hj];
      [replace (Z.of_nat (length (jitter s)) <? 160) with true
         by (symmetry; apply Z.ltb_lt; lia)
      |replace (Z.of_nat (length (jitter s)) <? 160) with false
         by (symmetry; apply Z.ltb_ge; lia)]; lia.
Qed.

End AvailableBlocks.

(** ** echoback.cc: the device callback *)

Section Callback.

Import Echoback.

Context {F : Type} {A : Arith F} {IO : ArithIO F}.

Lemma firstn_repeat {X : Type} (x : X) (k m : nat) :
  firstn k (repeat x m) = repeat x (Nat.min k m).
Proof.
  revert m. induction k as [| k IH]; intros [| m]; try reflexivity.
  cbn [firstn repeat Nat.min]. f_equal. apply IH.
Qed.

(** The output loop of [pa_callback]: [n] samples off [out_dev], zeros
    once it is empty. *)
Lemma emit_loop (n : nat) (i : Z) (s : State F) (out : list Z) :
  for_from n i
    (fun _ '(s, out) =>
       match out_dev s with
       | x :: q => (set_out_dev s q, out ++ [x])
       | [] => (s, out ++ [0])
       end)
    (s, out)
  = (set_out_dev s (skipn n (out_dev s)),
     out ++ firstn n (out_dev s ++ repeat 0 n)).
Proof.
  revert i s out. induction n as [| n IH]; intros i s out.
  - cbn. rewrite app_nil_r. now destruct s.
  - cbn [for_from]. destruct (out_dev s) as [| x q] eqn:E.
    + rewrite IH, E. rewrite skipn_nil. cbn [app repeat firstn].
      rewrite skipn_nil, firstn_all2 by (rewrite repeat_length; lia).
      rewrite <- app_assoc. reflexivity.
    + rewrite IH. cbn [out_dev set_out_dev skipn app firstn].
      rewrite <- app_assoc. cbn [app]. f_equal. f_equal. f_equal.
      rewrite !firstn_app, !firstn_repeat. f_equal. f_equal. lia.
Qed.

Lemma pa_callback_eq (s : State F) (inputBuffer : option (list Z))
    (blockSize : Z) :
  let s2 :=
    process_available_blocks
      (for_up blockSize
         (fun i s =>
            enqueue_capture_sample s
              (match inputBuffer with Some b => rd16 b i | None => 0 end)) s) in
  let n := Z.to_nat blockSize in
  pa_callback s inputBuffer blockSize
  = (set_out_dev s2 (skipn n (out_dev s2)),
     firstn n (out_dev s2 ++ repeat 0 n)).
Proof.
  intros s2 n. unfold pa_callback. cbv zeta. fold s2.
  unfold for_up. fold n. apply emit_loop.
Qed.

(** X11. [pa_callback] always hands the device exactly [blockSize]
    samples: the front of the loudspeaker queue as the block loop left
    it, and zeros for what the queue cannot supply. *)
Theorem pa_callback_output (s : State F) (inputBuffer : option (list Z))
    (blockSize : Z) :
  let s1 :=
    for_up blockSize
      (fun i s =>
         enqueue_capture_sample s
           (match inputBuffer with Some b => rd16 b i | None => 0 end)) s in
  let q := out_dev (process_available_blocks s1) in
  let n := Z.to_nat blockSize in
  snd (pa_callback s inputBuffer blockSize) = firstn n (q ++ repeat 0 n) /\
  length (snd (pa_callback s inputBuffer blockSize)) = n /\
  out_dev (fst (pa_callback s inputBuffer blockSize)) = skipn n q.
Proof.
  intros s1 q n. rewrite pa_callback_eq. cbn [fst snd out_dev set_out_dev].
  fold s1. fold q. fold n. repeat split.
  rewrite length_firstn, length_app, repeat_length. lia.
Qed.

End Callback.

(** ** echoback.cc: passthrough mode *)

Section Passthrough.

Import Echoback.

Context {F : Type} {A : Arith F} {IO : ArithIO F}.

Lemma firstn_app_firstn {X : Type} (n : nat) (P Q : list X) :
  firstn n (P ++ firstn n Q) = firstn n (P ++ Q).
Proof.
  rewrite !firstn_app, firstn_firstn. f_equal. f_equal. lia.
Qed.

(** Two delays in a row are one delay. *)
Lemma delayed_delayed (a b : nat) (l : list Z) :
  delayed a (delayed b l) = delayed (a + b) l.
Proof.
  unfold delayed at 1. rewrite delayed_length. unfold delayed.
  rewrite firstn_app_firstn, app_assoc, <- repeat_app. reflexivity.
Qed.

Lemma enqueue_capture_fold_gen (s : State F) (d : nat) (fed samples : list Z) :
  delay_line s = lastn d fed ->
  delay_target_samples s = Z.of_nat d ->
  fold_left enqueue_capture_sample samples s
  = set_capture s
      (rec_dev s ++ skipn (length fed) (delayed d (fed ++ samples)))
      (lastn d (fed ++ samples)).
Proof.
  intros Hdl Hd. induction samples as [| x l IH] using rev_ind.
  - cbn [fold_left]. rewrite app_nil_r.
    rewrite skipn_all2 by (rewrite delayed_length; lia).
    rewrite app_nil_r, <- Hdl. now destruct s.
  - rewrite fold_left_app, IH. cbn [fold_left].
    unfold enqueue_capture_sample.
    cbn [delay_line delay_target_samples rec_dev set_capture].
    rewrite Hd. unfold lastn at 1 2 3.
    pose proof (delay_step d (fed ++ l) x) as [H1 [_ [H3 H4]]]. cbv zeta in *.
    rewrite H1.
    assert (HO : skipn (length fed) (delayed d (fed ++ l ++ [x]))
                 = skipn (length fed) (delayed d (fed ++ l))
                   ++ [nth (length (fed ++ l)) (repeat 0 d ++ (fed ++ l) ++ [x]) 0]).
    { rewrite app_assoc, delayed_snoc, skipn_app, delayed_length.
      replace (length fed - length (fed ++ l))%nat with 0%nat
        by (rewrite length_app; lia).
      reflexivity. }
    rewrite HO. rewrite (app_assoc fed l [x]).
    destruct (Nat.ltb_spec (length (fed ++ l)) d) as [Hlt | Hge].
    + destruct (H3 Hlt) as [E1 E2]. rewrite E2.
      unfold set_capture, lastn. cbn. rewrite E1, <- !app_assoc. reflexivity.
    + destruct (H4 Hge) as [E1 E2]. rewrite E2.
      unfold set_capture, lastn. cbn. rewrite E1, <- !app_assoc. reflexivity.
Qed.

(** The far-end stream one block on: what the loopback buffer held, or
    zeros the first time. *)
Lemma far_stream_step (Y near : list Z) :
  (length Y = 0 \/ 160 <= length Y)%nat ->
  length near = 160%nat ->
  delayed 160 Y
  ++ (if kBlockLen <=? size (lastn 160 Y)
      then firstn 160 (lastn 160 Y) else repeat 0 160)
  = delayed 160 (Y ++ near).
Proof.
  intros HY Hn.
  assert (R : delayed 160 (Y ++ near) = repeat 0 160 ++ Y).
  { unfold delayed. rewrite length_app, Hn.
    replace (length Y + 160)%nat with (length (repeat 0%Z 160) + length Y)%nat
      by (rewrite repeat_length; lia).
    rewrite firstn_app_2, firstn_app, Nat.sub_diag. cbn [firstn].
    now rewrite firstn_all, app_nil_r. }
  rewrite R. unfold lastn, size, kBlockLen. rewrite length_skipn.
  destruct HY as [H0 | Hge].
  - destruct Y; [| discriminate H0]. cbn [length Nat.sub skipn].
    unfold delayed. cbn [length firstn app]. now rewrite app_nil_r.
  - destruct (Z.leb_spec 160 (Z.of_nat (length Y - (length Y - 160)))); [| lia].
    rewrite firstn_all2 by (rewrite length_skipn; lia).
    unfold delayed.
    replace (length Y) with (length (repeat 0%Z 160) + (length Y - 160))%nat at 1
      by (rewrite repeat_length; lia).
    rewrite firstn_app_2, <- app_assoc, firstn_skipn. reflexivity.
Qed.

Lemma process_available_one (s : State F) :
  length (rec_dev s) = 160%nat ->
  process_available_blocks s = process_one_block s.
Proof.
  intros H. unfold process_available_blocks. rewrite H.
  change 160%nat with (S (S 158)). cbn [process_blocks_loop].
  assert (Hge : kBlockLen <= size (rec_dev s))
    by (unfold size, kBlockLen; lia).
  destruct (Z.leb_spec kBlockLen (size (rec_dev s))); [| lia].
  pose proof (process_one_block_queues s Hge) as [H1 _].
  assert (Hlt : size (rec_dev (process_one_block s)) < kBlockLen).
  { rewrite H1. unfold size, kBlockLen. rewrite length_skipn. lia. }
  destruct (Z.leb_spec kBlockLen (size (rec_dev (process_one_block s)))); [lia |].
  reflexivity.
Qed.

(** One callback in passthrough mode, [fed] being what was captured
    before. *)
Lemma pa_callback_passthrough (s : State F) (d t : nat) (fed b : list Z) :
  passthrough s = true ->
  rec_dev s = [] ->
  out_dev s = [] ->
  delay_target_samples s = Z.of_nat d ->
  loopback_delay_target_samples s = Z.of_nat t ->
  delay_line s = lastn d fed ->
  jitter s = lastn 160 (delayed d fed) ->
  far_delay_line s = lastn t (delayed 160 (delayed d fed)) ->
  (length fed = 0 \/ 160 <= length fed)%nat ->
  size b = kBlockLen ->
  let s' := fst (pa_callback s (Some b) (size b)) in
  passthrough s' = true /\
  rec_dev s' = [] /\
  out_dev s' = [] /\
  delay_target_samples s' = Z.of_nat d /\
  loopback_delay_target_samples s' = Z.of_nat t /\
  delay_line s' = lastn d (fed ++ b) /\
  jitter s' = lastn 160 (delayed d (fed ++ b)) /\
  far_delay_line s' = lastn t (delayed 160 (delayed d (fed ++ b))) /\
  snd (pa_callback s (Some b) (size b))
  = skipn (length fed) (delayed (t + (160 + d)) (fed ++ b)).
Proof.
  intros Hp Hrec Hout Hd Ht Hdl Hj Hfdl Hfed Hb s'. subst s'.
  assert (Hlen : length b = 160%nat) by (unfold size, kBlockLen in Hb; lia).
  rewrite pa_callback_eq. cbv zeta. cbn [fst snd].
  rewrite (for_up_fold enqueue_capture_sample b s).
  rewrite (enqueue_capture_fold_gen s d fed b Hdl Hd), Hrec.
  cbn [app].
  set (near := skipn (length fed) (delayed d (fed ++ b))).
  assert (Hnear : length near = 160%nat).
  { subst near. rewrite length_skipn, delayed_length, length_app. lia. }
  set (s1 := set_capture s near (lastn d (fed ++ b))).
  rewrite (process_available_one s1) by exact Hnear.
  assert (Hge : kBlockLen <= size (rec_dev s1))
    by (cbn [s1 rec_dev set_capture]; unfold size, kBlockLen; lia).
  pose proof (process_one_block_queues s1 Hge) as
    [H1 [H2 [H3 [[ob [Hob [H4 H4']]] [_ [H6 [H7 [H8 [H9 _]]]]]]]]].
  cbv zeta in *.
  cbn [s1 rec_dev out_dev jitter delay_line delay_target_samples
       loopback_delay_target_samples passthrough far_delay_line set_capture]
    in H1, H2, H3, H4, H4', H6, H7, H8, H9.
  fold s1 in H1, H2, H3, H4, H6, H7, H8, H9.
  set (Y := delayed d fed) in *.
  assert (HY : (length Y = 0 \/ 160 <= length Y)%nat)
    by (subst Y; rewrite delayed_length; exact Hfed).
  assert (HY' : delayed d (fed ++ b) = Y ++ near).
  { subst Y near. apply delayed_app. }
  set (far_blk := if kBlockLen <=? size (jitter s)
                  then firstn 160 (jitter s) else repeat 0 160) in *.
  assert (Hfs : delayed 160 Y ++ far_blk = delayed 160 (delayed d (fed ++ b))).
  { subst far_blk. rewrite Hj, HY'. now apply far_stream_step. }
  assert (Hfl : size far_blk = kBlockLen).
  { assert (E : length (delayed 160 Y ++ far_blk) = (length Y + 160)%nat).
    { rewrite Hfs, !delayed_length, length_app, Hlen. subst Y.
      rewrite delayed_length. reflexivity. }
    rewrite length_app, delayed_length in E. unfold size, kBlockLen. lia. }
  assert (Ht1 : loopback_delay_target_samples s1 = Z.of_nat t) by exact Ht.
  assert (Hfdl1 : far_delay_line s1 = lastn t (delayed 160 Y)) by exact Hfdl.
  rewrite (apply_loopback_delay_spec s1 t (delayed 160 Y) far_blk Ht1 Hfdl1 Hfl)
    in H2, H3.
  cbn [fst snd far_delay_line set_far_delay_line] in H2, H3.
  rewrite Hfs in H2, H3. rewrite Hout in H2. cbn [app] in H2.
  rewrite !delayed_length in H2. fold Y in H2.
  assert (HYl : length Y = length fed) by (subst Y; apply delayed_length).
  rewrite HYl, (delayed_delayed 160 d), delayed_delayed in H2.
  assert (Hsp : length (out_dev (process_one_block s1)) = 160%nat).
  { rewrite H2, length_skipn, !delayed_length, length_app. lia. }
  change (Z.to_nat (size b)) with (Z.to_nat (Z.of_nat (length b))).
  rewrite Nat2Z.id, Hlen.
  cbn [passthrough rec_dev out_dev delay_target_samples
       loopback_delay_target_samples delay_line jitter far_delay_line
       set_out_dev].
  split; [now rewrite H9 |].
  split; [rewrite H1; apply skipn_all2; lia |].
  split; [apply skipn_all2; lia |].
  split; [now rewrite H7 |].
  split; [now rewrite H8 |].
  split; [exact H6 |].
  split.
  - rewrite H4, (H4' Hp).
    assert (Hjit : (if kBlockLen <=? size (jitter s)
                    then skipn 160 (jitter s) else jitter s) = []).
    { rewrite Hj. unfold lastn, size, kBlockLen. rewrite length_skipn.
      destruct HY as [H0 | Hge'].
      - destruct Y; [| discriminate H0]. reflexivity.
      - destruct (Z.leb_spec 160 (Z.of_nat (length Y - (length Y - 160)))); [| lia].
        apply skipn_all2. rewrite length_skipn. lia. }
    rewrite Hjit. cbn [app].
    rewrite firstn_all2 by lia.
    unfold lastn. rewrite delayed_length, length_app, Hlen.
    subst near. f_equal. lia.
  - split; [exact H3 |].
    rewrite firstn_app, firstn_all2 by lia.
    replace (160 - length (out_dev (process_one_block s1)))%nat with 0%nat by lia.
    cbn [firstn]. rewrite app_nil_r. exact H2.
Qed.

Lemma callbacks_passthrough (inputs : list (list Z)) (s : State F) (d t : nat)
    (fed : list Z) :
  passthrough s = true ->
  rec_dev s = [] ->
  out_dev s = [] ->
  delay_target_samples s = Z.of_nat d ->
  loopback_delay_target_samples s = Z.of_nat t ->
  delay_line s = lastn d fed ->
  jitter s = lastn 160 (delayed d fed) ->
  far_delay_line s = lastn t (delayed 160 (delayed d fed)) ->
  (length fed = 0 \/ 160 <= length fed)%nat ->
  Forall (fun b => size b = kBlockLen) inputs ->
  concat (snd (callbacks s inputs))
  = skipn (length fed) (delayed (t + (160 + d)) (fed ++ concat inputs)).
Proof.
  revert s fed. induction inputs as [| b rest IH];
    intros s fed Hp Hrec Hout Hd Ht Hdl Hj Hfdl Hfed Hall.
  - cbn [callbacks snd concat]. rewrite app_nil_r.
    symmetry. apply skipn_all2. rewrite delayed_length. lia.
  - inversion Hall as [| ? ? Hb Hrest]; subst.
    pose proof (pa_callback_passthrough s d t fed b Hp Hrec Hout Hd Ht Hdl Hj
                  Hfdl Hfed Hb) as H.
    cbv zeta in H. cbn [callbacks].
    destruct (pa_callback s (Some b) (size b)) as [s1 o]. cbn [fst snd] in H.
    destruct H as [P1 [P2 [P3 [P4 [P5 [P6 [P7 [P8 P9]]]]]]]].
    assert (Hfed' : (length (fed ++ b) = 0 \/ 160 <= length (fed ++ b))%nat).
    { right. rewrite length_app. unfold size, kBlockLen in Hb. lia. }
    specialize (IH s1 (fed ++ b) P1 P2 P3 P4 P5 P6 P7 P8 Hfed' Hrest).
    destruct (callbacks s1 rest) as [s2 os]. cbn [snd concat] in *.
    rewrite IH, P9. rewrite <- app_assoc.
    pose proof (delayed_app (t + (160 + d)) (fed ++ b) (concat rest)) as HX.
    rewrite <- app_assoc in HX.
    set (X := delayed (t + (160 + d)) (fed ++ b ++ concat rest)) in *.
    transitivity (skipn (length fed)
                    (delayed (t + (160 + d)) (fed ++ b)
                     ++ skipn (length (fed ++ b)) X));
      [| now rewrite <- HX].
    rewrite skipn_app, delayed_length.
    replace (length fed - length (fed ++ b))%nat with 0%nat
      by (rewrite length_app; lia).
    reflexivity.
Qed.

(** X12. In passthrough mode the program is an echo: fed buffers of 160
    samples, the callbacks play back the captured stream itself, late by
    the capture delay, one block of 160 samples for the loopback buffer,
    and the loopback delay, with zeros until then. *)
Theorem passthrough_echo (s : State F) (inputs : list (list Z)) :
  passthrough s = true ->
  rec_dev s = [] -> out_dev s = [] -> jitter s = [] ->
  delay_line s = [] -> far_delay_line s = [] ->
  0 <= delay_target_samples s ->
  0 <= loopback_delay_target_samples s ->
  Forall (fun b => size b = kBlockLen) inputs ->
  concat (snd (callbacks s inputs))
  = delayed (Z.to_nat (loopback_delay_target_samples s)
             + (160 + Z.to_nat (delay_target_samples s)))
      (concat inputs).
Proof.
  intros Hp Hrec Hout Hj Hdl Hfdl Hd Ht Hall.
  set (d := Z.to_nat (delay_target_samples s)).
  set (t := Z.to_nat (loopback_delay_target_samples s)).
  assert (H1 : delay_target_samples s = Z.of_nat d) by (subst d; lia).
  assert (H2 : loopback_delay_target_samples s = Z.of_nat t) by (subst t; lia).
  assert (H3 : delay_line s = lastn d []).
  { rewrite Hdl. unfold lastn. now destruct d. }
  assert (H4 : jitter s = lastn 160 (delayed d [])) by (now rewrite Hj).
  assert (H5 : far_delay_line s = lastn t (delayed 160 (delayed d []))).
  { rewrite Hfdl. unfold lastn, delayed. cbn [length firstn]. now destruct t. }
  assert (H6 : (length (@nil Z) = 0 \/ 160 <= length (@nil Z))%nat) by now left.
  exact (callbacks_passthrough inputs s d t [] Hp Hrec Hout H1 H2 H3 H4 H5 H6
           Hall).
Qed.

End Passthrough.

(** ** echoback.cc: the delay options *)

Section Options.

Import Echoback.





End Options.

(** ** echoback.cc: the statistics of the estimated lag *)

Section LagStatistics.

Import Echoback.

Lemma sum_of_app (l1 l2 : list Z) : sum_of (l1 ++ l2) = sum_of l1 + sum_of l2.
Proof.
  unfold sum_of. induction l1 as [| x l1 IH]; cbn [app fold_right]; lia.
Qed.

Lemma sum_of_tl (l : list Z) : sum_of (tl l) = sum_of l - hd 0 l.
Proof. destruct l; unfold sum_of; cbn; lia. Qed.

(** The single pass that finds the minimum and the maximum. *)
Lemma min_max_fold (l : list Z) (a b : Z) :
  let r := fold_left
             (fun '(min_val, max_val) lag_sample =>
                (if lag_sample <? min_val then lag_sample else min_val,
                 if max_val <? lag_sample then lag_sample else max_val))
             l (a, b) in
  fst r <= a /\ b <= snd r /\
  Forall (fun v => fst r <= v <= snd r) l /\
  (fst r = a \/ In (fst r) l) /\ (snd r = b \/ In (snd r) l).
Proof.
  revert a b. induction l as [| x l IH]; intros a b.
  - cbn. repeat split; try lia; auto.
  - cbn [fold_left].
    specialize (IH (if x <? a then x else a) (if b <? x then x else b)).
    cbv zeta in *. destruct IH as [I1 [I2 [I3 [I4 I5]]]].
    destruct (Z.ltb_spec x a), (Z.ltb_spec b x);
      (split; [lia |]); (split; [lia |]);
      (split; [constructor; [lia | exact I3] |]);
      (split; [destruct I4 as [I4 | I4]; [try (left; exact I4); right; left; now rewrite I4 | right; now right]
              |destruct I5 as [I5 | I5]; [try (left; exact I5); right; left; now rewrite I5 | right; now right]]).
Qed.

Lemma lastn_length {X : Type} (n : nat) (l : list X) :
  length (lastn n l) = Nat.min n (length l).
Proof. unfold lastn. rewrite length_skipn. lia. Qed.

Lemma last_snoc (l : list Z) (x : Z) : last (l ++ [x]) 0 = x.
Proof. apply last_last. Qed.

(** One update with a lag that is not negative, [seen] being the lags
    recorded so far. *)
Lemma update_lag_stats_step (st : LagStats) (L : nat) (seen : list Z) (lag : Z) :
  (1 <= L)%nat ->
  0 <= lag ->
  lag_history_limit st = Z.of_nat L ->
  lag_history st = lastn L seen ->
  lag_sum st = sum_of (lag_history st) ->
  let st' := update_lag_stats st lag in
  lag_history_limit st' = Z.of_nat L /\
  lag_history st' = lastn L (seen ++ [lag]) /\
  lag_sum st' = sum_of (lag_history st') /\
  lag_stats_ready st' = true /\
  lag_last st' = lag /\
  lag_avg_latest st' = (lag_sum st', size (lag_history st')) /\
  In (lag_min_window st') (lag_history st') /\
  In (lag_max_window st') (lag_history st') /\
  Forall (fun v => lag_min_window st' <= v <= lag_max_window st')
    (lag_history st').
Proof.
  intros HL Hlag Hlim Hh Hs st'. subst st'. unfold update_lag_stats.
  destruct (Z.leb_spec 0 lag); [| lia].
  rewrite Hlim, Hh. unfold lastn.
  pose proof (delay_step L seen lag) as [_ [H2 [H3 H4]]]. cbv zeta in H2, H3, H4.
  rewrite H2.
  set (h := skipn (length seen - L) seen ++ [lag]) in *.
  assert (Hsum : lag_sum st + lag = sum_of h).
  { subst h. rewrite sum_of_app, Hs, Hh. unfold lastn, sum_of. cbn. lia. }
  assert (Hnew : (let '(h0, sum) :=
                    if negb (length seen <? L)%nat
                    then (tl h, lag_sum st + lag - hd 0 h)
                    else (h, lag_sum st + lag) in (h0, sum))
                 = (skipn (length (seen ++ [lag]) - L) (seen ++ [lag]),
                    sum_of (skipn (length (seen ++ [lag]) - L) (seen ++ [lag])))).
  { destruct (Nat.ltb_spec (length seen) L) as [Hlt | Hge]; cbn [negb].
    - destruct (H3 Hlt) as [E _]. now rewrite <- E, Hsum.
    - destruct (H4 Hge) as [E _]. now rewrite <- E, sum_of_tl, Hsum. }
  destruct (if negb (length seen <? L)%nat
            then (tl h, lag_sum st + lag - hd 0 h)
            else (h, lag_sum st + lag)) as [h0 sum0].
  injection Hnew as -> ->.
  set (w := skipn (length (seen ++ [lag]) - L) (seen ++ [lag])).
  assert (Hw : (1 <= length w)%nat).
  { subst w. rewrite length_skipn, length_app. cbn [length]. lia. }
  destruct (Z.ltb_spec 0 (size w)) as [_ | Hbad];
    [| unfold size in Hbad; lia].
  pose proof (min_max_fold w (hd 0 w) (hd 0 w)) as HM. cbv zeta in HM.
  destruct (fold_left _ w (hd 0 w, hd 0 w)) as [mn mx]. cbn [fst snd] in HM.
  destruct HM as [M1 [M2 [M3 [M4 M5]]]].
  cbn [lag_history lag_sum lag_history_limit lag_stats_ready lag_avg_latest
       lag_min_window lag_max_window lag_last].
  assert (Hhd : In (hd 0 w) w) by (destruct w; [cbn in Hw; lia | now left]).
  repeat split; try assumption.
  - destruct M4 as [-> | M4]; assumption.
  - destruct M5 as [-> | M5]; assumption.
Qed.

Lemma filter_snoc (f : Z -> bool) (l : list Z) (x : Z) :
  filter f (l ++ [x]) = if f x then filter f l ++ [x] else filter f l.
Proof.
  rewrite filter_app. cbn [filter]. destruct (f x); [reflexivity |].
  apply app_nil_r.
Qed.

(** X15. The lag statistics of the log are those of a sliding window:
    after any sequence of estimates, [lag_history] holds the last ten
    that were not negative (the sentinel -1 is skipped), [lag_sum] is
    their sum, and once there is one, [lag_min_window] and
    [lag_max_window] are the least and the greatest of the window,
    [lag_last] is the latest and the average is [lag_sum] over the size
    of the window. *)
Theorem lag_stats_window (lags : list Z) :
  let st := fold_left update_lag_stats lags lag_stats_init in
  let seen := filter (fun v => 0 <=? v) lags in
  lag_history st = lastn 10 seen /\
  lag_sum st = sum_of (lag_history st) /\
  lag_history_limit st = 10 /\
  (seen = [] -> st = lag_stats_init) /\
  (seen <> [] ->
   lag_stats_ready st = true /\
   lag_last st = last seen 0 /\
   lag_avg_latest st = (lag_sum st, size (lag_history st)) /\
   In (lag_min_window st) (lag_history st) /\
   In (lag_max_window st) (lag_history st) /\
   Forall (fun v => lag_min_window st <= v <= lag_max_window st)
     (lag_history st)).
Proof.
  induction lags as [| x l IH] using rev_ind.
  - cbn. split; [reflexivity |]. split; [reflexivity |]. split; [reflexivity |].
    split; [reflexivity | intros Hne; now contradiction Hne].
  - cbv zeta in *. rewrite fold_left_app, filter_snoc. cbn [fold_left].
    destruct IH as [I1 [I2 [I3 [I4 I5]]]].
    set (st := fold_left update_lag_stats l lag_stats_init) in *.
    set (seen := filter (fun v => 0 <=? v) l) in *.
    destruct (Z.leb_spec 0 x) as [Hx | Hx].
    + pose proof (update_lag_stats_step st 10 seen x ltac:(lia) Hx I3 I1 I2)
        as [S1 [S2 [S3 [S4 [S5 [S6 [S7 [S8 S9]]]]]]]].
      split; [exact S2 |]. split; [exact S3 |]. split; [exact S1 |].
      split; [intros Hnil; now destruct seen |].
      intros _. rewrite last_snoc. repeat split; assumption.
    + assert (E : update_lag_stats st x = st).
      { unfold update_lag_stats. destruct (Z.leb_spec 0 x); [lia | reflexivity]. }
      rewrite E. repeat split; try assumption; apply I5; assumption.
Qed.

End LagStatistics.

(** ** cancel_file.cc: writing and reading a WAV file *)

Section Wav.

Import CancelFile.

(** Bits that do not overlap: [a | (b << n)] is [a + b * 2^n]. *)
Lemma lor_shiftl_add (a b n : Z) :
  0 <= n -> 0 <= a < 2 ^ n -> Z.lor a (Z.shiftl b n) = a + b * 2 ^ n.
Proof.
  intros Hn Ha.
  assert (Hland : Z.land a (Z.shiftl b n) = 0).
  { apply Z.bits_inj'. intros i Hi.
    rewrite Z.land_spec, Z.bits_0.
    destruct (Z.lt_ge_cases i n) as [Hlt | Hge].
    - rewrite Z.shiftl_spec_low by lia. apply andb_false_r.
    - assert (E : Z.testbit a i = false).
      { destruct (Z.eq_dec a 0) as [-> | Hnz]; [apply Z.bits_0 |].
        apply Z.bits_above_log2; [lia |].
        apply Z.log2_lt_pow2; [lia |].
        apply Z.lt_le_trans with (2 ^ n); [lia |].
        apply Z.pow_le_mono_r; lia. }
      now rewrite E. }
  rewrite <- Z.lxor_lor by exact Hland.
  rewrite <- Z.add_nocarry_lxor by exact Hland.
  now rewrite Z.shiftl_mul_pow2.
Qed.

Lemma byte_at_app_r (pre l : list Z) (i : Z) :
  0 <= i -> byte_at (pre ++ l) (size pre + i) = byte_at l i.
Proof.
  intros Hi. unfold byte_at, size.
  rewrite app_nth2 by lia. f_equal. lia.
Qed.

Lemma byte_at_app_l (l post : list Z) (i : Z) :
  0 <= i < size l -> byte_at (l ++ post) i = byte_at l i.
Proof.
  intros Hi. unfold byte_at, size in *. apply app_nth1. lia.
Qed.

Lemma byte_range (z : Z) (i : Z) : 0 <= (z / 256 ^ i) mod 256 < 256.
Proof. apply Z.mod_pos_bound. lia. Qed.

(** Reading back an integer from its bytes in memory. *)
Lemma rd32le_le_bytes (pre post : list Z) (z : Z) :
  0 <= z < 2 ^ 32 ->
  rd32le (pre ++ le_bytes 4 z ++ post) (size pre) = z.
Proof.
  intros Hz. unfold rd32le.
  rewrite <- (Z.add_0_r (size pre)) at 1.
  rewrite !byte_at_app_r by lia.
  rewrite !byte_at_app_l by (cbn; lia).
  unfold le_bytes, byte_at.
  change (Z.to_nat 0) with 0%nat. change (Z.to_nat 1) with 1%nat.
  change (Z.to_nat 2) with 2%nat. change (Z.to_nat 3) with 3%nat.
  cbn [map seq nth Z.of_nat Pos.of_succ_nat Pos.succ].
  change (256 ^ 0) with 1. change (256 ^ 1) with 256.
  change (256 ^ 2) with 65536. change (256 ^ 3) with 16777216.
  rewrite Z.div_1_r.
  pose proof (byte_range z 0) as B0. pose proof (byte_range z 1) as B1.
  pose proof (byte_range z 2) as B2. pose proof (byte_range z 3) as B3.
  change (256 ^ 0) with 1 in B0. change (256 ^ 1) with 256 in B1.
  change (256 ^ 2) with 65536 in B2. change (256 ^ 3) with 16777216 in B3.
  rewrite Z.div_1_r in B0.
  set (b0 := z mod 256) in *. set (b1 := (z / 256) mod 256) in *.
  set (b2 := (z / 65536) mod 256) in *. set (b3 := (z / 16777216) mod 256) in *.
  rewrite (lor_shiftl_add b0 b1 8) by (change (2 ^ 8) with 256; lia).
  change (2 ^ 8) with 256.
  rewrite (lor_shiftl_add (b0 + b1 * 256) b2 16)
    by (change (2 ^ 16) with 65536; lia).
  change (2 ^ 16) with 65536.
  rewrite (lor_shiftl_add (b0 + b1 * 256 + b2 * 65536) b3 24)
    by (change (2 ^ 24) with 16777216; lia).
  change (2 ^ 24) with 16777216.
  unfold uint32. change (2 ^ 32) with 4294967296 in *.
  subst b0 b1 b2 b3.
  Z.to_euclidean_division_equations. lia.
Qed.

Lemma rd16le_le_bytes (pre post : list Z) (z : Z) :
  0 <= z < 2 ^ 16 ->
  rd16le (pre ++ le_bytes 2 z ++ post) (size pre) = z.
Proof.
  intros Hz. unfold rd16le.
  rewrite <- (Z.add_0_r (size pre)) at 1.
  rewrite !byte_at_app_r by lia.
  rewrite !byte_at_app_l by (cbn; lia).
  unfold le_bytes, byte_at.
  change (Z.to_nat 0) with 0%nat. change (Z.to_nat 1) with 1%nat.
  change (Z.to_nat 2) with 2%nat. change (Z.to_nat 3) with 3%nat.
  cbn [map seq nth Z.of_nat Pos.of_succ_nat Pos.succ].
  change (256 ^ 0) with 1. change (256 ^ 1) with 256.
  rewrite Z.div_1_r.
  pose proof (byte_range z 0) as B0. pose proof (byte_range z 1) as B1.
  change (256 ^ 0) with 1 in B0. change (256 ^ 1) with 256 in B1.
  rewrite Z.div_1_r in B0.
  set (b0 := z mod 256) in *. set (b1 := (z / 256) mod 256) in *.
  rewrite (lor_shiftl_add b0 b1 8) by (change (2 ^ 8) with 256; lia).
  change (2 ^ 8) with 256.
  unfold uint16. change (2 ^ 16) with 65536 in *.
  subst b0 b1.
  Z.to_euclidean_division_equations. lia.
Qed.


Lemma chunk_loop_S (fuel : nat) (buf : list Z) (pos sr ch : Z) :
  chunk_loop (S fuel) buf pos sr ch
  = if pos + 8 <=? size buf then
      let id := rd32le buf pos in
      let sz := rd32le buf (pos + 4) in
      let start := pos + 8 in
      if id =? 0x20746d66 then
        let fmt := rd16le buf start in
        let ch := rd16le buf (start + 2) in
        let sr := to_int32 (rd32le buf (start + 4)) in
        let bps := rd16le buf (start + 14) in
        if negb (fmt =? 1) || negb (bps =? 16) then None
        else chunk_loop fuel buf (start + sz) sr ch
      else if id =? 0x61746164 then Some (sr, ch, start, sz)
      else chunk_loop fuel buf (start + sz) sr ch
    else Some (sr, ch, 0, 0).
Proof. reflexivity. Qed.

(** The chunk loop does not run out of fuel: one more unit changes
    nothing once the fuel exceeds what is left of the buffer. *)
Lemma chunk_loop_enough (fuel : nat) (buf : list Z) (pos sr ch : Z) :
  0 <= pos ->
  size buf - pos < Z.of_nat fuel ->
  chunk_loop (S fuel) buf pos sr ch = chunk_loop fuel buf pos sr ch.
Proof.
  revert pos sr ch. induction fuel as [| fuel IH]; intros pos sr ch Hpos Hf.
  - cbn [chunk_loop]. destruct (Z.leb_spec (pos + 8) (size buf)); [lia |].
    reflexivity.
  - rewrite (chunk_loop_S (S fuel)), (chunk_loop_S fuel).
    destruct (Z.leb_spec (pos + 8) (size buf)); [| reflexivity].
    cbv zeta.
    assert (Hsz : 0 <= rd32le buf (pos + 4)).
    { unfold rd32le, uint32. apply Z.mod_pos_bound. reflexivity. }
    destruct (_ =? 0x20746d66).
    + destruct (_ || _); [reflexivity |]. apply IH; lia.
    + destruct (_ =? 0x61746164); [reflexivity |]. apply IH; lia.
Qed.

Lemma wav_body_length (processed : list Z) :
  length (wav_body processed) = (2 * length processed)%nat.
Proof.
  unfold wav_body. induction processed as [| s l IH]; [reflexivity |].
  cbn [map concat]. rewrite length_app, IH. cbn [le_bytes map seq length]. lia.
Qed.

Lemma to_int16_uint16 (s : Z) :
  -32768 <= s <= 32767 -> to_int16 (uint16 s) = s.
Proof.
  intros H. unfold to_int16, uint16. change (2 ^ 16) with 65536.
  Z.to_euclidean_division_equations. lia.
Qed.

Lemma le_bytes_2 (z : Z) : le_bytes 2 z = [z mod 256; (z / 256) mod 256].
Proof.
  unfold le_bytes. cbn [map seq Z.of_nat Pos.of_succ_nat].
  change (256 ^ 0) with 1. change (256 ^ 1) with 256.
  now rewrite Z.div_1_r.
Qed.

(** Reading the samples back from the data bytes. *)
Lemma read_samples (processed pre : list Z) :
  Forall (fun s => -32768 <= s <= 32767) processed ->
  map (fun i =>
         to_int16 (Z.lor (byte_at (pre ++ wav_body processed)
                            (size pre + 2 * Z.of_nat i))
                     (Z.shiftl
                        (byte_at (pre ++ wav_body processed)
                           (size pre + 2 * Z.of_nat i + 1)) 8)))
      (seq 0 (length processed))
  = processed.
Proof.
  intros Hall. revert pre. induction Hall as [| s l Hs Hl IH]; intros pre.
  - reflexivity.
  - cbn [length seq map]. f_equal.
    + unfold wav_body. cbn [map concat]. rewrite le_bytes_2. cbn [app].
      change (2 * Z.of_nat 0) with 0.
      rewrite <- Z.add_assoc, !byte_at_app_r by lia.
      unfold byte_at. cbn [nth Z.to_nat Pos.to_nat Pos.iter_op Nat.add].
      change (Z.to_nat (0 + 1)) with 1%nat. change (Z.to_nat 0) with 0%nat.
      cbn [nth].
      pose proof (byte_range (uint16 s) 0) as B0.
      pose proof (byte_range (uint16 s) 1) as B1.
      change (256 ^ 0) with 1 in B0. change (256 ^ 1) with 256 in B1.
      rewrite Z.div_1_r in B0.
      rewrite lor_shiftl_add by (change (2 ^ 8) with 256; lia).
      change (2 ^ 8) with 256.
      rewrite <- (to_int16_uint16 s Hs) at 3. f_equal.
      assert (0 <= uint16 s < 65536) by (apply Z.mod_pos_bound; reflexivity).
      Z.to_euclidean_division_equations. lia.
    + rewrite <- seq_shift, map_map.
      specialize (IH (pre ++ le_bytes 2 (uint16 s))).
      etransitivity; [| exact IH].
      apply map_ext. intros i.
      assert (E : pre ++ wav_body (s :: l)
                  = (pre ++ le_bytes 2 (uint16 s)) ++ wav_body l).
      { unfold wav_body. cbn [map concat]. now rewrite app_assoc. }
      rewrite E.
      assert (Esz : size (pre ++ le_bytes 2 (uint16 s)) = size pre + 2).
      { unfold size. rewrite length_app. cbn [le_bytes map seq length]. lia. }
      rewrite Esz.
      replace (size pre + 2 * Z.of_nat (S i)) with (size pre + 2 + 2 * Z.of_nat i)
        by lia.
      reflexivity.
Qed.

(** The 44 bytes in front of the samples. *)
Lemma write_wav_layout (processed : list Z) :
  let data_bytes := uint32 (size processed * 2) in
  write_wav processed
  = ((RIFF ++ le_bytes 4 (uint32 (36 + data_bytes)) ++ WAVE
      ++ fmt_ ++ le_bytes 4 16 ++ le_bytes 2 1 ++ le_bytes 2 1
      ++ le_bytes 4 16000 ++ le_bytes 4 32000 ++ le_bytes 2 2 ++ le_bytes 2 16
      ++ data)
     ++ le_bytes 4 data_bytes ++ [])
    ++ firstn (Z.to_nat data_bytes) (wav_body processed).
Proof. reflexivity. Qed.


Lemma write_wav_reads (processed : list Z) :
  let buf := write_wav processed in
  tag_at buf 0 RIFF = true /\
  tag_at buf 8 WAVE = true /\
  rd32le buf 12 = 0x20746d66 /\
  rd32le buf (12 + 4) = 16 /\
  rd16le buf (12 + 8) = 1 /\
  rd16le buf (12 + 8 + 2) = 1 /\
  rd32le buf (12 + 8 + 4) = 16000 /\
  rd16le buf (12 + 8 + 14) = 16 /\
  rd32le buf (12 + 8 + 16) = 0x61746164.
Proof. repeat split; reflexivity. Qed.

Lemma write_wav_data_size (processed : list Z) :
  rd32le (write_wav processed) (12 + 8 + 16 + 4)
  = uint32 (size processed * 2).
Proof.
  set (D := uint32 (size processed * 2)).
  change (write_wav processed)
    with ((RIFF ++ le_bytes 4 (uint32 (36 + D)) ++ WAVE
           ++ fmt_ ++ le_bytes 4 16 ++ le_bytes 2 1 ++ le_bytes 2 1
           ++ le_bytes 4 16000 ++ le_bytes 4 32000 ++ le_bytes 2 2
           ++ le_bytes 2 16 ++ data)
          ++ le_bytes 4 D ++ firstn (Z.to_nat D) (wav_body processed)).
  apply (rd32le_le_bytes
           (RIFF ++ le_bytes 4 (uint32 (36 + D)) ++ WAVE
            ++ fmt_ ++ le_bytes 4 16 ++ le_bytes 2 1 ++ le_bytes 2 1
            ++ le_bytes 4 16000 ++ le_bytes 4 32000 ++ le_bytes 2 2
            ++ le_bytes 2 16 ++ data)).
  subst D. unfold uint32. apply Z.mod_pos_bound. reflexivity.
Qed.

Lemma write_wav_riff_size (processed : list Z) :
  rd32le (write_wav processed) 4
  = uint32 (36 + uint32 (size processed * 2)).
Proof.
  set (D := uint32 (size processed * 2)).
  change (write_wav processed)
    with (RIFF ++ le_bytes 4 (uint32 (36 + D))
          ++ (WAVE ++ fmt_ ++ le_bytes 4 16 ++ le_bytes 2 1 ++ le_bytes 2 1
              ++ le_bytes 4 16000 ++ le_bytes 4 32000 ++ le_bytes 2 2
              ++ le_bytes 2 16 ++ data ++ le_bytes 4 D
              ++ firstn (Z.to_nat D) (wav_body processed))).
  apply (rd32le_le_bytes RIFF).
  unfold uint32. apply Z.mod_pos_bound. reflexivity.
Qed.

Lemma write_wav_size (processed : list Z) :
  size processed * 2 < 2 ^ 32 ->
  size (write_wav processed) = 44 + 2 * size processed.
Proof.
  intros H. rewrite write_wav_layout. cbv zeta. unfold size in *.
  rewrite !length_app, length_firstn, wav_body_length.
  assert (HD : uint32 (Z.of_nat (length processed) * 2)
               = Z.of_nat (length processed) * 2)
    by (unfold uint32; apply Z.mod_small; lia).
  rewrite HD.
  cbn [RIFF WAVE fmt_ data le_bytes map seq length Nat.add]. lia.
Qed.

(** X16. A file written by [main] is read back by
    [read_wav_pcm16_mono16k] as the samples it was written from: the
    header the one produces is the header the other accepts, and the
    samples survive the two's-complement and byte-order conversions. *)
Theorem wav_round_trip (processed : list Z) :
  processed <> [] ->
  Forall (fun s => -32768 <= s <= 32767) processed ->
  size processed * 2 < 2 ^ 32 ->
  read_wav_pcm16_mono16k (write_wav processed) = Some processed.
Proof.
  intros Hne Hall Hsz.
  assert (Hlen : (1 <= length processed)%nat)
    by (destruct processed; [now contradiction Hne | cbn; lia]).
  pose proof (write_wav_size processed Hsz) as Hsize.
  pose proof (write_wav_reads processed) as
    [R1 [R2 [R3 [R4 [R5 [R6 [R7 [R8 R9]]]]]]]]. cbv zeta in *.
  pose proof (write_wav_data_size processed) as R10.
  assert (HD : uint32 (size processed * 2) = size processed * 2).
  { unfold uint32, size in *. apply Z.mod_small. lia. }
  rewrite HD in R10.
  unfold read_wav_pcm16_mono16k.
  set (buf := write_wav processed) in *.
  destruct (Z.ltb_spec (size buf) 44); [unfold size in *; lia |].
  rewrite R1, R2. cbn [negb orb].
  assert (Hfuel : exists fuel, length buf = S (S fuel)).
  { exists (length buf - 2)%nat. unfold size in *. lia. }
  destruct Hfuel as [fuel ->].
  rewrite chunk_loop_S.
  destruct (Z.leb_spec (12 + 8) (size buf)); [| unfold size in *; lia].
  cbv zeta. rewrite R3, R4, R5, R6, R7, R8.
  change (0x20746d66 =? 0x20746d66) with true. cbv iota.
  change (negb (1 =? 1) || negb (16 =? 16)) with false. cbv iota.
  rewrite chunk_loop_S.
  destruct (Z.leb_spec (12 + 8 + 16 + 8) (size buf)); [| unfold size in *; lia].
  cbv zeta. rewrite R9, R10.
  change (0x61746164 =? 0x20746d66) with false.
  change (0x61746164 =? 0x61746164) with true. cbv iota.
  change (to_int32 16000) with 16000.
  change (12 + 8 + 16 + 8) with 44.
  change (44 =? 0) with false.
  destruct (Z.eqb_spec (size processed * 2) 0); [unfold size in *; lia |].
  cbn [orb]. change (negb (16000 =? 16000) || negb (1 =? 1)) with false.
  cbv iota.
  rewrite Z.div_mul by lia. unfold size at 1. rewrite Nat2Z.id.
  f_equal.
  subst buf. rewrite write_wav_layout. cbv zeta. rewrite HD.
  rewrite firstn_all2 by (rewrite wav_body_length; unfold size; lia).
  set (pre := (RIFF ++ _) ++ _ ++ []).
  change 44 with (size pre).
  now apply read_samples.
Qed.

End Wav.

(** ** cancel_file.cc: the sizes in the header *)

Section WavHeader.

Import CancelFile.

(** X17. The sizes in the header [main] writes are those of the file:
    the file has 44 bytes of header and two bytes for each sample, the
    RIFF size field is the length of the file less 8 and the data size
    field is the length of the file less 44. *)
Theorem wav_header_sizes (processed : list Z) :
  size processed * 2 < 2 ^ 32 - 36 ->
  size (write_wav processed) = 44 + 2 * size processed /\
  rd32le (write_wav processed) 4 = size (write_wav processed) - 8 /\
  rd32le (write_wav processed) 40 = size (write_wav processed) - 44.
Proof.
  intros H.
  assert (H' : size processed * 2 < 2 ^ 32) by lia.
  pose proof (write_wav_size processed H') as Hs.
  assert (HD : uint32 (size processed * 2) = size processed * 2).
  { unfold uint32, size in *. apply Z.mod_small. lia. }
  split; [exact Hs |]. split.
  - rewrite write_wav_riff_size, HD, Hs. unfold uint32.
    rewrite Z.mod_small; unfold size in *; lia.
  - change 40 with (12 + 8 + 16 + 4).
    rewrite write_wav_data_size, HD, Hs. lia.
Qed.

Lemma wav_header_sizes_witness :
  size (write_wav [1; -2; 3]) = 44 + 2 * size [1; -2; 3] /\
  rd32le (write_wav [1; -2; 3]) 4 = size (write_wav [1; -2; 3]) - 8 /\
  rd32le (write_wav [1; -2; 3]) 40 = size (write_wav [1; -2; 3]) - 44.
Proof. apply (wav_header_sizes [1; -2; 3]). vm_compute. reflexivity. Defined.

Lemma wav_round_trip_witness :
  read_wav_pcm16_mono16k (write_wav [1; -2; 32767; -32768])
  = Some [1; -2; 32767; -32768].
Proof.
  apply (wav_round_trip [1; -2; 32767; -32768]).
  - discriminate.
  - repeat constructor; vm_compute; intros H; discriminate H.
  - vm_compute. reflexivity.
Defined.

Lemma chunk_loop_data_size (fuel : nat) (buf : list Z) (pos sr ch : Z)
    (sr' ch' data_off data_size : Z) :
  chunk_loop fuel buf pos sr ch = Some (sr', ch', data_off, data_size) ->
  0 <= data_size < 2 ^ 32.
Proof.
  revert pos sr ch. induction fuel as [| fuel IH]; intros pos sr ch.
  - cbn [chunk_loop]. intros H. injection H as _ _ _ <-. lia.
  - rewrite chunk_loop_S. cbv zeta.
    destruct (_ <=? _); [| intros H; injection H as _ _ _ <-; lia].
    destruct (_ =? 0x20746d66).
    + destruct (_ || _); [discriminate |]. apply IH.
    + destruct (_ =? 0x61746164); [| apply IH].
      intros H. injection H as _ _ _ <-.
      unfold rd32le, uint32. apply Z.mod_pos_bound. reflexivity.
Qed.

(** What the reader returns has fewer than [2^31] samples. *)
Lemma read_wav_size (buf x : list Z) :
  read_wav_pcm16_mono16k buf = Some x -> size x * 2 < 2 ^ 32.
Proof.
  unfold read_wav_pcm16_mono16k.
  destruct (_ <? 44); [discriminate |].
  destruct (_ || _); [discriminate |].
  destruct (chunk_loop _ _ _ _ _) as [[[[sr ch] data_off] data_size] |] eqn:E;
    [| discriminate].
  destruct (_ || _); [discriminate |].
  destruct (_ || _); [discriminate |].
  intros H. injection H as <-.
  pose proof (chunk_loop_data_size _ _ _ _ _ _ _ _ _ E) as Hd.
  unfold size. rewrite length_map, length_seq, Z2Nat.id
    by (apply Z.div_pos; lia).
  Z.to_euclidean_division_equations. lia.
Qed.

End WavHeader.

(** ** cancel_file.cc: the block loop and the program *)

Section Files.

Import CancelFile.

Context {F : Type} {A : Arith F} {IO : ArithIO F}.

Lemma to_int16_range (z : Z) : -32768 <= to_int16 z <= 32767.
Proof.
  unfold to_int16. pose proof (Z.mod_pos_bound (z + 32768) 65536 ltac:(lia)). lia.
Qed.

Lemma block_of_samples_range (f : Z -> F) :
  Forall (fun s => -32768 <= s <= 32767)
    (Echoback.block_of (fun i => float_to_sample (f i))).
Proof.
  unfold Echoback.block_of. apply Forall_forall. intros s Hs.
  apply in_map_iff in Hs as [i [<- _]]. apply to_int16_range.
Qed.

Lemma for_from_S {St : Type} (n : nat) (i : Z) (body : Z -> St -> St) (s : St) :
  for_from (S n) i body s = for_from n (i + 1) body (body i s).
Proof. reflexivity. Qed.

(** One pass of the block loop of [main] appends a block of 160
    samples, each in the 16-bit range. *)
Lemma process_block_at_spec (x y : list Z) (i : Z) (sup : Fixed.State F)
    (acc : list Z) :
  exists sup' blk,
    process_block_at x y i (sup, acc) = (sup', acc ++ blk) /\
    length blk = 160%nat /\
    Forall (fun s => -32768 <= s <= 32767) blk.
Proof.
  unfold process_block_at.
  destruct (Fixed.process_block sup _ _) as [sup1 r].
  eexists. eexists. split; [reflexivity |].
  split; [apply block_of_length | apply block_of_samples_range].
Qed.

(** The block loop of [main], [n] blocks on. *)
Lemma process_files_loop (x y : list Z) (n : nat) (i : Z)
    (sup : Fixed.State F) (acc : list Z) :
  length (snd (for_from n i (process_block_at x y) (sup, acc)))
  = (length acc + 160 * n)%nat /\
  (Forall (fun s => -32768 <= s <= 32767) acc ->
   Forall (fun s => -32768 <= s <= 32767)
     (snd (for_from n i (process_block_at x y) (sup, acc)))).
Proof.
  revert i sup acc. induction n as [| n IH]; intros i sup acc.
  - cbn [for_from snd]. split; [lia | auto].
  - rewrite for_from_S.
    destruct (process_block_at_spec x y i sup acc) as [sup' [blk [E [Hl Hr]]]].
    rewrite E.
    destruct (IH (i + 1) sup' (acc ++ blk)) as [I1 I2]. split.
    + rewrite I1, length_app, Hl. lia.
    + intros Hacc. apply I2. apply Forall_app. split; assumption.
Qed.

(** X18. The comparator processes whole blocks only: it gives up when
    the shorter of the two inputs has fewer than 160 samples, and
    otherwise writes 160 samples for every whole block of the shorter
    input, each within the 16-bit range; what is left over is dropped. *)
Theorem process_files_blocks (x y : list Z) :
  let n := Z.min (size x) (size y) in
  (process_files x y = None <-> n < kBlockSamples) /\
  (forall processed,
      process_files x y = Some processed ->
      size processed = kBlockSamples * (n / kBlockSamples) /\
      size processed <= n /\
      Forall (fun s => -32768 <= s <= 32767) processed).
Proof.
  intros n. unfold process_files.
  assert (Hmin : (if size y <? size x then size y else size x) = n).
  { subst n. destruct (Z.ltb_spec (size y) (size x)); lia. }
  rewrite Hmin.
  assert (Hn : 0 <= n) by (subst n; unfold size; lia).
  unfold kBlockSamples.
  pose proof (Z.div_mod n 160 ltac:(lia)) as Hq.
  pose proof (Z.mod_pos_bound n 160 ltac:(lia)) as Hr.
  assert (Hb : 0 <= n / 160) by (apply Z.div_pos; lia).
  destruct (Z.eqb_spec (n / 160) 0) as [E | E].
  - split; [split; [intros _; lia | reflexivity] | discriminate].
  - split; [split; [discriminate | intros Hlt; lia] |].
    intros processed H. injection H as <-.
    unfold for_up.
    pose proof (process_files_loop x y (Z.to_nat (n / 160)) 0 Fixed.init [])
      as HL.
    destruct HL as [L1 L2].
    unfold size at 1 2. rewrite L1. cbn [length Nat.add].
    split; [lia |]. split; [lia |]. apply L2. constructor.
Qed.

(** X19. What the comparator writes, it can read: whenever [main]
    succeeds, the bytes of processed.wav are accepted by
    [read_wav_pcm16_mono16k], which gives back the processed samples,
    a whole number of blocks. *)
Theorem main_output_readable (render capture out_file : list Z) :
  main render capture = Some out_file ->
  exists processed,
    out_file = write_wav processed /\
    read_wav_pcm16_mono16k out_file = Some processed /\
    0 < size processed /\
    size processed mod kBlockSamples = 0.
Proof.
  unfold main.
  destruct (read_wav_pcm16_mono16k render) as [x |] eqn:Ex; [| discriminate].
  destruct (read_wav_pcm16_mono16k capture) as [y |] eqn:Ey; [| discriminate].
  destruct (process_files x y) as [processed |] eqn:Ep; [| discriminate].
  intros H. injection H as <-.
  pose proof (process_files_blocks x y) as [Hnone Hsome]. cbv zeta in *.
  destruct (Hsome processed Ep) as [H1 [H2 H3]].
  pose proof (read_wav_size render x Ex) as Hx.
  assert (Hq : 0 < Z.min (size x) (size y) / kBlockSamples).
  { assert (Hnn : ~ Z.min (size x) (size y) < kBlockSamples).
    { intros Hlt. apply Hnone in Hlt. rewrite Ep in Hlt. discriminate Hlt. }
    apply Z.div_str_pos. unfold kBlockSamples in *. lia. }
  assert (Hpos : 0 < size processed).
  { rewrite H1. unfold kBlockSamples in *. lia. }
  exists processed. split; [reflexivity |]. split.
  - apply wav_round_trip.
    + intros Hnil. rewrite Hnil in Hpos. unfold size in Hpos.
      cbn [length] in Hpos. lia.
    + exact H3.
    + assert (Hle : size processed <= size x) by lia. lia.
  - split; [exact Hpos |].
    rewrite H1, Z.mul_comm. apply Z.mod_mul. unfold kBlockSamples. lia.
Qed.

End Files.

(** ** The first suppressor.h: [process_frame] and [process_block] *)

Section LegacyFrame.

(** In exact arithmetic [operator<] is a total order: what is below [z]
    is below [y] or [y] is below [z]. *)
Lemma xr_ltb_negtrans (x y z : xreal) :
  XR.ltb x z = true -> XR.ltb x y = true \/ XR.ltb y z = true.
Proof.
  destruct x as [| a], y as [| b], z as [| c]; cbn [XR.ltb];
    try (intros H; discriminate H); try (intros _; left; reflexivity);
    try (intros _; right; reflexivity).
  destruct (Rlt_dec a c) as [Hac | Hac]; [| intros H; discriminate H].
  intros _. destruct (Rlt_dec a b); [left; reflexivity |].
  right. destruct (Rlt_dec b c); [reflexivity | lra].
Qed.

Section Loops.

Variables (score far_pow : Z -> xreal).

(** The running best of [process_block] and that of [process_frame]
    after the same candidates: the same score and lag, or
    [process_frame] still at its initial zero and [process_block] not
    above zero. *)
Lemma loops_agree (fuel : nat) (max_lag lag_step lag : Z) (b : Best xreal)
    (p : xreal * Z) :
  (fst p = best_score b /\ snd p = best_lag b
   /\ best_far_pow b = far_pow (best_lag b))
  \/ (p = (zero, 0) /\ f_ltb zero (best_score b) = false) ->
  let b' := lag_loop score far_pow fuel max_lag lag_step lag b in
  let p' := Legacy.lag_loop score fuel max_lag lag_step lag p in
  (fst p' = best_score b' /\ snd p' = best_lag b'
   /\ best_far_pow b' = far_pow (best_lag b'))
  \/ (p' = (zero, 0) /\ f_ltb zero (best_score b') = false).
Proof.
  revert lag b p. induction fuel as [| fuel IH]; intros lag b p H.
  - exact H.
  - cbn [lag_loop Legacy.lag_loop].
    destruct (lag <=? max_lag); [| exact H].
    apply IH. unfold consider, Legacy.consider.
    destruct H as [[H1 [H2 H3]] | [H1 H2]].
    + rewrite H1.
      destruct (f_ltb (best_score b) (score lag)); cbn [fst snd best_score
        best_lag best_far_pow]; left; repeat split; assumption.
    + rewrite H1. cbn [fst].
      destruct (f_ltb zero (score lag)) eqn:E0.
      * assert (E1 : f_ltb (best_score b) (score lag) = true).
        { destruct (xr_ltb_negtrans _ (best_score b) _ E0) as [Hc | Hc];
            [| exact Hc].
          change (@f_ltb xreal exact) with XR.ltb in H2.
          rewrite H2 in Hc. discriminate Hc. }
        rewrite E1. cbn [fst snd best_score best_lag best_far_pow].
        left. repeat split.
      * right. split; [reflexivity |].
        destruct (f_ltb (best_score b) (score lag));
          cbn [best_score]; assumption.
Qed.

End Loops.

Lemma xr_ltb_neg_inf_zero : f_ltb (zero : xreal) f_neg_inf = false.
Proof. reflexivity. Qed.

(** X20. In exact arithmetic, with a similarity threshold that is not
    negative, [process_frame] of the first suppressor.h and
    [process_block] with the correlation metric are the same function:
    the same new state, the same output, gain and flag.  Starting the
    search at zero instead of minus infinity and recomputing the
    reference power of the winning lag make no difference. *)
Theorem process_frame_agrees (st : EchoSuppressor xreal) (far mic : list xreal) :
  lag_metric (config_ st) = kNCC ->
  f_ltb (rho_thresh (config_ st)) zero = false ->
  fst (Legacy.process_frame st far mic) = fst (process_block st far mic) /\
  Legacy.frame_out (snd (Legacy.process_frame st far mic))
  = out (snd (process_block st far mic)) /\
  Legacy.frame_gain (snd (Legacy.process_frame st far mic))
  = applied_gain (snd (process_block st far mic)) /\
  Legacy.frame_suppress (snd (Legacy.process_frame st far mic))
  = suppressed (snd (process_block st far mic)).
Proof.
  intros Hncc Hth.
  unfold Legacy.process_frame, process_block, lag_search, decide_echo,
    use_amdf_of, mic_abs_sum.
  rewrite Hncc. cbn [LagMetric_eqb].
  destruct (push_block (block_samples_ st) far (far_hist_ st) (hist_pos_ st))
    as [hist pos].
  set (mic_pow := mic_power (block_samples_ st) mic).
  set (score := lag_score false hist pos (block_samples_ st) mic mic_pow zero).
  set (fp := lag_far_pow false hist pos (block_samples_ st) mic).
  pose proof (loops_agree score fp (lag_fuel (max_lag_samples_ st))
                (max_lag_samples_ st) (lag_step_of (fs_ st)) 0 best_init
                (zero, 0)
                (or_intror (conj eq_refl xr_ltb_neg_inf_zero))) as H.
  cbv zeta in H.
  set (b := lag_loop score fp _ _ _ 0 best_init) in *.
  set (p := Legacy.lag_loop score _ _ _ 0 (zero, 0)) in *.
  assert (Hecho :
      f_ltb (rho_thresh (config_ st)) (fst p)
      && f_ltb mic_pow (f_mul (power_ratio_alpha (config_ st)) (fp (snd p)))
      = f_ltb (rho_thresh (config_ st)) (best_score b)
        && f_ltb mic_pow
             (f_mul (power_ratio_alpha (config_ st))
                (fmax (best_far_pow b) eps))).
  { destruct H as [[H1 [H2 H3]] | [H1 H2]].
    - rewrite H1, H2, H3. f_equal. f_equal. f_equal.
      subst fp. unfold lag_far_pow.
      destruct (window_sums _ _ _ _ _ _) as [[a0 fp0] fa0].
      symmetry. apply fmax_idem.
    - rewrite H1. cbn [fst snd]. rewrite Hth. cbn [andb].
      destruct (f_ltb (rho_thresh (config_ st)) (best_score b)) eqn:E;
        [| reflexivity].
      destruct (xr_ltb_negtrans _ zero _ E) as [Hc | Hc].
      + change (@f_ltb xreal exact) with XR.ltb in Hth.
        rewrite Hth in Hc. discriminate Hc.
      + change (@f_ltb xreal exact) with XR.ltb in H2.
        rewrite H2 in Hc. discriminate Hc. }
  rewrite Hecho.
  destruct (hangover _ _ _) as [hang suppress].
  cbn [fst snd Legacy.frame_out Legacy.frame_gain Legacy.frame_suppress out
       applied_gain suppressed].
  repeat split.
Qed.

End LegacyFrame.

(** ** The properties of the front ends at work *)

Section FrontEndWitnesses.

Lemma pop_samples_spec_witness :
  let m := Nat.min (length [7; 8]) (Z.to_nat 3) in
  Echoback.pop_samples [7; 8] [0; 0; 0] 3
  = (skipn m [7; 8], firstn m [7; 8] ++ skipn m [0; 0; 0], Z.of_nat m).
Proof.
  apply (pop_samples_spec [7; 8] [0; 0; 0] 3).
  vm_compute. split; intros H; discriminate H.
Defined.

Lemma echo_buffers_whole :
  Forall (fun b => Echoback.size b = Echoback.kBlockLen) echo_buffers.
Proof. repeat constructor. Qed.

Lemma loopback_delay_line_witness :
  let d := Z.to_nat (Echoback.loopback_delay_target_samples echo_demo) in
  concat (snd (Echoback.loopback_blocks echo_demo echo_buffers))
  = Echoback.delayed d (concat echo_buffers) /\
  Echoback.far_delay_line (fst (Echoback.loopback_blocks echo_demo echo_buffers))
  = Echoback.lastn d (concat echo_buffers).
Proof.
  apply (loopback_delay_line echo_demo echo_buffers).
  - reflexivity.
  - vm_compute. intros H. discriminate H.
  - exact echo_buffers_whole.
Defined.

Lemma passthrough_echo_witness :
  concat (snd (Echoback.callbacks echo_demo echo_buffers))
  = Echoback.delayed
      (Z.to_nat (Echoback.loopback_delay_target_samples echo_demo)
       + (160 + Z.to_nat (Echoback.delay_target_samples echo_demo)))
      (concat echo_buffers).
Proof.
  apply (passthrough_echo echo_demo echo_buffers); try reflexivity.
  - vm_compute. intros H. discriminate H.
  - vm_compute. intros H. discriminate H.
  - exact echo_buffers_whole.
Defined.


(** The comparator on two files of one block of silence: the silent
    history scores 1 under the absolute-difference metric, the block is
    muted, and the output is silence again. *)
Lemma main_silent_wav :
  CancelFile.main (F:=spec_float) silent_wav silent_wav = Some silent_wav.
Proof. vm_compute. reflexivity. Qed.

Lemma main_output_readable_witness :
  exists processed,
    silent_wav = CancelFile.write_wav processed /\
    CancelFile.read_wav_pcm16_mono16k silent_wav = Some processed /\
    0 < CancelFile.size processed /\
    CancelFile.size processed mod CancelFile.kBlockSamples = 0.
Proof.
  apply (main_output_readable (F:=spec_float) silent_wav silent_wav silent_wav).
  exact main_silent_wav.
Defined.


Lemma process_frame_agrees_witness :
  fst (Legacy.process_frame exact_demo exact_half exact_half)
  = fst (process_block exact_demo exact_half exact_half) /\
  Legacy.frame_out (snd (Legacy.process_frame exact_demo exact_half exact_half))
  = out (snd (process_block exact_demo exact_half exact_half)) /\
  Legacy.frame_gain (snd (Legacy.process_frame exact_demo exact_half exact_half))
  = applied_gain (snd (process_block exact_demo exact_half exact_half)) /\
  Legacy.frame_suppress
    (snd (Legacy.process_frame exact_demo exact_half exact_half))
  = suppressed (snd (process_block exact_demo exact_half exact_half)).
Proof.
  apply (process_frame_agrees exact_demo exact_half exact_half).
  - reflexivity.
  - apply XRFacts.xr_ltb_Fin_false. lra.
Defined.

Lemma ncc_silent_no_echo_b32_witness :
  echo_detected b32_demo [b32_zero] [b32_zero] = false /\
  estimated_lag_samples (snd (process_block b32_demo [b32_zero] [b32_zero])) = -1.
Proof.
  apply (ncc_silent_no_echo_b32 b32_demo [b32_zero] [b32_zero]).
  - reflexivity.
  - vm_compute. reflexivity.
  - intros x [<- | []]. exists false. reflexivity.
Defined.

End FrontEndWitnesses.

(** ** cancel_file.cc: byte order *)

Section Bytes.

Import CancelFile.

(** X24. [rd32le] and [rd16le] read little-endian: on bytes from 0 to
    255 the value is the first byte plus 256 times the second (plus
    65536 times the third plus 16777216 times the fourth), which is
    below [2^16] (below [2^32]). *)
Theorem rd32le_value (buf : list Z) (p : Z) :
  (forall i, 0 <= byte_at buf i < 256) ->
  rd32le buf p
  = byte_at buf p + 256 * byte_at buf (p + 1) + 65536 * byte_at buf (p + 2)
    + 16777216 * byte_at buf (p + 3) /\
  rd16le buf p = byte_at buf p + 256 * byte_at buf (p + 1) /\
  0 <= rd32le buf p < 2 ^ 32 /\
  0 <= rd16le buf p < 2 ^ 16.
Proof.
  intros Hb. unfold rd32le, rd16le.
  pose proof (Hb p) as B0. pose proof (Hb (p + 1)) as B1.
  pose proof (Hb (p + 2)) as B2. pose proof (Hb (p + 3)) as B3.
  set (b0 := byte_at buf p) in *. set (b1 := byte_at buf (p + 1)) in *.
  set (b2 := byte_at buf (p + 2)) in *. set (b3 := byte_at buf (p + 3)) in *.
  rewrite (lor_shiftl_add b0 b1 8) by (change (2 ^ 8) with 256; lia).
  change (2 ^ 8) with 256.
  rewrite (lor_shiftl_add (b0 + b1 * 256) b2 16)
    by (change (2 ^ 16) with 65536; lia).
  change (2 ^ 16) with 65536.
  rewrite (lor_shiftl_add (b0 + b1 * 256 + b2 * 65536) b3 24)
    by (change (2 ^ 24) with 16777216; lia).
  change (2 ^ 24) with 16777216.
  unfold uint32, uint16. change (2 ^ 32) with 4294967296.
  change (2 ^ 16) with 65536.
  rewrite !Z.mod_small by lia. lia.
Qed.

Lemma rd32le_value_witness :
  rd32le [1; 2; 3; 4] 0
  = byte_at [1; 2; 3; 4] 0 + 256 * byte_at [1; 2; 3; 4] (0 + 1)
    + 65536 * byte_at [1; 2; 3; 4] (0 + 2)
    + 16777216 * byte_at [1; 2; 3; 4] (0 + 3) /\
  rd16le [1; 2; 3; 4] 0
  = byte_at [1; 2; 3; 4] 0 + 256 * byte_at [1; 2; 3; 4] (0 + 1) /\
  0 <= rd32le [1; 2; 3; 4] 0 < 2 ^ 32 /\
  0 <= rd16le [1; 2; 3; 4] 0 < 2 ^ 16.
Proof.
  apply (rd32le_value [1; 2; 3; 4] 0).
  intros i. unfold byte_at.
  destruct (Z.to_nat i) as [| [| [| [| [| n]]]]]; cbn [nth]; lia.
Defined.

End Bytes.
